(** * github-actions-exporter: the collection-and-publication pipeline

    A shallow embedding of package [metrics] (and the part of package
    [config] it reads) of the exporter, and the properties its
    specification states about it.

    Conventions of the embedding.
    - A Go pointer field [*T] is an [option T]; [nil] is [None].
    - [int], [int64] are [Z]. A [float64] gauge value is a rational ([Q]):
      the collectors store integers converted by [float64(..)], which is
      exact below 2^53, and the billing collector one division by 1000.
    - A [time.Time] is the number of nanoseconds since the zero instant
      (January 1, year 1, 00:00:00 UTC), so [IsZero] is equality with 0.
    - The GitHub server is a script of replies per endpoint, consumed one
      reply per call; a computation returns, with its result and the new
      state, the trace of its observable actions (API requests, sleeps,
      warning lines of the log, gauge operations). The progress lines of
      the log are not traced. *)

From Stdlib Require Import ZArith QArith Lia Ascii String List Bool.
From stdpp Require Import base option list gmap strings fin_maps pretty.

Local Open Scope string_scope.
Local Open Scope list_scope.
Local Open Scope Z_scope.

(** Go's [==] on strings. *)
Infix "==" := String.eqb (at level 70, no associativity) : string_scope.

(** ** Go library functions used by the package *)

(** [strings.Split(s, sep)] for a one-byte separator: the substrings
    between the occurrences of [sep]; never the empty list. *)
Fixpoint Split (s : string) (sep : ascii) : list string :=
  match s with
  | EmptyString => [EmptyString]
  | String c rest =>
      if Ascii.eqb c sep then EmptyString :: Split rest sep
      else match Split rest sep with
           | [] => [String c EmptyString]
           | w :: ws => String c w :: ws
           end
  end.

Definition comma : ascii := ascii_of_nat 44.
Definition slash : ascii := ascii_of_nat 47.
Definition newline : ascii := ascii_of_nat 10.

(** [strings.SplitN(s, "\n", 2)[0]]: the text before the first newline. *)
Fixpoint first_line (s : string) : string :=
  match s with
  | EmptyString => EmptyString
  | String c rest => if Ascii.eqb c newline then EmptyString else String c (first_line rest)
  end.

(** The UTF-8 encodings of the code points [unicode.IsSpace] accepts:
    the six ASCII ones, U+0085, U+00A0, U+1680, U+2000..U+200A, U+2028,
    U+2029, U+202F, U+205F and U+3000. *)
Definition space_runes : list (list nat) :=
  [ [9]; [10]; [11]; [12]; [13]; [32];
    [194; 133]; [194; 160]; [225; 154; 128];
    [226; 128; 128]; [226; 128; 129]; [226; 128; 130]; [226; 128; 131];
    [226; 128; 132]; [226; 128; 133]; [226; 128; 134]; [226; 128; 135];
    [226; 128; 136]; [226; 128; 137]; [226; 128; 138];
    [226; 128; 168]; [226; 128; 169]; [226; 128; 175];
    [226; 129; 159]; [227; 128; 128] ]%nat.

Fixpoint strip_bytes (pat : list nat) (bs : list nat) : option (list nat) :=
  match pat, bs with
  | [], _ => Some bs
  | p :: pat', b :: bs' => if Nat.eqb p b then strip_bytes pat' bs' else None
  | _ :: _, [] => None
  end.

(** One leading space rune removed, if there is one. *)
Fixpoint strip_space (pats : list (list nat)) (bs : list nat) : option (list nat) :=
  match pats with
  | [] => None
  | p :: ps => match strip_bytes p bs with
               | Some r => Some r
               | None => strip_space ps bs
               end
  end.

Fixpoint trim_left (fuel : nat) (pats : list (list nat)) (bs : list nat) : list nat :=
  match fuel with
  | O => bs
  | S k => match strip_space pats bs with
           | Some r => trim_left k pats r
           | None => bs
           end
  end.

Fixpoint bytes_of_string (s : string) : list nat :=
  match s with
  | EmptyString => []
  | String c r => nat_of_ascii c :: bytes_of_string r
  end.

Fixpoint string_of_bytes (bs : list nat) : string :=
  match bs with
  | [] => EmptyString
  | b :: r => String (ascii_of_nat b) (string_of_bytes r)
  end.

(** [strings.TrimSpace]: leading and trailing space runes removed. The
    trailing ones are found on the reversed bytes with the reversed
    encodings, which is what [utf8.DecodeLastRune] accepts. *)
Definition TrimSpace (s : string) : string :=
  let bs := bytes_of_string s in
  let l := trim_left (length bs) space_runes bs in
  let r := trim_left (length l) (map (@rev nat) space_runes) (rev l) in
  string_of_bytes (rev r).

(** [strconv.FormatInt(i, 10)] and [strconv.Itoa]. *)
Definition FormatInt (i : Z) : string := pretty i.
Definition Itoa (i : Z) : string := pretty i.

(** [strconv.FormatBool]. *)
Definition FormatBool (b : bool) : string := if b then "true" else "false".

(** *** Package [time] *)

(** A [time.Time]: nanoseconds since the zero instant. *)
Definition Timestamp : Type := Z.

Definition IsZero (t : Timestamp) : bool := t =? 0.

(** [t.After(u)]. *)
Definition After (t u : Timestamp) : bool := u <? t.

Definition maxDuration : Z := 2 ^ 63 - 1.
Definition minDuration : Z := - 2 ^ 63.

(** [t.Sub(u)]: a [time.Duration] in nanoseconds, saturating at the ends
    of the [int64] range. *)
Definition Sub (t u : Timestamp) : Z :=
  let d := t - u in
  if maxDuration <? d then maxDuration
  else if d <? minDuration then minDuration
  else d.

(** [d.Milliseconds()]: integer division, rounding toward zero. *)
Definition Milliseconds (d : Z) : Z := d ÷ 1000000.

(** Seconds between the zero instant and the Unix epoch. *)
Definition unixToInternal : Z := 62135596800.

(** [t.Unix()]. *)
Definition Unix (t : Timestamp) : Z := t `div` 1000000000 - unixToInternal.

(** ** The records of go-github the package reads *)

Module User.
Record t : Type := mk { Login : option string }.
End User.

Module PullRequestBranch.
Record t : Type := mk { Ref : option string }.
End PullRequestBranch.

Module PullRequest.
Record t : Type := mk {
  Number : option Z;
  Title : option string;
  Base : option PullRequestBranch.t }.
End PullRequest.

Module HeadCommit.
Record t : Type := mk { Message : option string }.
End HeadCommit.

Module WorkflowRun.
Record t : Type := mk {
  ID : option Z;
  NodeID : option string;
  HeadBranch : option string;
  HeadSHA : option string;
  Path : option string;
  RunNumber : option Z;
  RunAttempt : option Z;
  Event : option string;
  DisplayTitle : option string;
  Status : option string;
  Conclusion : option string;
  WorkflowID : option Z;
  PullRequests : list (option PullRequest.t);
  Actor : option User.t;
  TriggeringActor : option User.t;
  CreatedAt : option Timestamp;
  UpdatedAt : option Timestamp;
  RunStartedAt : option Timestamp;
  HeadCommit : option HeadCommit.t }.
End WorkflowRun.

Module Workflow.
Record t : Type := mk {
  ID : option Z;
  NodeID : option string;
  Name : option string;
  State : option string }.
End Workflow.

Module Runner.
Record t : Type := mk {
  ID : option Z;
  Name : option string;
  OS : option string;
  Status : option string;
  Busy : option bool }.
End Runner.

Module Repository.
Record t : Type := mk { FullName : option string }.
End Repository.

Module WorkflowRunUsage.
Record t : Type := mk { RunDurationMS : option Z }.
End WorkflowRunUsage.

Module WorkflowBill.
Record t : Type := mk { TotalMS : option Z }.
End WorkflowBill.

Module WorkflowUsage.
(** [Billable] is a pointer to a map from the name of an operating system
    to a bill; the map is kept as the list of its entries in the order a
    [range] over it visits them. *)
Record t : Type := mk { Billable : option (option (list (string * option WorkflowBill.t))) }.
End WorkflowUsage.

(** An error of the client: a [*github.RateLimitError] with the instant
    its [Rate.Reset] reports, or any other error. *)
Inductive error : Type :=
| RateLimitError (Rate_Reset : Timestamp)
| OtherError (msg : string).

(** What a call of the client returns: an error, or a body (a pointer) and
    the response with its next-page cursor. *)
Inductive reply (A : Type) : Type :=
| Failed (err : error)
| Replied (body : option A) (NextPage : Z).
Arguments Failed {A} err.
Arguments Replied {A} body NextPage.

(** The workflow-definition cache: repository -> workflow id -> definition.
    The values are pointers. *)
Abbreviation WorkflowCache := (gmap string (gmap Z (option Workflow.t))).

(** ** get_workflow_runs_from_github.go: the pure part *)

Definition getSafeString (s : option string) : string :=
  match s with Some v => v | None => "" end.

Definition getSafeInt64 (i : option Z) : Z :=
  match i with Some v => v | None => 0 end.

Definition getSafeInt (i : option Z) : Z :=
  match i with Some v => v | None => 0 end.

Definition user_login (u : option User.t) : string :=
  match u with
  | Some a => match User.Login a with Some l => l | None => "" end
  | None => ""
  end.

Definition unix_or_zero (t : option Timestamp) : string :=
  match t with
  | Some v => if negb (IsZero v) then FormatInt (Unix v) else "0"
  | None => "0"
  end.

(** [getFieldValue], lines 41-111. [workflows] is the global cache. *)
Definition getFieldValue (workflows : WorkflowCache) (repoFullName : string)
    (run : WorkflowRun.t) (fieldName : string) : string :=
  if fieldName == "repo" then repoFullName
  else if fieldName == "run_id" then FormatInt (getSafeInt64 (WorkflowRun.ID run))
  else if fieldName == "node_id" then getSafeString (WorkflowRun.NodeID run)
  else if fieldName == "head_branch" then getSafeString (WorkflowRun.HeadBranch run)
  else if fieldName == "head_sha" then getSafeString (WorkflowRun.HeadSHA run)
  else if fieldName == "path" then getSafeString (WorkflowRun.Path run)
  else if fieldName == "run_number" then Itoa (getSafeInt (WorkflowRun.RunNumber run))
  else if fieldName == "run_attempt" then Itoa (getSafeInt (WorkflowRun.RunAttempt run))
  else if fieldName == "event" then getSafeString (WorkflowRun.Event run)
  else if fieldName == "display_title" then getSafeString (WorkflowRun.DisplayTitle run)
  else if fieldName == "status" then getSafeString (WorkflowRun.Status run)
  else if fieldName == "conclusion" then getSafeString (WorkflowRun.Conclusion run)
  else if fieldName == "workflow_id" then FormatInt (getSafeInt64 (WorkflowRun.WorkflowID run))
  else if fieldName == "workflow_name" then
    match workflows !! repoFullName with
    | Some repoWorkflows =>
        match repoWorkflows !! getSafeInt64 (WorkflowRun.WorkflowID run) with
        | Some (Some wf) =>
            match Workflow.Name wf with
            | Some name => name
            | None => "unknown_workflow_name"
            end
        | _ => "unknown_workflow_name"
        end
    | None => "unknown_workflow_name"
    end
  else if fieldName == "pr_number" then
    match WorkflowRun.PullRequests run with
    | Some pr :: _ =>
        match PullRequest.Number pr with
        | Some n => Itoa n
        | None => ""
        end
    | _ => ""
    end
  else if fieldName == "actor_login" then user_login (WorkflowRun.Actor run)
  else if fieldName == "triggering_actor_login" then user_login (WorkflowRun.TriggeringActor run)
  else if fieldName == "created_at_unix" then unix_or_zero (WorkflowRun.CreatedAt run)
  else if fieldName == "updated_at_unix" then unix_or_zero (WorkflowRun.UpdatedAt run)
  else if fieldName == "run_started_at_unix" then unix_or_zero (WorkflowRun.RunStartedAt run)
  else "".

(** The target branch of a run, lines 204-217 of [getWorkflowRunsFromGithub]. *)
Definition derivedTargetBranch (run : WorkflowRun.t) : string :=
  let event := getSafeString (WorkflowRun.Event run) in
  let fallback :=
    match WorkflowRun.HeadBranch run with
    | Some b => b
    | None => ""
    end in
  if event == "pull_request" then
    match WorkflowRun.PullRequests run with
    | Some pr :: _ =>
        match PullRequest.Base pr with
        | Some base =>
            match PullRequestBranch.Ref base with
            | Some ref => ref
            | None => fallback
            end
        | None => fallback
        end
    | _ => fallback
    end
  else fallback.

(** The title of a run, lines 219-229. *)
Definition derivedCommitPrTitle (run : WorkflowRun.t) : string :=
  let event := getSafeString (WorkflowRun.Event run) in
  let fallback :=
    match WorkflowRun.DisplayTitle run with
    | Some (String c r) => String c r
    | _ =>
        match WorkflowRun.HeadCommit run with
        | Some hc =>
            match HeadCommit.Message hc with
            | Some m => TrimSpace (first_line m)
            | None => ""
            end
        | None => ""
        end
    end in
  if event == "pull_request" then
    match WorkflowRun.PullRequests run with
    | Some pr :: _ =>
        match PullRequest.Title pr with
        | Some title => title
        | None => fallback
        end
    | _ => fallback
    end
  else fallback.

(** The numeric status of a run, lines 234-257; the arguments are
    [getSafeString(run.Status)] and [getSafeString(run.Conclusion)]. *)
Definition numericStatus (runStatus runConclusion : string) : Z :=
  if runStatus == "completed" then
    if runConclusion == "success" then 1
    else if runConclusion == "failure" then 0
    else if runConclusion == "cancelled" then 5
    else if runConclusion == "skipped" then 2
    else if runConclusion == "neutral" then 6
    else if runConclusion == "timed_out" then 7
    else 8
  else if (runStatus == "in_progress") || (runStatus == "requested") || (runStatus == "waiting") then 3
  else if runStatus == "queued" then 4
  else if runStatus == "action_required" then 9
  else if runStatus == "stale" then 10
  else 99.

(** The label values of a run in the order of the configured field names,
    lines 260-272. *)
Definition labelValues (workflows : WorkflowCache) (configuredFieldNames : list string)
    (repoFullName : string) (run : WorkflowRun.t) : list string :=
  map (fun fieldName =>
         if fieldName == "derived_target_branch" then derivedTargetBranch run
         else if fieldName == "derived_commit_pr_title" then derivedCommitPrTitle run
         else getFieldValue workflows repoFullName run fieldName)
      configuredFieldNames.

(** The duration of a run, lines 278-299: [usage] is what
    [GetWorkflowRunUsageByID] returned for the run. *)
Definition durationMs (usage : reply WorkflowRunUsage.t) (runStatus : string)
    (run : WorkflowRun.t) : Z :=
  let fallback :=
    if (runStatus == "completed") || (runStatus == "stale") then
      match WorkflowRun.RunStartedAt run, WorkflowRun.UpdatedAt run with
      | Some started, Some updated =>
          if negb (IsZero started) && negb (IsZero updated) then
            if After updated started then Milliseconds (Sub updated started) else -1
          else -1
      | _, _ => -1
      end
    else -1 in
  match usage with
  | Replied (Some runUsage) _ =>
      match WorkflowRunUsage.RunDurationMS runUsage with
      | Some ms => ms
      | None => fallback
      end
  | _ => fallback
  end.

(** ** package config *)

Module config.
Record Github : Type := mkGithub {
  Refresh : Z;
  Repositories : list string;
  Organizations : list string;
  FetchMaxWorkflowCreationAgeHours : Z;
  WorkflowCacheRefreshIntervalSeconds : Z }.
Record Metrics : Type := mkMetrics { FetchWorkflowRunUsage : bool }.
Record t : Type := mk {
  github : Github;
  metrics : Metrics;
  WorkflowFields : string }.
End config.

(** ** The server, the trace and the state of the program *)

(** The operations of the client, with the arguments that stay fixed while
    a list is paged through. [ListRepositoryWorkflowRuns] carries the
    offset in hours from now of its creation filter. *)
Inductive endpoint : Type :=
| ListRepositoryWorkflowRuns (owner repo : string) (hours : Z)
| GetWorkflowRunUsageByID (owner repo : string) (runID : Z)
| ListRunners (owner repo : string)
| ListOrganizationRunners (org : string)
| ListByOrg (org : string)
| ListWorkflows (owner repo : string)
| GetWorkflowUsageByID (owner repo : string) (workflowID : Z).

Inductive gauge : Type :=
| workflowRunStatusGauge
| workflowRunDurationGauge
| runnersGauge
| runnersOrganizationGauge
| workflowBillGauge.

Global Instance gauge_eq_dec : EqDecision gauge.
Proof. solve_decision. Defined.

Definition gauge_index (g : gauge) : nat :=
  match g with
  | workflowRunStatusGauge => 0
  | workflowRunDurationGauge => 1
  | runnersGauge => 2
  | runnersOrganizationGauge => 3
  | workflowBillGauge => 4
  end%nat.

Definition gauge_of_index (n : nat) : option gauge :=
  match n with
  | 0 => Some workflowRunStatusGauge
  | 1 => Some workflowRunDurationGauge
  | 2 => Some runnersGauge
  | 3 => Some runnersOrganizationGauge
  | 4 => Some workflowBillGauge
  | _ => None
  end%nat.

Global Instance gauge_countable : Countable gauge.
Proof.
  apply (inj_countable gauge_index gauge_of_index).
  intros g. destruct g; reflexivity.
Defined.

Inductive event : Type :=
| Request (e : endpoint) (page : Z)
| Sleep (until : Timestamp)
| SleepFor (seconds : Z)
| LogRateLimited (e : endpoint) (until : Timestamp)
| LogError (e : endpoint) (msg : string)
| LogInvalidRepo (repoFullName : string)
| LogIncompleteRunner (scope : string)
| LogIncompleteWorkflow (repoFullName : string) (workflowID : Z)
| LogNoUsage (e : endpoint)
| LogWillNotRun
| GaugeReset (g : gauge)
| GaugeSet (g : gauge) (labels : list string) (value : Q).

(** The replies the server will give, per operation, in the order of the
    calls. *)
Record Server : Type := mkServer {
  runs_pages : list (reply (list (option WorkflowRun.t)));
  run_usages : list (reply WorkflowRunUsage.t);
  runner_pages : list (reply (list (option Runner.t)));
  org_runner_pages : list (reply (list (option Runner.t)));
  repo_pages : list (reply (list (option Repository.t)));
  workflow_pages : list (reply (list (option Workflow.t)));
  workflow_usages : list (reply WorkflowUsage.t) }.

(** A gauge vector: the series it holds, by label values. A gauge that was
    never created ([nil]) has no entry in [gauges]. *)
Abbreviation GaugeVec := (gmap (list string) Q).

Record State : Type := mkState {
  cfg : config.t;
  client : bool;
  repositories : list string;
  workflows : WorkflowCache;
  gauges : gmap gauge GaugeVec;
  server : Server }.

Definition set_repositories (v : list string) (st : State) : State :=
  mkState (cfg st) (client st) v (workflows st) (gauges st) (server st).
Definition set_workflows (v : WorkflowCache) (st : State) : State :=
  mkState (cfg st) (client st) (repositories st) v (gauges st) (server st).
Definition set_gauges (v : gmap gauge GaugeVec) (st : State) : State :=
  mkState (cfg st) (client st) (repositories st) (workflows st) v (server st).
Definition set_server (v : Server) (st : State) : State :=
  mkState (cfg st) (client st) (repositories st) (workflows st) (gauges st) v.

(** ** The monad of the goroutines

    A computation takes the state and gives a result, the new state and
    the trace of what it did; it gives nothing when the server has no
    reply left for one of its calls. *)

Definition M (A : Type) : Type := State → option (A * State * list event).

Definition ret {A : Type} (a : A) : M A := fun st => Some (a, st, []).

Definition bind {A B : Type} (m : M A) (k : A → M B) : M B :=
  fun st => match m st with
            | Some (a, st', evs) =>
                match k a st' with
                | Some (b, st'', evs') => Some (b, st'', evs ++ evs')
                | None => None
                end
            | None => None
            end.

Notation "'do' x <- m ; k" := (bind m (fun x => k))
  (at level 10, x name, m at level 100, k at level 200).

Definition get {A : Type} (f : State → A) : M A := fun st => Some (f st, st, []).

Definition put (f : State → State) : M unit := fun st => Some (tt, f st, []).

Definition emit (evs : list event) : M unit := fun st => Some (tt, st, evs).

(** [for _, x := range l { body }]. *)
Fixpoint forM {A : Type} (l : list A) (body : A → M unit) : M unit :=
  match l with
  | [] => ret tt
  | x :: l' => do _ <- body x; forM l' body
  end.

(** [g.Reset()] and [g.WithLabelValues(labels...).Set(value)]. The latter
    panics when the number of values is not the number of label names of
    the gauge; the collectors pass five values to the runner gauges, six
    to the billing gauge, and one value per configured field name to the
    run gauges, which are created with these names. *)
Definition Reset (g : gauge) : M unit :=
  fun st => Some (tt, set_gauges (<[g := ∅]> (gauges st)) st, [GaugeReset g]).

Definition WithLabelValues_Set (g : gauge) (labels : list string) (value : Q) : M unit :=
  fun st =>
    Some (tt,
          set_gauges (<[g := <[labels := value]> (default ∅ (gauges st !! g))]> (gauges st)) st,
          [GaugeSet g labels value]).

Definition set_runs_pages v (s : Server) : Server :=
  mkServer v (run_usages s) (runner_pages s) (org_runner_pages s) (repo_pages s)
    (workflow_pages s) (workflow_usages s).
Definition set_run_usages v (s : Server) : Server :=
  mkServer (runs_pages s) v (runner_pages s) (org_runner_pages s) (repo_pages s)
    (workflow_pages s) (workflow_usages s).
Definition set_runner_pages v (s : Server) : Server :=
  mkServer (runs_pages s) (run_usages s) v (org_runner_pages s) (repo_pages s)
    (workflow_pages s) (workflow_usages s).
Definition set_org_runner_pages v (s : Server) : Server :=
  mkServer (runs_pages s) (run_usages s) (runner_pages s) v (repo_pages s)
    (workflow_pages s) (workflow_usages s).
Definition set_repo_pages v (s : Server) : Server :=
  mkServer (runs_pages s) (run_usages s) (runner_pages s) (org_runner_pages s) v
    (workflow_pages s) (workflow_usages s).
Definition set_workflow_pages v (s : Server) : Server :=
  mkServer (runs_pages s) (run_usages s) (runner_pages s) (org_runner_pages s) (repo_pages s)
    v (workflow_usages s).
Definition set_workflow_usages v (s : Server) : Server :=
  mkServer (runs_pages s) (run_usages s) (runner_pages s) (org_runner_pages s) (repo_pages s)
    (workflow_pages s) v.

(** One call that is not paged: the next reply of the server for it. *)
Definition call {P : Type} (sel : Server → list (reply P))
    (upd : list (reply P) → Server → Server) (ep : endpoint) : M (reply P) :=
  fun st =>
    match sel (server st) with
    | [] => None
    | r :: rest => Some (r, set_server (upd rest (server st)) st, [Request ep 0])
    end.

(** ** The paginator

    The five fetch loops of the package (lines 135-154 of
    get_workflow_runs_from_github.go, 37-56 of get_runners_from_github.go,
    36-55 of get_runners_organization_from_github.go, 30-51 and 70-93 of
    github_fetcher.go) are the same loop up to the operation called and
    what is done with a page. [paginate] is that loop on the replies the
    server gives to its calls: [page] is [opt.Page], [acc] what has been
    accumulated; the result is what the function returns, the replies left
    and the events of the loop. *)
Section Paginator.
Context {P A : Type}.
Variable ep : endpoint.
Variable absorb : A → option P → A.

Fixpoint paginate (script : list (reply P)) (page : Z) (acc : A)
    : option (A * list (reply P) * list event) :=
  match script with
  | [] => None
  | Failed (RateLimitError reset) :: rest =>
      (* log, time.Sleep(time.Until(reset)), continue *)
      match paginate rest page acc with
      | Some (res, rest', evs) =>
          Some (res, rest', Request ep page :: LogRateLimited ep reset :: Sleep reset :: evs)
      | None => None
      end
  | Failed (OtherError msg) :: rest =>
      (* log, return what was fetched before the error *)
      Some (acc, rest, [Request ep page; LogError ep msg])
  | Replied body NextPage :: rest =>
      let acc := absorb acc body in
      if NextPage =? 0 then Some (acc, rest, [Request ep page])
      else
        match paginate rest NextPage acc with
        | Some (res, rest', evs) => Some (res, rest', Request ep page :: evs)
        | None => None
        end
  end.

(** The loop run by a goroutine against the server of the state. *)
Definition paged (sel : Server → list (reply P))
    (upd : list (reply P) → Server → Server) (init : A) : M A :=
  fun st =>
    match paginate (sel (server st)) 0 init with
    | Some (res, rest, evs) => Some (res, set_server (upd rest (server st)) st, evs)
    | None => None
    end.
End Paginator.

(** [allRuns = append(allRuns, page...)] when the page is not nil. *)
Definition append_page {T : Type} (acc : list T) (body : option (list T)) : list T :=
  match body with
  | Some items => acc ++ items
  | None => acc
  end.

(** [getWorkflowRunsToFetchFromRepo], lines 115-157. *)
Definition fetchHours (c : config.t) : Z :=
  let h := config.FetchMaxWorkflowCreationAgeHours (config.github c) in
  let h := if h <=? 0 then 12 else h in
  if 0 <? h then - h else h.

Definition getWorkflowRunsToFetchFromRepo (owner repoName : string)
    : M (list (option WorkflowRun.t)) :=
  do c <- get cfg;
  paged (ListRepositoryWorkflowRuns owner repoName (fetchHours c)) append_page
    runs_pages set_runs_pages [].

(** [getAllRepoRunners], get_runners_from_github.go lines 26-59. A nil
    slice is the empty list. *)
Definition getAllRepoRunners (owner repoName : string) : M (list (option Runner.t)) :=
  do ok <- get client;
  if negb ok then ret []
  else paged (ListRunners owner repoName) append_page runner_pages set_runner_pages [].

(** [getAllOrgRunners], get_runners_organization_from_github.go lines 25-58. *)
Definition getAllOrgRunners (orgaName : string) : M (list (option Runner.t)) :=
  do ok <- get client;
  if negb ok then ret []
  else paged (ListOrganizationRunners orgaName) append_page
         org_runner_pages set_org_runner_pages [].

(** The full names of a page of repositories, lines 41-45 of
    github_fetcher.go. *)
Definition append_full_names (allRepos : list string)
    (reposPage : option (list (option Repository.t))) : list string :=
  allRepos ++ omap (fun repo => repo ≫= Repository.FullName) (default [] reposPage).

(** [getAllReposForOrg], github_fetcher.go lines 17-54. *)
Definition getAllReposForOrg (orga : string) : M (list string) :=
  do ok <- get client;
  if negb ok then ret []
  else paged (ListByOrg orga) append_full_names repo_pages set_repo_pages [].

(** [res[*w.ID] = w] for the workflows of a page, lines 81-87. *)
Definition store_workflows (res : gmap Z (option Workflow.t))
    (workflowsPage : option (list (option Workflow.t))) : gmap Z (option Workflow.t) :=
  foldl (fun res w =>
           match w with
           | Some wf =>
               match Workflow.ID wf with
               | Some id => <[id := Some wf]> res
               | None => res
               end
           | None => res
           end)
        res (default [] workflowsPage).

(** [getAllWorkflowsForRepo], github_fetcher.go lines 58-96. A nil map is
    the empty map. *)
Definition getAllWorkflowsForRepo (owner repoName : string)
    : M (gmap Z (option Workflow.t)) :=
  do ok <- get client;
  if negb ok then ret ∅
  else paged (ListWorkflows owner repoName) store_workflows
         workflow_pages set_workflow_pages ∅.

(** ** The collector of workflow runs, get_workflow_runs_from_github.go *)

(** [config.Metrics.FetchWorkflowRunUsage && workflowRunDurationGauge != nil]. *)
Definition usage_enabled : M bool :=
  do c <- get cfg;
  do gs <- get gauges;
  ret (config.FetchWorkflowRunUsage (config.metrics c)
       && match gs !! workflowRunDurationGauge with Some _ => true | None => false end).

(** The body of the loop over the runs of a repository, lines 199-303. *)
Definition processRun (configuredFieldNames : list string)
    (repoFullName owner repoName : string) (run : option WorkflowRun.t) : M unit :=
  match run with
  | None => ret tt
  | Some run =>
      match WorkflowRun.ID run with
      | None => ret tt
      | Some _ =>
          let runStatus := getSafeString (WorkflowRun.Status run) in
          let runConclusion := getSafeString (WorkflowRun.Conclusion run) in
          do cache <- get workflows;
          let labels := labelValues cache configuredFieldNames repoFullName run in
          do _ <- WithLabelValues_Set workflowRunStatusGauge labels
                    (inject_Z (numericStatus runStatus runConclusion));
          do enabled <- usage_enabled;
          if enabled then
            do usage <- call run_usages set_run_usages
                          (GetWorkflowRunUsageByID owner repoName
                             (getSafeInt64 (WorkflowRun.ID run)));
            WithLabelValues_Set workflowRunDurationGauge labels
              (inject_Z (durationMs usage runStatus run))
          else ret tt
      end
  end.

(** The body of the loop over the repositories, lines 189-304. *)
Definition runsOfRepo (configuredFieldNames : list string) (repoFullName : string) : M unit :=
  match Split repoFullName slash with
  | [owner; repoName] =>
      do fetchedRuns <- getWorkflowRunsToFetchFromRepo owner repoName;
      forM fetchedRuns (processRun configuredFieldNames repoFullName owner repoName)
  | _ => emit [LogInvalidRepo repoFullName]
  end.

(** One pass of the ticker loop, lines 182-306. *)
Definition getWorkflowRunsFromGithub_cycle (configuredFieldNames : list string) : M unit :=
  do _ <- Reset workflowRunStatusGauge;
  do enabled <- usage_enabled;
  do _ <- (if enabled then Reset workflowRunDurationGauge else ret tt);
  do repos <- get repositories;
  forM repos (runsOfRepo configuredFieldNames).

(** What a goroutine finds when its ticker fires: the globals the fetcher
    goroutine has written by then, and the replies the server has for the
    calls of this pass. *)
Record tick : Type := mkTick {
  tick_repositories : list string;
  tick_workflows : WorkflowCache;
  tick_server : Server }.

Definition arrive (t : tick) : M unit :=
  put (fun st => set_server (tick_server t)
                   (set_workflows (tick_workflows t)
                      (set_repositories (tick_repositories t) st))).

(** [for range ticker.C { cycle }], for the ticks that happen. *)
Fixpoint ticker_loop (ticks : list tick) (cycle : M unit) : M unit :=
  match ticks with
  | [] => ret tt
  | t :: rest => do _ <- arrive t; do _ <- cycle; ticker_loop rest cycle
  end.

(** [getWorkflowRunsFromGithub], lines 160-308. *)
Definition getWorkflowRunsFromGithub (ticks : list tick) : M unit :=
  do ok <- get client;
  if negb ok then ret tt
  else
    do repos <- get repositories;
    match repos with
    | [] => emit [LogWillNotRun]
    | _ :: _ =>
        do c <- get cfg;
        let configuredFieldNames := Split (config.WorkflowFields c) comma in
        match configuredFieldNames with
        | [] => ret tt
        | _ :: _ => ticker_loop ticks (getWorkflowRunsFromGithub_cycle configuredFieldNames)
        end
    end.

(** ** The collectors of runners *)

(** The body of the loop over the runners of a repository or of an
    organization: lines 101-117 of get_runners_from_github.go and 102-118
    of get_runners_organization_from_github.go. *)
Definition publishRunner (g : gauge) (scope : string) (runner : option Runner.t) : M unit :=
  match runner with
  | Some (Runner.mk (Some id) (Some name) (Some os) (Some status) (Some busy)) =>
      let statusValue := if status == "online" then 1 else 0 in
      WithLabelValues_Set g [scope; os; name; FormatInt id; FormatBool busy]
        (inject_Z statusValue)
  | _ => emit [LogIncompleteRunner scope]
  end.

(** The body of the loop over the repositories, lines 88-118 of
    get_runners_from_github.go. *)
Definition runnersOfRepo (repoFullName : string) : M unit :=
  match Split repoFullName slash with
  | [owner; repoName] =>
      do fetchedRunners <- getAllRepoRunners owner repoName;
      forM fetchedRunners (publishRunner runnersGauge repoFullName)
  | _ => emit [LogInvalidRepo repoFullName]
  end.

(** One pass of the ticker loop of [getRunnersFromGithub], lines 81-120. *)
Definition getRunnersFromGithub_cycle : M unit :=
  do repos <- get repositories;
  match repos with
  | [] => ret tt
  | _ :: _ =>
      do _ <- Reset runnersGauge;
      forM repos runnersOfRepo
  end.

Definition gauge_created (g : gauge) : M bool :=
  do gs <- get gauges;
  ret (match gs !! g with Some _ => true | None => false end).

(** [getRunnersFromGithub], lines 62-122. *)
Definition getRunnersFromGithub (ticks : list tick) : M unit :=
  do ok <- get client;
  if negb ok then ret tt
  else
    do created <- gauge_created runnersGauge;
    if negb created then ret tt
    else ticker_loop ticks getRunnersFromGithub_cycle.

(** The body of the loop over the organizations, lines 92-119 of
    get_runners_organization_from_github.go. *)
Definition runnersOfOrg (orgaName : string) : M unit :=
  if orgaName == "" then ret tt
  else
    do fetchedRunners <- getAllOrgRunners orgaName;
    forM fetchedRunners (publishRunner runnersOrganizationGauge orgaName).

(** One pass of the ticker loop of [getRunnersOrganizationFromGithub],
    lines 85-121. *)
Definition getRunnersOrganizationFromGithub_cycle : M unit :=
  do c <- get cfg;
  let orgs := config.Organizations (config.github c) in
  match orgs with
  | [] => ret tt
  | _ :: _ =>
      do _ <- Reset runnersOrganizationGauge;
      forM orgs runnersOfOrg
  end.

(** [getRunnersOrganizationFromGithub], lines 61-123. *)
Definition getRunnersOrganizationFromGithub (ticks : list tick) : M unit :=
  do ok <- get client;
  if negb ok then ret tt
  else
    do created <- gauge_created runnersOrganizationGauge;
    if negb created then ret tt
    else
      do c <- get cfg;
      match config.Organizations (config.github c) with
      | [] => ret tt
      | _ :: _ => ticker_loop ticks getRunnersOrganizationFromGithub_cycle
      end.

(** ** The collector of billable usage, get_billable_from_github.go *)

Section Billing.
(** [strings.ToUpper], which the collector applies to the name of an
    operating system. *)
Variable ToUpper : string → string.

(** The three attempts of lines 92-105; [last] stands for [usageData] and
    [errApi], which keep what the latest attempt returned. *)
Fixpoint GetWorkflowUsage_attempts (attempts : nat) (ep : endpoint)
    (last : reply WorkflowUsage.t) : M (reply WorkflowUsage.t) :=
  match attempts with
  | O => ret last
  | S k =>
      do r <- call workflow_usages set_workflow_usages ep;
      match r with
      | Failed (RateLimitError reset) =>
          do _ <- emit [LogRateLimited ep reset; Sleep reset];
          GetWorkflowUsage_attempts k ep r
      | Failed (OtherError msg) =>
          do _ <- emit [LogError ep msg; SleepFor 2];
          GetWorkflowUsage_attempts k ep r
      | Replied _ _ => ret r
      end
  end.

(** The loop over the entries of the bill map, lines 119-131. *)
Definition publishBill (repoFullName : string) (id : Z) (nodeID name state : string)
    (entry : string * option WorkflowBill.t) : M unit :=
  match entry with
  | (osType, Some billData) =>
      match WorkflowBill.TotalMS billData with
      | Some totalMs =>
          WithLabelValues_Set workflowBillGauge
            [repoFullName; FormatInt id; nodeID; name; state; ToUpper osType]
            (Qmake totalMs 1000)
      | None => ret tt
      end
  | (_, None) => ret tt
  end.

(** The body of the loop over the definitions of a repository, lines 83-131. *)
Definition billWorkflow (repoFullName owner repoName : string)
    (entry : Z * option Workflow.t) : M unit :=
  let '(workflowID, workflowDefinition) := entry in
  match workflowDefinition with
  | Some (Workflow.mk (Some id) (Some nodeID) (Some name) (Some state)) =>
      let ep := GetWorkflowUsageByID owner repoName workflowID in
      do r <- GetWorkflowUsage_attempts 3 ep (Replied None 0);
      match r with
      | Replied (Some usageData) _ =>
          match WorkflowUsage.Billable usageData with
          | Some (Some billMap) =>
              forM billMap (publishBill repoFullName id nodeID name state)
          | _ => ret tt
          end
      | _ => emit [LogNoUsage ep]
      end
  | _ => emit [LogIncompleteWorkflow repoFullName workflowID]
  end.

(** The body of the loop over the entries of the cache, lines 72-132. A nil
    map (line 72) is the empty map; the fetcher stores neither. *)
Definition billRepo (entry : string * gmap Z (option Workflow.t)) : M unit :=
  let '(repoFullName, repoWorkflowsMap) := entry in
  match Split repoFullName slash with
  | [owner; repoName] =>
      forM (map_to_list repoWorkflowsMap) (billWorkflow repoFullName owner repoName)
  | _ => emit [LogInvalidRepo repoFullName]
  end.

(** One pass of the ticker loop, lines 61-134. The maps are visited in the
    order of [map_to_list]; Go leaves the order of a [range] over a map
    open. *)
Definition getBillableFromGithub_cycle : M unit :=
  do cache <- get workflows;
  do repos <- get repositories;
  if (size cache =? 0)%nat || (length repos =? 0)%nat then ret tt
  else
    do _ <- Reset workflowBillGauge;
    forM (map_to_list cache) billRepo.

(** [getBillableFromGithub], lines 40-136. *)
Definition getBillableFromGithub (ticks : list tick) : M unit :=
  do ok <- get client;
  if negb ok then ret tt
  else
    do created <- gauge_created workflowBillGauge;
    if negb created then ret tt
    else ticker_loop ticks getBillableFromGithub_cycle.
End Billing.

(** ** The fetcher of repositories and workflow definitions,
    github_fetcher.go *)

(** The loop over the organizations, lines 135-139. *)
Fixpoint discover (orgs : list string) (reposToProcess : list string) : M (list string) :=
  match orgs with
  | [] => ret reposToProcess
  | orga :: rest =>
      if negb (orga == "") then
        do found <- getAllReposForOrg orga;
        discover rest (reposToProcess ++ found)
      else discover rest reposToProcess
  end.

(** The body of the deduplication loop, lines 156-161. *)
Definition dedup_step (s : gmap string bool * list string) (repoFullName : string)
    : gmap string bool * list string :=
  let '(uniqueReposMap, uniqueReposList) := s in
  if negb (default false (uniqueReposMap !! repoFullName)) then
    (<[repoFullName := true]> uniqueReposMap, uniqueReposList ++ [repoFullName])
  else s.

Definition uniqueRepos (reposToProcess : list string) : list string :=
  snd (foldl dedup_step (∅, []) reposToProcess).

(** The loop that fills [newWorkflowsData], lines 170-183. *)
Fixpoint fetchWorkflows (repos : list string) (newWorkflowsData : WorkflowCache)
    : M WorkflowCache :=
  match repos with
  | [] => ret newWorkflowsData
  | repoFullName :: rest =>
      match Split repoFullName slash with
      | [owner; repoName] =>
          do workflowsForRepo <- getAllWorkflowsForRepo owner repoName;
          fetchWorkflows rest
            (if (0 <? size workflowsForRepo)%nat
             then <[repoFullName := workflowsForRepo]> newWorkflowsData
             else newWorkflowsData)
      | _ =>
          do _ <- emit [LogInvalidRepo repoFullName];
          fetchWorkflows rest newWorkflowsData
      end
  end.

(** Lines 128-150: the repositories to process; nothing when neither
    repositories nor organizations are configured. *)
Definition reposToProcess : M (option (list string)) :=
  do c <- get cfg;
  let explicit := config.Repositories (config.github c) in
  let orgs := config.Organizations (config.github c) in
  if (0 <? length explicit)%nat then ret (Some explicit)
  else if (0 <? length orgs)%nat then
    do found <- discover orgs [];
    ret (Some found)
  else ret None.

(** Lines 128-166: the global [repositories] is given its new value; with
    nothing configured the cache is emptied as well (lines 146-147) and
    the pass is over. *)
Definition resolveRepositories : M bool :=
  do toProcess <- reposToProcess;
  match toProcess with
  | Some repos =>
      do _ <- put (set_repositories (uniqueRepos repos));
      ret true
  | None =>
      do _ <- put (set_repositories []);
      do _ <- put (set_workflows ∅);
      ret false
  end.

(** Lines 168-186: the cache is rebuilt for the repositories and replaced. *)
Definition rebuildCache : M unit :=
  do repos <- get repositories;
  do newWorkflowsData <- fetchWorkflows repos ∅;
  put (set_workflows newWorkflowsData).

(** One pass of the loop of [periodicGithubFetcher], lines 121-189. *)
Definition periodicGithubFetcher_cycle : M unit :=
  do ok <- get client;
  if negb ok then emit [SleepFor 60]
  else
    do resolved <- resolveRepositories;
    if resolved then rebuildCache else ret tt.

(** The refresh interval of the fetcher, lines 108-115. *)
Definition refreshIntervalSeconds (c : config.t) : Z :=
  let s := config.WorkflowCacheRefreshIntervalSeconds (config.github c) in
  let s := if s <=? 0 then 3600 else s in
  if s <? 60 then 60 else s.

(** * Definitions of the specification, and scenarios *)

(** The table of the specification, row by row. *)
Inductive StatusTable : string → string → Z → Prop :=
| row_success : StatusTable "completed" "success" 1
| row_failure : StatusTable "completed" "failure" 0
| row_skipped : StatusTable "completed" "skipped" 2
| row_cancelled : StatusTable "completed" "cancelled" 5
| row_neutral : StatusTable "completed" "neutral" 6
| row_timed_out : StatusTable "completed" "timed_out" 7
| row_completed_other conclusion :
    conclusion ∉ ["success"; "failure"; "skipped"; "cancelled"; "neutral"; "timed_out"] →
    StatusTable "completed" conclusion 8
| row_in_progress conclusion : StatusTable "in_progress" conclusion 3
| row_requested conclusion : StatusTable "requested" conclusion 3
| row_waiting conclusion : StatusTable "waiting" conclusion 3
| row_queued conclusion : StatusTable "queued" conclusion 4
| row_action_required conclusion : StatusTable "action_required" conclusion 9
| row_stale conclusion : StatusTable "stale" conclusion 10
| row_other status conclusion :
    status ∉ ["completed"; "in_progress"; "requested"; "waiting"; "queued";
              "action_required"; "stale"] →
    StatusTable status conclusion 99.

(** The pull request of a run is the first of its list; its base ref, when
    the run has a pull request with a base that has a ref. *)
Definition base_ref (run : WorkflowRun.t) : option string :=
  pr ← head (WorkflowRun.PullRequests run) ≫= id;
  base ← PullRequest.Base pr;
  PullRequestBranch.Ref base.

(** A run with nothing set but its id, and the two runs of the examples of
    the specification. *)
Definition bare_run (id : Z) : WorkflowRun.t :=
  WorkflowRun.mk (Some id) None None None None None None None None None None None
    [] None None None None None None.

Definition with_branches (event : string) (head_branch : option string)
    (prs : list (option PullRequest.t)) (run : WorkflowRun.t) : WorkflowRun.t :=
  WorkflowRun.mk (WorkflowRun.ID run) (WorkflowRun.NodeID run) head_branch
    (WorkflowRun.HeadSHA run) (WorkflowRun.Path run) (WorkflowRun.RunNumber run)
    (WorkflowRun.RunAttempt run) (Some event) (WorkflowRun.DisplayTitle run)
    (WorkflowRun.Status run) (WorkflowRun.Conclusion run) (WorkflowRun.WorkflowID run)
    prs (WorkflowRun.Actor run) (WorkflowRun.TriggeringActor run)
    (WorkflowRun.CreatedAt run) (WorkflowRun.UpdatedAt run) (WorkflowRun.RunStartedAt run)
    (WorkflowRun.HeadCommit run).

Definition pull_request_run : WorkflowRun.t :=
  with_branches "pull_request" (Some "feature/x")
    [Some (PullRequest.mk (Some 12) (Some "Add x") (Some (PullRequestBranch.mk (Some "main"))))]
    (bare_run 1).

Definition push_run : WorkflowRun.t :=
  with_branches "push" (Some "release") [] (bare_run 2).

(** A run misses the cache when its repository has no entry, or the entry
    of its repository has none for its workflow id. *)
Definition cache_miss (cache : WorkflowCache) (repoFullName : string)
    (run : WorkflowRun.t) : Prop :=
  cache !! repoFullName ≫= (.!! getSafeInt64 (WorkflowRun.WorkflowID run)) = None.

(** The duration the usage endpoint gave: the call succeeded and its body
    has a duration. *)
Definition usage_duration (usage : reply WorkflowRunUsage.t) : option Z :=
  match usage with
  | Replied (Some runUsage) _ => WorkflowRunUsage.RunDurationMS runUsage
  | _ => None
  end.

Definition terminal (status : string) : Prop :=
  status = "completed" ∨ status = "stale".

(** Both timestamps are present and non-zero, and the update is strictly
    after the start. *)
Definition started_then_updated (run : WorkflowRun.t) (started updated : Timestamp) : Prop :=
  WorkflowRun.RunStartedAt run = Some started ∧
  WorkflowRun.UpdatedAt run = Some updated ∧
  started ≠ 0 ∧ updated ≠ 0 ∧ started < updated.

Definition with_times (status : string) (started updated : option Timestamp)
    (run : WorkflowRun.t) : WorkflowRun.t :=
  WorkflowRun.mk (WorkflowRun.ID run) (WorkflowRun.NodeID run) (WorkflowRun.HeadBranch run)
    (WorkflowRun.HeadSHA run) (WorkflowRun.Path run) (WorkflowRun.RunNumber run)
    (WorkflowRun.RunAttempt run) (WorkflowRun.Event run) (WorkflowRun.DisplayTitle run)
    (Some status) (WorkflowRun.Conclusion run) (WorkflowRun.WorkflowID run)
    (WorkflowRun.PullRequests run) (WorkflowRun.Actor run) (WorkflowRun.TriggeringActor run)
    (WorkflowRun.CreatedAt run) updated started
    (WorkflowRun.HeadCommit run).

(** The default configuration of config.go with no repository and no
    organization, and a state of the program right after [InitMetrics]. *)
Definition default_fields : string :=
  "repo,workflow_id,workflow_name,run_id,run_number,run_attempt,event,status,conclusion,head_branch,derived_target_branch,pr_number,derived_commit_pr_title,display_title,actor_login,triggering_actor_login,created_at_unix,updated_at_unix,run_started_at_unix,path".

Definition default_config (repos orgs : list string) : config.t :=
  config.mk (config.mkGithub 60 repos orgs 720 3600) (config.mkMetrics true) default_fields.

Definition no_replies : Server := mkServer [] [] [] [] [] [] [].

Definition all_gauges : gmap gauge GaugeVec :=
  {[ workflowRunStatusGauge := ∅; workflowRunDurationGauge := ∅; runnersGauge := ∅;
     runnersOrganizationGauge := ∅; workflowBillGauge := ∅ ]}.

Definition initial_state (c : config.t) (s : Server) : State :=
  mkState c true [] ∅ all_gauges s.

(** A terminal run that started at some instant and was updated 5000 ms
    later, as in the example of the specification. *)
Definition T0 : Timestamp := 63900000000000000000.

Definition five_seconds_run : WorkflowRun.t :=
  with_times "completed" (Some T0) (Some (T0 + 5000 * 1000000)) (bare_run 7).

Definition default_field_names : list string := Split default_fields comma.

(** A cache with one repository and one workflow definition. *)
Definition example_cache : WorkflowCache :=
  {[ "o/r" := {[ 5 := Some (Workflow.mk (Some 5) (Some "W_5") (Some "CI") (Some "active")) ]} ]}.

(** A runner record is complete when it is not nil and none of its five
    attributes is. *)
Definition complete (runner : option Runner.t) : bool :=
  match runner with
  | Some r =>
      match Runner.ID r, Runner.Name r, Runner.OS r, Runner.Status r, Runner.Busy r with
      | Some _, Some _, Some _, Some _, Some _ => true
      | _, _, _, _, _ => false
      end
  | None => false
  end.

Definition incomplete (runner : option Runner.t) : Prop :=
  match runner with
  | Some r =>
      Runner.ID r = None ∨ Runner.Name r = None ∨ Runner.OS r = None ∨
      Runner.Status r = None ∨ Runner.Busy r = None
  | None => True
  end.

Definition is_GaugeSet (e : event) : bool :=
  match e with GaugeSet _ _ _ => true | _ => false end.

Definition is_LogIncompleteRunner (e : event) : bool :=
  match e with LogIncompleteRunner _ => true | _ => false end.

(** Three runner records: one online, one offline, one without a name. *)
Definition online_runner : Runner.t :=
  Runner.mk (Some 1) (Some "r1") (Some "linux") (Some "online") (Some false).
Definition offline_runner : Runner.t :=
  Runner.mk (Some 2) (Some "r2") (Some "macos") (Some "offline") (Some true).
Definition nameless_runner : Runner.t :=
  Runner.mk (Some 3) None (Some "linux") (Some "online") (Some false).

(** *** The paginator, in the words of its contract *)

(** A reply ends the loop when it is an error other than a rate limit, or
    a page whose next-page cursor is zero. *)
Definition final {P : Type} (r : reply P) : bool :=
  match r with
  | Failed (RateLimitError _) => false
  | Failed (OtherError _) => true
  | Replied _ NextPage => NextPage =? 0
  end.

Definition is_error {P : Type} (r : reply P) : bool :=
  match r with
  | Failed (OtherError _) => true
  | _ => false
  end.

(** What has been accumulated once the pages among some replies are taken
    in, in their order. *)
Definition absorbed {P A : Type} (absorb : A → option P → A) (acc : A)
    (replies : list (reply P)) : A :=
  foldl (fun a r => match r with Replied body _ => absorb a body | Failed _ => a end)
    acc replies.

(** The cursor each of some replies was asked with, when the first was
    asked with [page]: a page moves the cursor to the one it declares, a
    failure leaves it where it is. *)
Fixpoint cursors {P : Type} (page : Z) (replies : list (reply P)) : list Z :=
  match replies with
  | [] => []
  | r :: rs => page :: cursors (match r with Replied _ n => n | Failed _ => page end) rs
  end.

(** The instants of the rate limits among some replies. *)
Definition resets {P : Type} (replies : list (reply P)) : list Timestamp :=
  omap (fun r => match r with Failed (RateLimitError t) => Some t | _ => None end) replies.

(** The cursors of the requests of a trace, and the instants it sleeps
    until. *)
Definition requests (evs : list event) : list Z :=
  omap (fun e => match e with Request _ page => Some page | _ => None end) evs.

Definition sleeps (evs : list event) : list Timestamp :=
  omap (fun e => match e with Sleep t => Some t | _ => None end) evs.

Definition logs_error (evs : list event) : Prop :=
  ∃ e msg, LogError e msg ∈ evs.

(** A server that holds a book of pages numbered from [number]: it serves
    them in order, each after the rate limits listed with it, and declares
    after each page the number of the next, zero after the last. *)
Fixpoint serve {P : Type} (book : list (list Timestamp * option P)) (number : Z)
    : list (reply P) :=
  match book with
  | [] => []
  | (limits, body) :: more =>
      map (fun t => Failed (RateLimitError t)) limits
      ++ Replied body (match more with [] => 0 | _ :: _ => number + 1 end)
      :: serve more (number + 1)
  end.

(** The trace of one visit of a page: the request is repeated after each
    rate limit, with a sleep until its reset. *)
Definition visit (ep : endpoint) (cursor : Z) (limits : list Timestamp) : list event :=
  flat_map (fun t => [Request ep cursor; LogRateLimited ep t; Sleep t]) limits
  ++ [Request ep cursor].

Fixpoint visits (ep : endpoint) (cursor number : Z) (book : list (list Timestamp))
    : list event :=
  match book with
  | [] => []
  | limits :: more => visit ep cursor limits ++ visits ep (number + 1) (number + 1) more
  end.

(** *** Repository resolution, in the words of the specification *)

(** Deduplication by identity that keeps the first occurrence of each
    element: an element is kept unless it was seen before. *)
Fixpoint first_seen_from (seen l : list string) : list string :=
  match l with
  | [] => []
  | x :: l' =>
      if decide (x ∈ seen) then first_seen_from seen l'
      else x :: first_seen_from (x :: seen) l'
  end.

Definition first_seen (l : list string) : list string := first_seen_from [] l.

Definition explicit_repositories (st : State) : list string :=
  config.Repositories (config.github (cfg st)).

(** The organizations of the configuration: the entries of its list that
    name one (line 136 skips the empty string). *)
Definition configured_organizations (st : State) : list string :=
  filter (fun orga => orga ≠ "") (config.Organizations (config.github (cfg st))).

(** A computation for each element of a list, in order. *)
Fixpoint mapM {A B : Type} (f : A → M B) (l : list A) : M (list B) :=
  match l with
  | [] => ret []
  | x :: l' => do y <- f x; do ys <- mapM f l'; ret (y :: ys)
  end.

(** A configuration with both lists, and a server with a page of
    repositories for the organization. *)
Definition both_configured : State :=
  initial_state (default_config ["o/r"; "o/s"; "o/r"] ["org"])
    (set_repo_pages [Replied (Some [Some (Repository.mk (Some "org/a"))]) 0] no_replies).

Definition organizations_configured : State :=
  initial_state (default_config [] ["org"; ""; "gro"])
    (set_repo_pages
       [Replied (Some [Some (Repository.mk (Some "org/a")); None;
                       Some (Repository.mk (Some "org/b"))]) 0;
        Failed (RateLimitError 100);
        Replied (Some [Some (Repository.mk (Some "org/a")); Some (Repository.mk None)]) 2;
        Replied (Some [Some (Repository.mk (Some "gro/c"))]) 0]
       no_replies).

(** *** Gauges and traces *)

(** What an event of a trace does to the gauges. *)
Definition apply_event (gs : gmap gauge GaugeVec) (e : event) : gmap gauge GaugeVec :=
  match e with
  | GaugeReset g => <[g := ∅]> gs
  | GaugeSet g labels v => <[g := <[labels := v]> (default ∅ (gs !! g))]> gs
  | _ => gs
  end.

Definition replay (evs : list event) (gs : gmap gauge GaugeVec) : gmap gauge GaugeVec :=
  foldl apply_event gs evs.

(** What an event makes of the series of the gauge [g]. *)
Definition series_step (g : gauge) (m : GaugeVec) (e : event) : GaugeVec :=
  match e with
  | GaugeReset g' => if decide (g' = g) then ∅ else m
  | GaugeSet g' labels v => if decide (g' = g) then <[labels := v]> m else m
  | _ => m
  end.

(** The series a trace leaves in a gauge that was empty: each label
    combination set since the last reset, with the value set last. *)
Definition collected (g : gauge) (evs : list event) : GaugeVec :=
  foldl (series_step g) ∅ evs.

(** An event that operates on the gauge [g]. *)
Definition touches (g : gauge) (e : event) : Prop :=
  match e with
  | GaugeReset g' | GaugeSet g' _ _ => g' = g
  | _ => False
  end.

(** An event that is no gauge operation. *)
Definition quiet (e : event) : Prop :=
  match e with
  | GaugeReset _ | GaugeSet _ _ _ => False
  | _ => True
  end.

(** An event that resets no gauge and sets only series that [S] allows. *)
Definition sets_only (S : gauge → list string → Prop) (e : event) : Prop :=
  match e with
  | GaugeReset _ => False
  | GaugeSet g labels _ => S g labels
  | _ => True
  end.

(** What a collector may do to the state: it leaves the configuration,
    the client and the globals of the fetcher alone, the gauges are what
    its trace makes of them, and every event of its trace is allowed. *)
Definition effect (ok : event → Prop) (st st' : State) (evs : list event) : Prop :=
  cfg st' = cfg st ∧ client st' = client st ∧
  repositories st' = repositories st ∧ workflows st' = workflows st ∧
  gauges st' = replay evs (gauges st) ∧
  Forall ok evs.

Definition safe {A : Type} (I : State → Prop) (ok : event → Prop) (m : M A) : Prop :=
  ∀ st a st' evs, I st → m st = Some (a, st', evs) → effect ok st st' evs.

(** [I] is kept by whatever has an allowed effect. *)
Definition invariant (I : State → Prop) (ok : event → Prop) : Prop :=
  ∀ st st' evs, I st → effect ok st st' evs → I st'.

(** Whether the duration is collected, line 184 and line 277. *)
Definition enabled (st : State) : bool :=
  config.FetchWorkflowRunUsage (config.metrics (cfg st))
  && match gauges st !! workflowRunDurationGauge with Some _ => true | None => false end.

(** The invariant and the allowed series of the collector of runs, for a
    value of its duration switch. *)
Definition collects_duration (en : bool) (st : State) : Prop := enabled st = en.

Definition run_series (en : bool) (g : gauge) (labels : list string) : Prop :=
  g = workflowRunStatusGauge ∨ (g = workflowRunDurationGauge ∧ en = true).

(** The state once the gauges of a list have been reset. *)
Definition reset_all (rs : list gauge) (st : State) : State :=
  set_gauges (foldl (fun gs g => <[g := ∅]> gs) (gauges st) rs) st.

(** The gauges the collector of runs resets and sets. *)
Definition run_gauges (st : State) : list gauge :=
  workflowRunStatusGauge :: (if enabled st then [workflowRunDurationGauge] else []).

(** The same fetch result once more: the state a pass has left, with the
    replies of the server it started from. *)
Definition served_again (st st1 : State) : State := set_server (server st) st1.

(** The part of a pass of the collector of runs that follows the resets
    (lines 188-305). *)
Definition collectRuns (configuredFieldNames : list string) : M unit :=
  do repos <- get repositories;
  forM repos (runsOfRepo configuredFieldNames).

(** The series of one gauge only. *)
Definition series_of (g : gauge) (g' : gauge) (labels : list string) : Prop := g' = g.

Definition always (st : State) : Prop := True.

(** A state whose run gauges still hold a series of an earlier pass, with
    one repository, and a server with one run for it. *)
Definition after_earlier_pass : State :=
  mkState (default_config ["o/r"] []) true ["o/r"] example_cache
    (<[workflowRunStatusGauge := {[ ["o/r"; "gone"] := inject_Z 1 ]}]> all_gauges)
    (set_runs_pages [Replied (Some [Some pull_request_run]) 0]
       (set_run_usages [Failed (OtherError "404")] no_replies)).

(** *** An empty list of repositories *)

(** The program right after [InitMetrics], before the fetcher has written
    the list of repositories; and a tick at which the fetcher has found a
    repository, whose server has a runner and a run for it. *)
Definition before_first_fetch : State :=
  initial_state (default_config [] ["o"]) no_replies.

Definition one_repository_tick : tick :=
  mkTick ["o/r"] ∅
    (set_runs_pages [Replied (Some [Some pull_request_run]) 0]
       (set_run_usages [Failed (OtherError "404")]
          (set_runner_pages [Replied (Some [Some online_runner]) 0] no_replies))).

Definition empty_tick : tick := mkTick [] ∅ no_replies.

Definition configuredFieldNames (st : State) : list string :=
  Split (config.WorkflowFields (cfg st)) comma.

(** A collector resumes when, started while the list of repositories is
    empty, it runs its pass at a later tick at which the list is not: the
    pass shows in the trace by the reset of its gauge. *)
Definition resumes (collector : list tick → M unit) : Prop :=
  ∀ st t st' evs,
    client st = true →
    (∀ g, is_Some (gauges st !! g)) →
    repositories st = [] →
    tick_repositories t ≠ [] →
    collector [t] st = Some (tt, st', evs) →
    ∃ g, GaugeReset g ∈ evs.

(** *** The cache of workflow definitions *)

(** The fetch of the definitions of one repository in a refresh: the
    repository with what [getAllWorkflowsForRepo] returned for it, or
    nothing for a name that is not of the form owner/name. *)
Definition fetchOne (repoFullName : string)
    : M (option (string * gmap Z (option Workflow.t))) :=
  match Split repoFullName slash with
  | [owner; repoName] =>
      do workflowsForRepo <- getAllWorkflowsForRepo owner repoName;
      ret (Some (repoFullName, workflowsForRepo))
  | _ =>
      do _ <- emit [LogInvalidRepo repoFullName];
      ret None
  end.

(** The cache built from what was fetched: an entry for each repository
    with at least one definition. *)
Definition keep (cache : WorkflowCache)
    (fetched : option (string * gmap Z (option Workflow.t))) : WorkflowCache :=
  match fetched with
  | Some (repoFullName, workflowsForRepo) =>
      if (0 <? size workflowsForRepo)%nat then <[repoFullName := workflowsForRepo]> cache
      else cache
  | None => cache
  end.

(** The series of the billing gauge for the repositories of a cache. *)
Definition bill_series (cache : WorkflowCache) (g : gauge) (labels : list string) : Prop :=
  g = workflowBillGauge ∧ ∃ repoFullName, head labels = Some repoFullName ∧
                                          is_Some (cache !! repoFullName).

Definition caches (cache : WorkflowCache) (st : State) : Prop := workflows st = cache.

(** Two repositories: the server has one definition for the first and an
    error for the second. *)
Definition two_repositories : State :=
  mkState (default_config ["o/r"; "o/s"] []) true ["o/r"; "o/s"] ∅ all_gauges
    (set_workflow_pages
       [Replied (Some [Some (Workflow.mk (Some 5) (Some "W_5") (Some "CI") (Some "active"))]) 0;
        Failed (OtherError "502")]
       (set_workflow_usages
          [Replied (Some (WorkflowUsage.mk
                            (Some (Some [("ubuntu", Some (WorkflowBill.mk (Some 90000)))]))))
             0]
          no_replies)).

(** *** Tactics *)

(** Cases on the comparisons of a variable with the literals of the code. *)
Ltac case_eqb :=
  repeat match goal with
    | |- context [String.eqb ?s ?t] =>
        is_var s;
        let E := fresh "E" in
        destruct (String.eqb s t) eqn:E;
        [ apply String.eqb_eq in E; subst s | apply String.eqb_neq in E ]
    end.

(** * Further definitions of the specification, and scenarios *)

(** The field names [getFieldValue] knows, and the two the collector
    derives itself. *)
Definition direct_fields : list string :=
  ["repo"; "run_id"; "node_id"; "head_branch"; "head_sha"; "path"; "run_number";
   "run_attempt"; "event"; "display_title"; "status"; "conclusion"; "workflow_id";
   "workflow_name"; "pr_number"; "actor_login"; "triggering_actor_login";
   "created_at_unix"; "updated_at_unix"; "run_started_at_unix"].

Definition derived_fields : list string :=
  ["derived_target_branch"; "derived_commit_pr_title"].

(** The title of the pull request of a run, and the message of its head
    commit. *)
Definition pr_title (run : WorkflowRun.t) : option string :=
  pr ← head (WorkflowRun.PullRequests run) ≫= id;
  PullRequest.Title pr.

Definition commit_message (run : WorkflowRun.t) : option string :=
  WorkflowRun.HeadCommit run ≫= HeadCommit.Message.

(** The title comes from the pull request: the event is a pull request
    event and the pull request has a title. *)
Definition titled_by_pr (run : WorkflowRun.t) : Prop :=
  WorkflowRun.Event run = Some "pull_request" ∧ is_Some (pr_title run).

(** The run has a display title that is not empty. *)
Definition display_title (run : WorkflowRun.t) : option string :=
  match WorkflowRun.DisplayTitle run with
  | Some (String c r) => Some (String c r)
  | _ => None
  end.

Definition with_titles (event : string) (display : option string)
    (prs : list (option PullRequest.t)) (message : option string)
    (run : WorkflowRun.t) : WorkflowRun.t :=
  WorkflowRun.mk (WorkflowRun.ID run) (WorkflowRun.NodeID run) (WorkflowRun.HeadBranch run)
    (WorkflowRun.HeadSHA run) (WorkflowRun.Path run) (WorkflowRun.RunNumber run)
    (WorkflowRun.RunAttempt run) (Some event) display
    (WorkflowRun.Status run) (WorkflowRun.Conclusion run) (WorkflowRun.WorkflowID run)
    prs (WorkflowRun.Actor run) (WorkflowRun.TriggeringActor run)
    (WorkflowRun.CreatedAt run) (WorkflowRun.UpdatedAt run) (WorkflowRun.RunStartedAt run)
    (Some (HeadCommit.mk message)).

(** A commit message of two lines, the first with spaces around it. *)
Definition two_line_message : string :=
  String.append "  Fix the build  " (String newline "more text").

(** Whether a character occurs in a string, and how often. *)
Fixpoint has_char (c : ascii) (s : string) : bool :=
  match s with
  | EmptyString => false
  | String d rest => Ascii.eqb d c || has_char c rest
  end.

Fixpoint count_char (c : ascii) (s : string) : nat :=
  match s with
  | EmptyString => 0
  | String d rest => (if Ascii.eqb d c then 1 else 0) + count_char c rest
  end.

(** The largest number of milliseconds of a [time.Duration]. *)
Definition maxMilliseconds : Z := 9223372036854.

(** The bytes of the title taken from a commit message (lines 225-229). *)
Definition title_bytes (message : string) : list nat :=
  bytes_of_string (TrimSpace (first_line message)).

(** A reply that is an error, and the trace of one attempt of the retry
    loop of the billing collector (lines 92-105) by the reply it got. *)
Definition failed {P : Type} (r : reply P) : bool :=
  match r with
  | Failed _ => true
  | Replied _ _ => false
  end.

Definition attempt (ep : endpoint) (r : reply WorkflowUsage.t) : list event :=
  Request ep 0 ::
  match r with
  | Failed (RateLimitError reset) => [LogRateLimited ep reset; Sleep reset]
  | Failed (OtherError msg) => [LogError ep msg; SleepFor 2]
  | Replied _ _ => []
  end.

(** A server whose usage endpoint is rate limited once, fails once and
    then answers; and one that only fails. *)
Definition answers_third : State :=
  initial_state (default_config ["o/r"] [])
    (set_workflow_usages
       [Failed (RateLimitError 7); Failed (OtherError "502"); Replied None 0;
        Replied None 0] no_replies).

Definition answers_never : State :=
  initial_state (default_config ["o/r"] [])
    (set_workflow_usages
       [Failed (OtherError "500"); Failed (OtherError "502"); Failed (OtherError "503");
        Replied None 0] no_replies).

(** The total of an entry of a bill map, when it has one, the labels of
    its series and the value of a series of a gauge in a state. *)
Definition bill_total (entry : string * option WorkflowBill.t) : option Z :=
  snd entry ≫= WorkflowBill.TotalMS.

Definition bill_labels (ToUpper : string → string) (repoFullName : string) (id : Z)
    (nodeID name state osType : string) : list string :=
  [repoFullName; FormatInt id; nodeID; name; state; ToUpper osType].

Definition series (g : gauge) (labels : list string) (st : State) : option Q :=
  gauges st !! g ≫= (.!! labels).

(** A bill map with three entries, one of them without a total. *)
Definition three_bills : list (string * option WorkflowBill.t) :=
  [("ubuntu", Some (WorkflowBill.mk (Some 90000)));
   ("macos", Some (WorkflowBill.mk None));
   ("windows", Some (WorkflowBill.mk (Some 1500)))].

(** Upper case for the letters of the names above. *)
Definition upper_ascii (c : ascii) : ascii :=
  let n := nat_of_ascii c in
  if ((97 <=? n) && (n <=? 122))%nat then ascii_of_nat (n - 32) else c.

Fixpoint upper (s : string) : string :=
  match s with
  | EmptyString => EmptyString
  | String c rest => String (upper_ascii c) (upper rest)
  end.

(** What an entry of a bill map makes of the state, and its events
    (lines 120-130). *)
Definition bill_set (ToUpper : string → string) (repoFullName : string) (id : Z)
    (nodeID name state : string) (st : State) (entry : string * option WorkflowBill.t)
    : State :=
  match bill_total entry with
  | Some ms =>
      set_gauges
        (<[workflowBillGauge :=
             <[bill_labels ToUpper repoFullName id nodeID name state (fst entry)
               := Qmake ms 1000]> (default ∅ (gauges st !! workflowBillGauge))]> (gauges st))
        st
  | None => st
  end.

Definition bill_events (ToUpper : string → string) (repoFullName : string) (id : Z)
    (nodeID name state : string) (entry : string * option WorkflowBill.t) : list event :=
  match bill_total entry with
  | Some ms =>
      [GaugeSet workflowBillGauge
         (bill_labels ToUpper repoFullName id nodeID name state (fst entry)) (Qmake ms 1000)]
  | None => []
  end.

(** What a pass of a collector leaves alone: the configuration, the
    client, the globals of the fetcher and every gauge but those of [rs]. *)
Definition kept_apart (rs : list gauge) (st st1 : State) : Prop :=
  cfg st1 = cfg st ∧ client st1 = client st ∧
  repositories st1 = repositories st ∧ workflows st1 = workflows st ∧
  ∀ g, g ∉ rs → gauges st1 !! g = gauges st !! g.

(** An organization with two runners, one of them incomplete, after an
    earlier pass that has left a series; and a cache with one definition,
    with a bill for it. *)
Definition organization_pass : State :=
  mkState (default_config [] ["o"; ""]) true [] ∅
    (<[runnersOrganizationGauge := {[ ["o"; "gone"] := inject_Z 1 ]}]> all_gauges)
    (set_org_runner_pages [Replied (Some [Some online_runner; Some nameless_runner]) 0]
       no_replies).

Definition billing_pass : State :=
  mkState (default_config ["o/r"] []) true ["o/r"] example_cache
    (<[workflowBillGauge := {[ ["o/r"; "gone"] := inject_Z 1 ]}]> all_gauges)
    (set_workflow_usages
       [Replied (Some (WorkflowUsage.mk (Some (Some three_bills)))) 0] no_replies).

(** No series at all: what the fetcher may set. *)
Definition nothing (g : gauge) (labels : list string) : Prop := False.

(** A map of workflow definitions whose every entry is a definition
    stored under its own id. *)
Definition keyed (m : gmap Z (option Workflow.t)) : Prop :=
  ∀ k w, m !! k = Some w → ∃ wf, w = Some wf ∧ Workflow.ID wf = Some k.

(** A cache fit for a list of repositories: each of its entries is for a
    repository of the list whose name has the form owner/name, and holds
    at least one definition, each stored under its own id. *)
Definition well_formed (repos : list string) (cache : WorkflowCache) : Prop :=
  ∀ repo m, cache !! repo = Some m →
            repo ∈ repos ∧ (∃ owner repoName, Split repo slash = [owner; repoName]) ∧
            m ≠ ∅ ∧ keyed m.

(** The events of a call and of what follows a failed one. *)
Definition calls_only (e : event) : Prop :=
  match e with
  | Request _ _ | LogRateLimited _ _ | Sleep _ | LogError _ _ | SleepFor _ => True
  | _ => False
  end.

(** A definition with an attribute missing among the three the billing
    collector needs besides the id. *)
Definition lacks_attribute (wf : Workflow.t) : Prop :=
  Workflow.NodeID wf = None ∨ Workflow.Name wf = None ∨ Workflow.State wf = None.

(** The ids of the runs of a list that have one, the series a trace sets
    in a gauge and the endpoints it calls, in order. *)
Definition run_ids (runs : list (option WorkflowRun.t)) : list Z :=
  omap (fun run => run ≫= WorkflowRun.ID) runs.

Definition sets_of (g : gauge) (evs : list event) : list (list string * Q) :=
  omap (fun e => match e with
                 | GaugeSet g' labels v => if decide (g' = g) then Some (labels, v) else None
                 | _ => None
                 end) evs.

Definition endpoints (evs : list event) : list endpoint :=
  omap (fun e => match e with Request ep _ => Some ep | _ => None end) evs.

(** Three fetched runs: one with an id, a nil entry and one without id;
    the server answers one usage call. *)
Definition three_runs : list (option WorkflowRun.t) :=
  [Some pull_request_run; None;
   Some (WorkflowRun.mk None None None None None None None None None None None None []
           None None None None None None)].

Definition one_usage : State :=
  mkState (default_config ["o/r"] []) true ["o/r"] example_cache all_gauges
    (set_run_usages [Failed (OtherError "404")] no_replies).

(** ** The tickers of the goroutines

    A [time.Duration] is an [int64] of nanoseconds: a product of
    durations wraps around. [time.NewTicker] panics when the duration is
    not positive; [None] is that panic. *)
Definition wrap64 (z : Z) : Z := (z + 2 ^ 63) mod 2 ^ 64 - 2 ^ 63.

Definition Second : Z := 1000000000.

Definition NewTicker (d : Z) : option Z := if 0 <? d then Some d else None.

(** get_workflow_runs_from_github.go, line 178: the ticker of the
    collector of runs. *)
Definition runsTicker (c : config.t) : option Z :=
  NewTicker (wrap64 (config.Refresh (config.github c) * Second)).

(** get_runners_from_github.go, lines 72-77, and
    get_runners_organization_from_github.go, lines 76-81: the ticker of
    the two collectors of runners. *)
Definition runnersTicker (c : config.t) : option Z :=
  let refreshInterval := wrap64 (config.Refresh (config.github c) * Second) in
  let refreshInterval :=
    if config.Refresh (config.github c) <=? 0 then 60 * Second else refreshInterval in
  NewTicker refreshInterval.

(** get_billable_from_github.go, lines 52-57: the ticker of the billing
    collector. *)
Definition billingTicker (c : config.t) : option Z :=
  let refreshInterval := wrap64 (wrap64 (config.Refresh (config.github c) * 5) * Second) in
  let refreshInterval :=
    if config.Refresh (config.github c) <=? 0 then 300 * Second else refreshInterval in
  NewTicker refreshInterval.

(** github_fetcher.go, line 117: the ticker of the fetcher. *)
Definition fetcherTicker (c : config.t) : option Z :=
  NewTicker (wrap64 (refreshIntervalSeconds c * Second)).

(** A configuration with a refresh time. *)
Definition refreshed (refresh : Z) : config.t :=
  config.mk (config.mkGithub refresh ["o/r"] [] 720 3600) (config.mkMetrics true)
    default_fields.

(** The series of the status gauge for a fetched run: none for a nil
    entry or a run without id. *)
Definition status_series (cache : WorkflowCache) (fields : list string)
    (repoFullName : string) (run : option WorkflowRun.t) : option (list string * Q) :=
  run ← run;
  _ ← WorkflowRun.ID run;
  Some (labelValues cache fields repoFullName run,
        inject_Z (numericStatus (getSafeString (WorkflowRun.Status run))
                    (getSafeString (WorkflowRun.Conclusion run)))).

(** Two runs with different ids and nothing else to tell them apart. *)
Definition two_runs : list (option WorkflowRun.t) := [Some (bare_run 1); Some (bare_run 2)].

Definition two_usages : State :=
  mkState (default_config ["o/r"] []) true ["o/r"] example_cache all_gauges
    (set_run_usages [Failed (OtherError "404"); Failed (OtherError "404")] no_replies).

(** A run of the workflow 5 of the example cache. *)
Definition run_of_workflow_5 : WorkflowRun.t :=
  WorkflowRun.mk (Some 1) None None None None None None None None None None (Some 5)
    [] None None None None None None.
(** * Properties *)

(** ** The numeric status mapping *)


Lemma eqb_false_of_not_elem (s t : string) (l : list string) :
  s ∉ l → t ∈ l → (s == t) = false.
Proof.
  intros Hs Ht. apply String.eqb_neq. intros ->. contradiction.
Qed.

Lemma numericStatus_in_table (s c : string) : StatusTable s c (numericStatus s c).
Proof.
  unfold numericStatus.
  destruct (String.eqb s "completed") eqn:Es.
  - apply String.eqb_eq in Es; subst s.
    case_eqb; try constructor.
    repeat (apply not_elem_of_cons; split; [congruence|]). apply not_elem_of_nil.
  - apply String.eqb_neq in Es.
    case_eqb; simpl; try constructor.
    repeat (apply not_elem_of_cons; split; [congruence|]). apply not_elem_of_nil.
Qed.

Lemma table_functional (s c : string) (n : Z) : StatusTable s c n → numericStatus s c = n.
Proof.
  intros H; inversion H; subst; try reflexivity.
  - unfold numericStatus. simpl.
    rewrite !(eqb_false_of_not_elem c _ _ H0); [reflexivity | | | | | |];
      repeat first [ apply list_elem_of_here | apply list_elem_of_further ].
  - unfold numericStatus.
    rewrite !(eqb_false_of_not_elem s _ _ H0); [reflexivity | | | | | | |];
      repeat first [ apply list_elem_of_here | apply list_elem_of_further ].
Qed.

(** C1: the numeric status computed by the collector is a function of the
    pair (status, conclusion) whose graph is the table of the
    specification: a code is the one computed for a pair exactly when a
    row of the table gives it, the rows for the other conclusions of a
    completed run (8) and for the other statuses (99) included. *)
Theorem numericStatus_table (status conclusion : string) (code : Z) :
  numericStatus status conclusion = code ↔ StatusTable status conclusion code.
Proof.
  split.
  - intros <-. apply numericStatus_in_table.
  - apply table_functional.
Qed.

(** ** The target branch *)


Lemma derivedTargetBranch_base (run : WorkflowRun.t) (ref : string) :
  WorkflowRun.Event run = Some "pull_request" →
  base_ref run = Some ref →
  derivedTargetBranch run = ref.
Proof.
  unfold derivedTargetBranch, base_ref. intros -> H. simpl.
  destruct (WorkflowRun.PullRequests run) as [|[pr|] prs]; simpl in H; try discriminate.
  destruct (PullRequest.Base pr) as [base|]; simpl in H; try discriminate.
  destruct (PullRequestBranch.Ref base); simpl in H; congruence.
Qed.

Lemma derivedTargetBranch_head (run : WorkflowRun.t) :
  WorkflowRun.Event run ≠ Some "pull_request" ∨ base_ref run = None →
  derivedTargetBranch run = default "" (WorkflowRun.HeadBranch run).
Proof.
  unfold derivedTargetBranch, base_ref. intros H.
  destruct (String.eqb (getSafeString (WorkflowRun.Event run)) "pull_request") eqn:E.
  - apply String.eqb_eq in E.
    destruct H as [H|H].
    + destruct (WorkflowRun.Event run); simpl in E; [congruence | discriminate].
    + destruct (WorkflowRun.PullRequests run) as [|[pr|] prs]; simpl in H;
        try (destruct (WorkflowRun.HeadBranch run); reflexivity).
      destruct (PullRequest.Base pr) as [base|]; simpl in H;
        try (destruct (WorkflowRun.HeadBranch run); reflexivity).
      destruct (PullRequestBranch.Ref base); simpl in H; try discriminate.
      destruct (WorkflowRun.HeadBranch run); reflexivity.
  - destruct (WorkflowRun.HeadBranch run); reflexivity.
Qed.

(** C6: the target branch of a run is the base ref of its pull request
    when the event is "pull_request" and the run has a pull request with a
    base ref; otherwise it is the head branch of the run when the run has
    one, and the empty string when it has none. *)
Theorem derivedTargetBranch_spec (run : WorkflowRun.t) :
  (∀ ref, WorkflowRun.Event run = Some "pull_request" →
          base_ref run = Some ref →
          derivedTargetBranch run = ref) ∧
  (∀ branch, WorkflowRun.Event run ≠ Some "pull_request" ∨ base_ref run = None →
             WorkflowRun.HeadBranch run = Some branch →
             derivedTargetBranch run = branch) ∧
  (WorkflowRun.Event run ≠ Some "pull_request" ∨ base_ref run = None →
   WorkflowRun.HeadBranch run = None →
   derivedTargetBranch run = "").
Proof.
  split; [|split].
  - intros ref. apply derivedTargetBranch_base.
  - intros branch H Hb. rewrite derivedTargetBranch_head, Hb by exact H. reflexivity.
  - intros H Hb. rewrite derivedTargetBranch_head, Hb by exact H. reflexivity.
Qed.


Lemma derivedTargetBranch_examples :
  derivedTargetBranch pull_request_run = "main" ∧
  derivedTargetBranch push_run = "release" ∧
  derivedTargetBranch (with_branches "push" None [] (bare_run 3)) = "".
Proof.
  split; [|split].
  - apply (proj1 (derivedTargetBranch_spec pull_request_run)); reflexivity.
  - apply (proj1 (proj2 (derivedTargetBranch_spec push_run))); [left; discriminate | reflexivity].
  - apply (proj2 (proj2 (derivedTargetBranch_spec _))); [left; discriminate | reflexivity].
Defined.

(** ** The label vector on a cache miss *)

Lemma labelValues_length (cache : WorkflowCache) (fields : list string)
    (repoFullName : string) (run : WorkflowRun.t) :
  length (labelValues cache fields repoFullName run) = length fields.
Proof. unfold labelValues. apply length_map. Qed.

Lemma getFieldValue_miss (cache : WorkflowCache) (repoFullName : string)
    (run : WorkflowRun.t) :
  cache_miss cache repoFullName run →
  getFieldValue cache repoFullName run "workflow_name" = "unknown_workflow_name".
Proof.
  unfold cache_miss, getFieldValue. simpl. intros H.
  destruct (cache !! repoFullName) as [repoWorkflows|]; simpl in H; [|reflexivity].
  rewrite H. reflexivity.
Qed.

Lemma labelValues_sentinel (cache : WorkflowCache) (fields : list string)
    (repoFullName : string) (run : WorkflowRun.t) (i : nat) :
  cache_miss cache repoFullName run →
  fields !! i = Some "workflow_name" →
  labelValues cache fields repoFullName run !! i = Some "unknown_workflow_name".
Proof.
  intros Hmiss Hi. unfold labelValues. rewrite list_lookup_fmap, Hi. simpl.
  f_equal. apply getFieldValue_miss, Hmiss.
Qed.

(** C5: for a run that misses the workflow-definition cache (no entry for
    its repository, or none for its workflow id), the label vector has one
    value per configured field name, and the value at every position of
    the field "workflow_name" is the sentinel "unknown_workflow_name". *)
Theorem labelValues_cache_miss (cache : WorkflowCache) (fields : list string)
    (repoFullName : string) (run : WorkflowRun.t) :
  cache_miss cache repoFullName run →
  length (labelValues cache fields repoFullName run) = length fields ∧
  ∀ i : nat, fields !! i = Some "workflow_name" →
             labelValues cache fields repoFullName run !! i = Some "unknown_workflow_name".
Proof.
  intros Hmiss. split; [apply labelValues_length|].
  intros i. apply labelValues_sentinel, Hmiss.
Qed.

Lemma labelValues_cache_miss_example :
  length (labelValues example_cache default_field_names "o/r" (bare_run 1)) = 20%nat ∧
  labelValues example_cache default_field_names "o/r" (bare_run 1) !! 2%nat
    = Some "unknown_workflow_name" ∧
  labelValues example_cache default_field_names "o/other" (bare_run 1) !! 2%nat
    = Some "unknown_workflow_name".
Proof.
  split; [|split].
  - apply (proj1 (labelValues_cache_miss example_cache default_field_names "o/r"
                    (bare_run 1) eq_refl)).
  - apply (proj2 (labelValues_cache_miss example_cache default_field_names "o/r"
                    (bare_run 1) eq_refl) 2%nat).
    reflexivity.
  - apply (proj2 (labelValues_cache_miss example_cache default_field_names "o/other"
                    (bare_run 1) eq_refl) 2%nat).
    reflexivity.
Defined.

(** ** The duration of a run *)

Lemma durationMs_usage (usage : reply WorkflowRunUsage.t) (status : string)
    (run : WorkflowRun.t) (v : Z) :
  usage_duration usage = Some v → durationMs usage status run = v.
Proof.
  unfold usage_duration, durationMs.
  destruct usage as [e|[u|] n]; try discriminate.
  intros ->. reflexivity.
Qed.

Lemma terminal_test (status : string) :
  (status == "completed") || (status == "stale") = true ↔ terminal status.
Proof.
  unfold terminal. rewrite orb_true_iff, !String.eqb_eq. reflexivity.
Qed.

Lemma durationMs_fallback (usage : reply WorkflowRunUsage.t) (status : string)
    (run : WorkflowRun.t) (started updated : Timestamp) :
  usage_duration usage = None →
  terminal status →
  started_then_updated run started updated →
  durationMs usage status run = Milliseconds (Sub updated started).
Proof.
  intros Hu Ht (Hs & Hup & Hs0 & Hu0 & Hlt).
  assert (Hfb : durationMs usage status run =
                if (status == "completed") || (status == "stale") then
                  if negb (IsZero started) && negb (IsZero updated) then
                    if After updated started then Milliseconds (Sub updated started) else -1
                  else -1
                else -1).
  { unfold durationMs. rewrite Hs, Hup.
    destruct usage as [e|[u|] n]; try reflexivity.
    simpl in Hu. rewrite Hu. reflexivity. }
  rewrite Hfb. apply terminal_test in Ht. rewrite Ht.
  unfold IsZero, After.
  destruct (Z.eqb_spec started 0); [contradiction|].
  destruct (Z.eqb_spec updated 0); [contradiction|].
  destruct (Z.ltb_spec started updated); [reflexivity | lia].
Qed.

Lemma durationMs_sentinel (usage : reply WorkflowRunUsage.t) (status : string)
    (run : WorkflowRun.t) :
  usage_duration usage = None →
  ¬ (terminal status ∧ ∃ started updated, started_then_updated run started updated) →
  durationMs usage status run = -1.
Proof.
  intros Hu Hn.
  assert (Hfb : durationMs usage status run =
                if (status == "completed") || (status == "stale") then
                  match WorkflowRun.RunStartedAt run, WorkflowRun.UpdatedAt run with
                  | Some started, Some updated =>
                      if negb (IsZero started) && negb (IsZero updated) then
                        if After updated started then Milliseconds (Sub updated started) else -1
                      else -1
                  | _, _ => -1
                  end
                else -1).
  { unfold durationMs.
    destruct usage as [e|[u|] n]; try reflexivity.
    simpl in Hu. rewrite Hu. reflexivity. }
  rewrite Hfb.
  destruct ((status == "completed") || (status == "stale")) eqn:Ht; [|reflexivity].
  apply terminal_test in Ht.
  destruct (WorkflowRun.RunStartedAt run) as [started|] eqn:Hs; [|reflexivity].
  destruct (WorkflowRun.UpdatedAt run) as [updated|] eqn:Hup; [|reflexivity].
  unfold IsZero, After.
  destruct (Z.eqb_spec started 0); [reflexivity|].
  destruct (Z.eqb_spec updated 0); [reflexivity|].
  destruct (Z.ltb_spec started updated); [|reflexivity].
  exfalso. apply Hn. split; [exact Ht|].
  exists started, updated. unfold started_then_updated. auto.
Qed.

Lemma Milliseconds_Sub_in_range (started updated : Timestamp) :
  started < updated → updated - started ≤ maxDuration →
  Milliseconds (Sub updated started) = (updated - started) `div` 1000000.
Proof.
  intros Hlt Hr. unfold Milliseconds, Sub. simpl.
  destruct (Z.ltb_spec maxDuration (updated - started)); [lia|].
  destruct (Z.ltb_spec (updated - started) minDuration).
  - unfold minDuration in *. lia.
  - apply Z.quot_div_nonneg; lia.
Qed.

(** What [processRun] does for a run with an id when the duration is
    collected and the server answers the usage call. *)
Lemma processRun_with_usage (fields : list string) (repoFullName owner repoName : string)
    (run : WorkflowRun.t) (id : Z) (usage : reply WorkflowRunUsage.t)
    (rest : list (reply WorkflowRunUsage.t)) (st : State) :
  WorkflowRun.ID run = Some id →
  config.FetchWorkflowRunUsage (config.metrics (cfg st)) = true →
  is_Some (gauges st !! workflowRunDurationGauge) →
  run_usages (server st) = usage :: rest →
  let status := getSafeString (WorkflowRun.Status run) in
  let labels := labelValues (workflows st) fields repoFullName run in
  let code := inject_Z (numericStatus status (getSafeString (WorkflowRun.Conclusion run))) in
  let d := inject_Z (durationMs usage status run) in
  ∃ st',
    processRun fields repoFullName owner repoName (Some run) st
    = Some (tt, st', [GaugeSet workflowRunStatusGauge labels code;
                      Request (GetWorkflowRunUsageByID owner repoName id) 0;
                      GaugeSet workflowRunDurationGauge labels d]) ∧
    gauges st' !! workflowRunStatusGauge ≫= (.!! labels) = Some code ∧
    gauges st' !! workflowRunDurationGauge ≫= (.!! labels) = Some d.
Proof.
  intros Hid Hflag [g Hg] Hsrv status labels code d.
  unfold processRun. rewrite Hid.
  unfold bind, get, usage_enabled, WithLabelValues_Set, call, ret, bind, get. simpl.
  rewrite Hflag. rewrite lookup_insert_ne by discriminate. rewrite Hg. simpl.
  rewrite Hsrv. simpl.
  eexists. split; [reflexivity|]. simpl.
  split; [rewrite lookup_insert_ne by discriminate|];
    rewrite lookup_insert_eq; simpl; rewrite lookup_insert_eq; reflexivity.
Qed.

(** C2: when the duration is collected and the server answers the usage
    call, a run with an id always gets a series of the duration gauge, at
    the label vector of the run. Its value is the duration the usage
    endpoint gave when the call succeeded with one; otherwise, for a run
    whose status is "completed" or "stale" with both timestamps present,
    non-zero and the update strictly after the start, it is the
    difference of the two in milliseconds (the quotient of the
    nanoseconds between them, when these fit a [time.Duration]); in every
    other case it is -1. *)
Theorem duration_published (fields : list string) (repoFullName owner repoName : string)
    (run : WorkflowRun.t) (id : Z) (usage : reply WorkflowRunUsage.t)
    (rest : list (reply WorkflowRunUsage.t)) (st : State) :
  WorkflowRun.ID run = Some id →
  config.FetchWorkflowRunUsage (config.metrics (cfg st)) = true →
  is_Some (gauges st !! workflowRunDurationGauge) →
  run_usages (server st) = usage :: rest →
  ∃ (st' : State) (evs : list event) (d : Z),
    processRun fields repoFullName owner repoName (Some run) st = Some (tt, st', evs) ∧
    GaugeSet workflowRunDurationGauge
      (labelValues (workflows st) fields repoFullName run) (inject_Z d) ∈ evs ∧
    gauges st' !! workflowRunDurationGauge
      ≫= (.!! labelValues (workflows st) fields repoFullName run) = Some (inject_Z d) ∧
    (∀ v, usage_duration usage = Some v → d = v) ∧
    (∀ started updated,
       usage_duration usage = None →
       terminal (getSafeString (WorkflowRun.Status run)) →
       started_then_updated run started updated →
       d = Milliseconds (Sub updated started) ∧
       (updated - started ≤ maxDuration → d = (updated - started) `div` 1000000)) ∧
    (usage_duration usage = None →
     ¬ (terminal (getSafeString (WorkflowRun.Status run)) ∧
        ∃ started updated, started_then_updated run started updated) →
     d = -1).
Proof.
  intros Hid Hflag Hg Hsrv.
  destruct (processRun_with_usage fields repoFullName owner repoName run id usage rest st
              Hid Hflag Hg Hsrv) as (st' & Hrun & _ & Hd).
  eexists st', _, (durationMs usage (getSafeString (WorkflowRun.Status run)) run).
  split; [exact Hrun|].
  split; [do 2 apply list_elem_of_further; apply list_elem_of_here|].
  split; [exact Hd|].
  split; [intros v; apply durationMs_usage|].
  split.
  - intros started updated Hu Ht Hts.
    rewrite (durationMs_fallback usage _ run started updated Hu Ht Hts).
    split; [reflexivity|].
    destruct Hts as (_ & _ & _ & _ & Hlt).
    intros Hr. apply Milliseconds_Sub_in_range; assumption.
  - apply durationMs_sentinel.
Qed.

Lemma duration_published_example :
  ∃ (st' : State) (evs : list event),
    processRun default_field_names "o/r" "o" "r" (Some five_seconds_run)
      (initial_state (default_config ["o/r"] [])
         (set_run_usages [Failed (OtherError "404")] no_replies))
    = Some (tt, st', evs) ∧
    GaugeSet workflowRunDurationGauge
      (labelValues ∅ default_field_names "o/r" five_seconds_run) (inject_Z 5000) ∈ evs.
Proof.
  destruct (duration_published default_field_names "o/r" "o" "r" five_seconds_run 7
              (Failed (OtherError "404")) []
              (initial_state (default_config ["o/r"] [])
                 (set_run_usages [Failed (OtherError "404")] no_replies))
              eq_refl eq_refl (ex_intro _ ∅ eq_refl) eq_refl)
    as (st' & evs & d & Hrun & Hin & _ & _ & Hfb & _).
  exists st', evs. split; [exact Hrun|].
  destruct (Hfb T0 (T0 + 5000 * 1000000) eq_refl (or_introl eq_refl)) as [-> _].
  - unfold started_then_updated, T0. simpl. repeat split; try reflexivity; discriminate.
  - exact Hin.
Defined.

(** ** Runner records *)

Lemma incomplete_complete (runner : option Runner.t) :
  incomplete runner ↔ complete runner = false.
Proof.
  destruct runner as [[[id|] [name|] [os|] [status|] [busy|]]|]; simpl;
    split; intros H; try reflexivity; try discriminate; auto 6;
    try (destruct H as [H|[H|[H|[H|H]]]]; discriminate).
Qed.

Lemma publishRunner_incomplete (g : gauge) (scope : string) (runner : option Runner.t)
    (st : State) :
  incomplete runner →
  publishRunner g scope runner st = Some (tt, st, [LogIncompleteRunner scope]).
Proof.
  intros H. apply incomplete_complete in H.
  destruct runner as [[[id|] [name|] [os|] [status|] [busy|]]|];
    simpl in H; try discriminate; reflexivity.
Qed.

Lemma publishRunner_complete (g : gauge) (scope : string) (id : Z) (name os status : string)
    (busy : bool) (st : State) :
  let labels := [scope; os; name; FormatInt id; FormatBool busy] in
  let v := if status == "online" then 1 else 0 in
  publishRunner g scope
    (Some (Runner.mk (Some id) (Some name) (Some os) (Some status) (Some busy))) st
  = Some (tt,
          set_gauges (<[g := <[labels := inject_Z v]> (default ∅ (gauges st !! g))]> (gauges st)) st,
          [GaugeSet g labels (inject_Z v)]).
Proof. reflexivity. Qed.

Lemma publishRunner_total (g : gauge) (scope : string) (runner : option Runner.t)
    (st : State) :
  ∃ st' ev,
    publishRunner g scope runner st = Some (tt, st', [ev]) ∧
    is_GaugeSet ev = complete runner ∧
    is_LogIncompleteRunner ev = negb (complete runner).
Proof.
  destruct (complete runner) eqn:Hc.
  - destruct runner as [[[id|] [name|] [os|] [status|] [busy|]]|];
      simpl in Hc; try discriminate.
    rewrite publishRunner_complete. eauto.
  - apply incomplete_complete in Hc.
    rewrite (publishRunner_incomplete g scope runner st Hc). eauto.
Qed.

Lemma forM_publishRunner (g : gauge) (scope : string) (runners : list (option Runner.t)) :
  ∀ st, ∃ st' evs,
    forM runners (publishRunner g scope) st = Some (tt, st', evs) ∧
    length (filter (fun e => is_GaugeSet e = true) evs)
    = length (filter (fun r => complete r = true) runners) ∧
    length (filter (fun e => is_LogIncompleteRunner e = true) evs)
    = length (filter (fun r => complete r = false) runners).
Proof.
  induction runners as [|r rs IH]; intros st.
  - exists st, []. auto.
  - destruct (publishRunner_total g scope r st) as (st1 & ev & Hr & Hset & Hlog).
    destruct (IH st1) as (st2 & evs & Hrs & Hn & Hm).
    exists st2, ([ev] ++ evs). simpl forM. unfold bind. rewrite Hr, Hrs.
    split; [reflexivity|].
    simpl. rewrite !filter_cons.
    destruct (complete r); simpl in Hset, Hlog;
      repeat case_decide; try congruence; simpl; rewrite ?Hn, ?Hm; auto.
Qed.



(** ** The paginator *)

Section PaginatorFacts.
Context {P A : Type}.
Variable ep : endpoint.
Variable absorb : A → option P → A.

Lemma paginate_rate_limited (reset : Timestamp) (rest : list (reply P)) (page : Z) (acc : A) :
  paginate ep absorb (Failed (RateLimitError reset) :: rest) page acc
  = match paginate ep absorb rest page acc with
    | Some (res, rest', evs) =>
        Some (res, rest', [Request ep page; LogRateLimited ep reset; Sleep reset] ++ evs)
    | None => None
    end.
Proof. reflexivity. Qed.

Lemma paginate_error (msg : string) (rest : list (reply P)) (page : Z) (acc : A) :
  paginate ep absorb (Failed (OtherError msg) :: rest) page acc
  = Some (acc, rest, [Request ep page; LogError ep msg]).
Proof. reflexivity. Qed.

Lemma paginate_asks_first (script rest : list (reply P)) (page : Z) (acc res : A)
    (evs : list event) :
  paginate ep absorb script page acc = Some (res, rest, evs) →
  head evs = Some (Request ep page).
Proof.
  destruct script as [|[[reset|msg]|body n] script]; simpl; try discriminate.
  - destruct (paginate ep absorb script page acc) as [[[? ?] ?]|]; [|discriminate].
    intros [= <- <- <-]. reflexivity.
  - intros [= <- <- <-]. reflexivity.
  - destruct (n =? 0).
    + intros [= <- <- <-]. reflexivity.
    + destruct (paginate ep absorb script n (absorb acc body)) as [[[? ?] ?]|]; [|discriminate].
      intros [= <- <- <-]. reflexivity.
Qed.

Lemma logs_error_cons (e : event) (evs : list event) :
  (∀ e' msg, e ≠ LogError e' msg) → logs_error (e :: evs) ↔ logs_error evs.
Proof.
  intros Hne. unfold logs_error. split.
  - intros (e' & msg & Hin). apply elem_of_cons in Hin as [Heq|Hin]; [|eauto].
    exfalso. exact (Hne e' msg (eq_sym Heq)).
  - intros (e' & msg & Hin). exists e', msg. apply list_elem_of_further, Hin.
Qed.

Lemma logs_error_nil : ¬ logs_error [].
Proof. intros (e & msg & Hin). apply (not_elem_of_nil _ Hin). Qed.

(** What a run of the loop that returns has consumed and done. *)
Lemma paginate_returns (script : list (reply P)) :
  ∀ (page : Z) (acc res : A) (rest : list (reply P)) (evs : list event),
    paginate ep absorb script page acc = Some (res, rest, evs) →
    ∃ consumed last,
      script = consumed ++ last :: rest ∧
      Forall (fun r => final r = false) consumed ∧
      final last = true ∧
      res = absorbed absorb acc (consumed ++ [last]) ∧
      requests evs = cursors page (consumed ++ [last]) ∧
      sleeps evs = resets consumed ∧
      (logs_error evs ↔ is_error last = true).
Proof.
  induction script as [|r script IH]; intros page acc res rest evs H; [discriminate|].
  destruct r as [[reset|msg]|body n]; simpl in H.
  - destruct (paginate ep absorb script page acc) as [[[res' rest'] evs']|] eqn:Hrec;
      [|discriminate].
    injection H as <- <- <-.
    destruct (IH _ _ _ _ _ Hrec) as (consumed & last & -> & Hnf & Hf & Hres & Hreq & Hsl & Herr).
    exists (Failed (RateLimitError reset) :: consumed), last.
    split; [reflexivity|]. split; [constructor; [reflexivity | exact Hnf]|].
    split; [exact Hf|]. split; [exact Hres|].
    split; [simpl; unfold requests in Hreq; simpl; f_equal; exact Hreq|].
    split; [unfold sleeps, resets in *; simpl; f_equal; exact Hsl|].
    rewrite !logs_error_cons by (intros; discriminate). exact Herr.
  - injection H as <- <- <-.
    exists [], (Failed (OtherError msg)).
    repeat split; try reflexivity; try constructor.
    exists ep, msg. apply list_elem_of_further, list_elem_of_here.
  - destruct (Z.eqb_spec n 0) as [->|Hn].
    + injection H as <- <- <-.
      exists [], (Replied body 0).
      repeat split; try reflexivity; try constructor; try discriminate.
      intros Herr. rewrite logs_error_cons in Herr by (intros; discriminate).
      destruct (logs_error_nil Herr).
    + destruct (paginate ep absorb script n (absorb acc body)) as [[[res' rest'] evs']|] eqn:Hrec;
        [|discriminate].
      injection H as <- <- <-.
      destruct (IH _ _ _ _ _ Hrec) as (consumed & last & -> & Hnf & Hf & Hres & Hreq & Hsl & Herr).
      exists (Replied body n :: consumed), last.
      split; [reflexivity|].
      split; [constructor; [simpl; apply Z.eqb_neq, Hn | exact Hnf]|].
      split; [exact Hf|]. split; [exact Hres|].
      split; [simpl; unfold requests in Hreq; simpl; f_equal; exact Hreq|].
      split; [exact Hsl|].
      rewrite logs_error_cons by (intros; discriminate). exact Herr.
Qed.

(** The loop returns as soon as a reply ends it, whatever follows. *)
Lemma paginate_terminates (consumed : list (reply P)) :
  ∀ (last : reply P) (rest : list (reply P)) (page : Z) (acc : A),
    Forall (fun r => final r = false) consumed →
    final last = true →
    ∃ evs,
      paginate ep absorb (consumed ++ last :: rest) page acc
      = Some (absorbed absorb acc (consumed ++ [last]), rest, evs).
Proof.
  induction consumed as [|r consumed IH]; intros last rest page acc Hnf Hf.
  - destruct last as [[reset|msg]|body n]; simpl in Hf; try discriminate.
    + eexists. reflexivity.
    + simpl. rewrite Hf. eexists. reflexivity.
  - inversion Hnf as [|? ? Hr Hnf']; subst.
    destruct r as [[reset|msg]|body n]; simpl in Hr; try discriminate.
    + destruct (IH last rest page acc Hnf' Hf) as (evs & Hrec).
      simpl in *. rewrite Hrec. eexists. reflexivity.
    + destruct (IH last rest n (absorb acc body) Hnf' Hf) as (evs & Hrec).
      simpl in *. rewrite Hr, Hrec. eexists. reflexivity.
Qed.

(** Without a reply that ends it the loop is still asking. *)
Lemma paginate_waits (script : list (reply P)) :
  ∀ (page : Z) (acc : A),
    Forall (fun r => final r = false) script →
    paginate ep absorb script page acc = None.
Proof.
  induction script as [|r script IH]; intros page acc Hnf; [reflexivity|].
  inversion Hnf as [|? ? Hr Hnf']; subst.
  destruct r as [[reset|msg]|body n]; simpl in Hr; try discriminate; simpl.
  - rewrite IH by exact Hnf'. reflexivity.
  - rewrite Hr, IH by exact Hnf'. reflexivity.
Qed.

Lemma serve_next_nonzero (number : Z) (more : list (list Timestamp * option P)) :
  0 < number → more ≠ [] →
  (match more with [] => 0 | _ :: _ => number + 1 end =? 0) = false.
Proof.
  intros Hn Hm. destruct more; [contradiction|]. apply Z.eqb_neq. lia.
Qed.

Lemma paginate_limits (limits : list Timestamp) (script : list (reply P)) (page : Z) (acc : A) :
  paginate ep absorb (map (fun t => Failed (RateLimitError t)) limits ++ script) page acc
  = match paginate ep absorb script page acc with
    | Some (res, rest, evs) =>
        Some (res, rest,
              flat_map (fun t => [Request ep page; LogRateLimited ep t; Sleep t]) limits ++ evs)
    | None => None
    end.
Proof.
  induction limits as [|t limits IH]; simpl.
  - destruct (paginate ep absorb script page acc) as [[[? ?] ?]|]; reflexivity.
  - rewrite IH. destruct (paginate ep absorb script page acc) as [[[? ?] ?]|]; reflexivity.
Qed.

(** Against a book of pages the loop takes in every page, in order, and
    visits each once. *)
Lemma paginate_book (book : list (list Timestamp * option P)) :
  ∀ (cursor number : Z) (acc : A) (rest : list (reply P)),
    book ≠ [] → 0 < number →
    paginate ep absorb (serve book number ++ rest) cursor acc
    = Some (foldl absorb acc (map snd book), rest,
            visits ep cursor number (map fst book)).
Proof.
  induction book as [|[limits body] more IH]; intros cursor number acc rest Hne Hn;
    [contradiction|].
  simpl serve. rewrite <- app_assoc. rewrite paginate_limits.
  simpl app. simpl paginate.
  destruct more as [|next more].
  - simpl. rewrite app_nil_r. reflexivity.
  - replace (number + 1 =? 0) with false by (symmetry; apply Z.eqb_neq; lia).
    rewrite IH by (try discriminate; lia).
    simpl. unfold visit. rewrite <- !app_assoc. reflexivity.
Qed.
End PaginatorFacts.

(** The fetch loops of the package are the paginator, each with its
    operation and its use of a page. *)
Lemma fetch_loops_are_paginate (owner repoName orga : string) (st : State) :
  getWorkflowRunsToFetchFromRepo owner repoName st
  = paged (ListRepositoryWorkflowRuns owner repoName (fetchHours (cfg st))) append_page
      runs_pages set_runs_pages [] st ∧
  (client st = true →
   getAllRepoRunners owner repoName st
   = paged (ListRunners owner repoName) append_page runner_pages set_runner_pages [] st) ∧
  (client st = true →
   getAllOrgRunners orga st
   = paged (ListOrganizationRunners orga) append_page
       org_runner_pages set_org_runner_pages [] st) ∧
  (client st = true →
   getAllReposForOrg orga st
   = paged (ListByOrg orga) append_full_names repo_pages set_repo_pages [] st) ∧
  (client st = true →
   getAllWorkflowsForRepo owner repoName st
   = paged (ListWorkflows owner repoName) store_workflows
       workflow_pages set_workflow_pages ∅ st).
Proof.
  unfold getWorkflowRunsToFetchFromRepo, getAllRepoRunners, getAllOrgRunners,
    getAllReposForOrg, getAllWorkflowsForRepo, bind, get, paged.
  repeat split; try (intros ->); simpl;
    match goal with
    | |- match match ?p with _ => _ end with _ => _ end = _ =>
        destruct p as [[[? ?] ?]|]; reflexivity
    end.
Qed.



(** ** Repository resolution *)

Lemma first_seen_from_elem (l : list string) :
  ∀ seen x, x ∈ first_seen_from seen l ↔ x ∈ l ∧ x ∉ seen.
Proof.
  induction l as [|y l IH]; intros seen x; simpl.
  - split; [intros H; destruct (not_elem_of_nil _ H) | intros [H _]; destruct (not_elem_of_nil _ H)].
  - destruct (decide (y ∈ seen)) as [Hy|Hy].
    + rewrite IH, elem_of_cons. split.
      * intros [H1 H2]. auto.
      * intros [[->|H1] H2]; [contradiction | auto].
    + rewrite elem_of_cons, IH, not_elem_of_cons, elem_of_cons. split.
      * intros [->|[H1 [H2 H3]]]; auto.
      * intros [[->|H1] H2]; [auto|].
        destruct (decide (x = y)) as [->|Hne]; auto.
Qed.

Lemma first_seen_from_NoDup (l : list string) : ∀ seen, NoDup (first_seen_from seen l).
Proof.
  induction l as [|y l IH]; intros seen; simpl; [constructor|].
  destruct (decide (y ∈ seen)); [apply IH|].
  constructor; [|apply IH].
  rewrite first_seen_from_elem, not_elem_of_cons. intros [_ [H _]]. congruence.
Qed.

Lemma first_seen_from_sublist (l : list string) : ∀ seen, first_seen_from seen l `sublist_of` l.
Proof.
  induction l as [|y l IH]; intros seen; simpl; [constructor|].
  destruct (decide (y ∈ seen)).
  - apply sublist_cons, IH.
  - apply sublist_skip, IH.
Qed.

Lemma first_seen_from_id (l : list string) :
  ∀ seen, NoDup l → (∀ x, x ∈ l → x ∉ seen) → first_seen_from seen l = l.
Proof.
  induction l as [|y l IH]; intros seen Hnd Hs; simpl; [reflexivity|].
  inversion Hnd as [|? ? Hy Hnd']; subst.
  destruct (decide (y ∈ seen)) as [Hin|_].
  - destruct (Hs y (list_elem_of_here _ _) Hin).
  - f_equal. apply IH; [exact Hnd'|].
    intros x Hx. apply not_elem_of_cons. split.
    + intros ->. contradiction.
    + apply Hs, list_elem_of_further, Hx.
Qed.

(** The loop of lines 154-161 keeps the first occurrences. *)
Lemma dedup_fold (l : list string) :
  ∀ (m : gmap string bool) (acc seen : list string),
    (∀ x, default false (m !! x) = true ↔ x ∈ seen) →
    snd (foldl dedup_step (m, acc) l) = acc ++ first_seen_from seen l.
Proof.
  induction l as [|y l IH]; intros m acc seen Hm; simpl.
  - rewrite app_nil_r. reflexivity.
  - destruct (decide (y ∈ seen)) as [Hy|Hy].
    + apply Hm in Hy as ->. simpl. apply IH, Hm.
    + destruct (default false (m !! y)) eqn:E.
      * apply Hm in E. contradiction.
      * simpl. rewrite (IH _ _ (y :: seen)).
        -- rewrite <- app_assoc. reflexivity.
        -- intros x. rewrite elem_of_cons. destruct (decide (y = x)) as [->|Hne].
           ++ rewrite lookup_insert_eq. simpl. split; auto.
           ++ rewrite lookup_insert_ne by exact Hne. rewrite Hm. split; [auto|].
              intros [->|H]; [congruence | exact H].
Qed.

Lemma uniqueRepos_first_seen (l : list string) : uniqueRepos l = first_seen l.
Proof.
  unfold uniqueRepos, first_seen. rewrite (dedup_fold l ∅ [] []); [reflexivity|].
  intros x. rewrite lookup_empty. simpl. split; [discriminate|].
  intros H. destruct (not_elem_of_nil _ H).
Qed.

Lemma discover_mapM (orgs : list string) :
  ∀ (acc : list string) (st : State),
    discover orgs acc st
    = match mapM getAllReposForOrg (filter (fun orga => orga ≠ "") orgs) st with
      | Some (founds, st', evs) => Some (acc ++ concat founds, st', evs)
      | None => None
      end.
Proof.
  induction orgs as [|orga orgs IH]; intros acc st.
  - simpl. unfold ret. rewrite app_nil_r. reflexivity.
  - simpl discover. rewrite filter_cons.
    destruct (String.eqb orga "") eqn:E; cbn [negb].
    + apply String.eqb_eq in E. subst orga.
      rewrite IH. destruct (decide ("" ≠ "")); [congruence|]. reflexivity.
    + apply String.eqb_neq in E. destruct (decide (orga ≠ "")); [|contradiction].
      simpl mapM. unfold bind, ret.
      destruct (getAllReposForOrg orga st) as [[[found st1] evs1]|]; [|reflexivity].
      rewrite IH.
      destruct (mapM getAllReposForOrg (filter (fun orga => orga ≠ "") orgs) st1)
        as [[[founds st2] evs2]|]; [|reflexivity].
      simpl. rewrite app_nil_r, app_assoc. reflexivity.
Qed.

Lemma first_seen_properties (l : list string) :
  NoDup (first_seen l) ∧
  (∀ x, x ∈ first_seen l ↔ x ∈ l) ∧
  first_seen l `sublist_of` l ∧
  (NoDup l → first_seen l = l).
Proof.
  unfold first_seen. split; [apply first_seen_from_NoDup|].
  split.
  - intros x. rewrite first_seen_from_elem. split; [intros [H _]; exact H|].
    intros H. split; [exact H | apply not_elem_of_nil].
  - split; [apply first_seen_from_sublist|].
    intros Hnd. apply first_seen_from_id; [exact Hnd|].
    intros x _. apply not_elem_of_nil.
Qed.

Lemma resolve_explicit (st : State) :
  explicit_repositories st ≠ [] →
  resolveRepositories st
  = Some (true, set_repositories (first_seen (explicit_repositories st)) st, []).
Proof.
  unfold explicit_repositories, resolveRepositories, reposToProcess, bind, get, put, ret.
  intros Hne. simpl.
  destruct (config.Repositories (config.github (cfg st))) as [|r rs]; [contradiction|].
  simpl. rewrite uniqueRepos_first_seen. reflexivity.
Qed.

Lemma resolve_organizations (st : State) :
  explicit_repositories st = [] →
  config.Organizations (config.github (cfg st)) ≠ [] →
  resolveRepositories st
  = match mapM getAllReposForOrg (configured_organizations st) st with
    | Some (founds, st', evs) =>
        Some (true, set_repositories (first_seen (concat founds)) st', evs)
    | None => None
    end.
Proof.
  unfold explicit_repositories, configured_organizations, resolveRepositories,
    reposToProcess, bind, get, put, ret.
  intros He Hne. simpl. rewrite He. simpl.
  destruct (config.Organizations (config.github (cfg st))) as [|o os] eqn:Ho; [contradiction|].
  cbn [length Nat.ltb Nat.leb]. rewrite discover_mapM.
  destruct (mapM getAllReposForOrg (filter (fun orga => orga ≠ "") (o :: os)) st)
    as [[[founds st'] evs]|]; [|reflexivity].
  simpl. rewrite uniqueRepos_first_seen, !app_nil_r. reflexivity.
Qed.

Lemma resolve_nothing (st : State) :
  explicit_repositories st = [] →
  config.Organizations (config.github (cfg st)) = [] →
  resolveRepositories st = Some (false, set_workflows ∅ (set_repositories [] st), []).
Proof.
  unfold explicit_repositories, resolveRepositories, reposToProcess, bind, get, put, ret.
  intros -> ->. reflexivity.
Qed.

(** C4: when the list of repositories of the configuration is not empty,
    the resolved list is that list with its duplicates removed, first
    occurrences kept in their order, and the resolution makes no call at
    all (its trace is empty and the server is left as it is): the
    organizations are not enumerated. When it is empty and organizations
    are configured, the organizations (the entries that name one) are
    enumerated in order, and the resolved list is the concatenation of
    their repositories with its duplicates removed in the same way.
    Removing duplicates gives a list without duplicates, with the same
    elements, in the order of the original, and leaves a list without
    duplicates as it is. *)
Theorem repository_resolution (st : State) :
  (explicit_repositories st ≠ [] →
   resolveRepositories st
   = Some (true, set_repositories (first_seen (explicit_repositories st)) st, [])) ∧
  (explicit_repositories st = [] →
   config.Organizations (config.github (cfg st)) ≠ [] →
   resolveRepositories st
   = match mapM getAllReposForOrg (configured_organizations st) st with
     | Some (founds, st', evs) =>
         Some (true, set_repositories (first_seen (concat founds)) st', evs)
     | None => None
     end) ∧
  (∀ l : list string,
     NoDup (first_seen l) ∧
     (∀ x, x ∈ first_seen l ↔ x ∈ l) ∧
     first_seen l `sublist_of` l ∧
     (NoDup l → first_seen l = l)).
Proof.
  split; [apply resolve_explicit|].
  split; [apply resolve_organizations|].
  apply first_seen_properties.
Qed.

Lemma repository_resolution_example :
  resolveRepositories both_configured
  = Some (true, set_repositories ["o/r"; "o/s"] both_configured, []) ∧
  option_map (fun r => repositories (snd (fst r))) (resolveRepositories organizations_configured)
  = Some ["org/a"; "org/b"; "gro/c"].
Proof.
  split.
  - apply (proj1 (repository_resolution both_configured)). discriminate.
  - rewrite (proj1 (proj2 (repository_resolution organizations_configured)) eq_refl);
      [reflexivity | discriminate].
Defined.

(** ** Traces and gauges: what a collector may do *)

Lemma replay_app (e1 e2 : list event) (gs : gmap gauge GaugeVec) :
  replay (e1 ++ e2) gs = replay e2 (replay e1 gs).
Proof. apply foldl_app. Qed.

Lemma replay_quiet (evs : list event) (gs : gmap gauge GaugeVec) :
  Forall quiet evs → replay evs gs = gs.
Proof.
  intros H. revert gs. induction H as [|e evs He _ IH]; intros gs; [reflexivity|].
  simpl. destruct e; simpl in He; try contradiction; apply IH.
Qed.

Lemma quiet_ok (S : gauge → list string → Prop) (evs : list event) :
  Forall quiet evs → Forall (sets_only S) evs.
Proof.
  intros H. eapply Forall_impl; [exact H|].
  intros e He. destruct e; cbn in *; tauto.
Qed.

Lemma effect_refl (ok : event → Prop) (st : State) : effect ok st st [].
Proof. unfold effect. repeat split; auto. Qed.

Lemma effect_trans (ok : event → Prop) (st st1 st2 : State) (e1 e2 : list event) :
  effect ok st st1 e1 → effect ok st1 st2 e2 → effect ok st st2 (e1 ++ e2).
Proof.
  intros (H1 & H2 & H3 & H4 & H5 & H6) (K1 & K2 & K3 & K4 & K5 & K6).
  unfold effect. rewrite replay_app, <- H5, K1, K2, K3, K4, K5.
  repeat split; auto. apply Forall_app; auto.
Qed.

Lemma effect_quiet (S : gauge → list string → Prop) (st : State) (s : Server)
    (evs : list event) :
  Forall quiet evs → effect (sets_only S) st (set_server s st) evs.
Proof.
  intros H. unfold effect. simpl. rewrite replay_quiet by exact H.
  repeat split; auto. apply quiet_ok, H.
Qed.

Section Safe.
Variable I : State → Prop.
Variable S : gauge → list string → Prop.
Hypothesis I_kept : invariant I (sets_only S).

Lemma safe_ret {A : Type} (a : A) : safe I (sets_only S) (ret a).
Proof. intros st a' st' evs _ [= <- <- <-]. apply effect_refl. Qed.

Lemma safe_get {A : Type} (f : State → A) : safe I (sets_only S) (get f).
Proof. intros st a' st' evs _ [= <- <- <-]. apply effect_refl. Qed.

Lemma safe_emit (evs : list event) : Forall quiet evs → safe I (sets_only S) (emit evs).
Proof.
  intros Hq st a' st' evs' _ H. inversion H; subst.
  unfold effect. rewrite replay_quiet by exact Hq. repeat split; auto.
  apply quiet_ok, Hq.
Qed.

Lemma safe_bind {A B : Type} (m : M A) (k : A → M B) :
  safe I (sets_only S) m → (∀ a, safe I (sets_only S) (k a)) →
  safe I (sets_only S) (bind m k).
Proof.
  intros Hm Hk st b st' evs HI H. unfold bind in H.
  destruct (m st) as [[[a st1] e1]|] eqn:E1; [|discriminate].
  destruct (k a st1) as [[[b' st2] e2]|] eqn:E2; [|discriminate].
  injection H as <- <- <-.
  pose proof (Hm _ _ _ _ HI E1) as H1.
  eapply effect_trans; [exact H1|].
  eapply Hk; [|exact E2]. eapply I_kept; eauto.
Qed.

Lemma safe_forM {A : Type} (l : list A) (body : A → M unit) :
  (∀ x, safe I (sets_only S) (body x)) → safe I (sets_only S) (forM l body).
Proof.
  intros Hb. induction l as [|x l IH]; simpl.
  - apply safe_ret.
  - apply safe_bind; [apply Hb | intros _; exact IH].
Qed.

Lemma safe_call {P : Type} (sel : Server → list (reply P))
    (upd : list (reply P) → Server → Server) (ep : endpoint) :
  safe I (sets_only S) (call sel upd ep).
Proof.
  intros st r st' evs _ H. unfold call in H.
  destruct (sel (server st)) as [|r' rest]; [discriminate|].
  injection H as <- <- <-. apply effect_quiet. repeat constructor.
Qed.

Lemma safe_Set (g : gauge) (labels : list string) (v : Q) :
  S g labels → safe I (sets_only S) (WithLabelValues_Set g labels v).
Proof.
  intros HS st a st' evs _ H. inversion H; subst.
  unfold effect. simpl. repeat split; auto.
Qed.
End Safe.

Lemma paginate_quiet {P A : Type} (ep : endpoint) (absorb : A → option P → A)
    (script : list (reply P)) :
  ∀ page acc res rest evs,
    paginate ep absorb script page acc = Some (res, rest, evs) → Forall quiet evs.
Proof.
  induction script as [|r script IH]; intros page acc res rest evs H; [discriminate|].
  destruct r as [[reset|msg]|body n]; simpl in H.
  - destruct (paginate ep absorb script page acc) as [[[? ?] ?]|] eqn:E; [|discriminate].
    injection H as <- <- <-. repeat (constructor; [exact Logic.I|]). eapply IH, E.
  - injection H as <- <- <-. repeat constructor.
  - destruct (n =? 0).
    + injection H as <- <- <-. repeat constructor.
    + destruct (paginate ep absorb script n (absorb acc body)) as [[[? ?] ?]|] eqn:E;
        [|discriminate].
      injection H as <- <- <-. constructor; [exact Logic.I|]. eapply IH, E.
Qed.

Lemma safe_paged {P A : Type} (I : State → Prop) (S : gauge → list string → Prop)
    (ep : endpoint) (absorb : A → option P → A) (sel : Server → list (reply P))
    (upd : list (reply P) → Server → Server) (init : A) :
  safe I (sets_only S) (paged ep absorb sel upd init).
Proof.
  intros st a st' evs _ H. unfold paged in H.
  destruct (paginate ep absorb (sel (server st)) 0 init) as [[[res rest] evs']|] eqn:E;
    [|discriminate].
  injection H as <- <- <-. apply effect_quiet. eapply paginate_quiet, E.
Qed.

Lemma replay_untouched (g : gauge) (evs : list event) :
  ∀ gs, Forall (fun e => ¬ touches g e) evs → replay evs gs !! g = gs !! g.
Proof.
  unfold replay.
  induction evs as [|e evs IH]; intros gs H; [reflexivity|].
  inversion H as [|? ? He H']; subst. simpl. rewrite IH by exact H'.
  destruct e; simpl in *; try reflexivity; apply lookup_insert_ne; exact He.
Qed.

Lemma replay_present (g : gauge) (evs : list event) :
  ∀ gs, is_Some (gs !! g) → is_Some (replay evs gs !! g).
Proof.
  unfold replay.
  induction evs as [|e evs IH]; intros gs H; [exact H|].
  simpl. apply IH. destruct e; simpl; try exact H;
    (destruct (decide (g0 = g)) as [->|Hne];
     [rewrite lookup_insert_eq; eauto | rewrite lookup_insert_ne by exact Hne; exact H]).
Qed.

(** The series of a gauge after a trace, from those before it. *)
Lemma replay_series (g : gauge) (evs : list event) :
  ∀ gs, default ∅ (replay evs gs !! g) = foldl (series_step g) (default ∅ (gs !! g)) evs.
Proof.
  unfold replay.
  induction evs as [|e evs IH]; intros gs; [reflexivity|].
  simpl. rewrite IH. f_equal.
  destruct e; simpl; try reflexivity;
    (destruct (decide (g0 = g)) as [->|Hne];
     [rewrite lookup_insert_eq; reflexivity | rewrite lookup_insert_ne by exact Hne; reflexivity]).
Qed.

Lemma series_labels (g : gauge) (evs : list event) :
  ∀ (m : GaugeVec) (labels : list string),
    Forall (fun e => ∀ g', e ≠ GaugeReset g') evs →
    is_Some (foldl (series_step g) m evs !! labels)
    ↔ is_Some (m !! labels) ∨ ∃ v, GaugeSet g labels v ∈ evs.
Proof.
  induction evs as [|e evs IH]; intros m labels H.
  - simpl. split; [auto|]. intros [Hm|[v Hv]]; [exact Hm|]. destruct (not_elem_of_nil _ Hv).
  - inversion H as [|? ? He H']; subst. simpl. rewrite IH by exact H'.
    assert (Hcons : ∀ v, GaugeSet g labels v ∈ e :: evs
                         ↔ e = GaugeSet g labels v ∨ GaugeSet g labels v ∈ evs).
    { intros v. rewrite elem_of_cons. split; intros [E|E]; auto. }
    destruct e as [| | | | | | | | | |g'|g' labels' v']; simpl;
      try (split; [intros [Hm|[v Hv]]; [auto | right; exists v; apply Hcons; auto]
                  | intros [Hm|[v Hv]]; [auto|];
                    apply Hcons in Hv as [Hv|Hv]; [discriminate | eauto]]).
    + destruct (He g' eq_refl).
    + destruct (decide (g' = g)) as [->|Hne].
      * destruct (decide (labels' = labels)) as [->|Hl].
        -- rewrite lookup_insert_eq. split; [|eauto].
           intros _. right. exists v'. apply list_elem_of_here.
        -- rewrite lookup_insert_ne by exact Hl.
           split; (intros [Hm|[v Hv]]; [auto|]).
           ++ right. exists v. apply list_elem_of_further, Hv.
           ++ apply Hcons in Hv as [Hv|Hv]; [congruence | eauto].
      * split; (intros [Hm|[v Hv]]; [auto|]).
        -- right. exists v. apply list_elem_of_further, Hv.
        -- apply Hcons in Hv as [Hv|Hv]; [congruence | eauto].
Qed.

(** *** The collector of runs is a collector *)

Lemma runs_invariant (en : bool) :
  invariant (collects_duration en) (sets_only (run_series en)).
Proof.
  intros st st' evs HI (Hc & _ & _ & _ & Hg & Hok).
  unfold collects_duration, enabled in *. rewrite Hc, Hg.
  destruct en.
  - apply andb_true_iff in HI as [-> Hp]. simpl.
    destruct (gauges st !! workflowRunDurationGauge) as [m|] eqn:E; [|discriminate].
    destruct (replay_present workflowRunDurationGauge evs (gauges st)) as [m' ->];
      [rewrite E; eauto | reflexivity].
  - rewrite replay_untouched; [exact HI|].
    eapply Forall_impl; [exact Hok|].
    intros e He. destruct e; simpl in *; try tauto.
    destruct He as [->|[_ ?]]; [discriminate | discriminate].
Qed.

Lemma usage_enabled_spec (st : State) : usage_enabled st = Some (enabled st, st, []).
Proof. reflexivity. Qed.

Lemma safe_when_enabled (en : bool) (m : M unit) :
  (en = true → safe (collects_duration en) (sets_only (run_series en)) m) →
  safe (collects_duration en) (sets_only (run_series en))
    (do enabled <- usage_enabled; if enabled then m else ret tt).
Proof.
  intros Hm st a st' evs HI H. unfold bind in H.
  rewrite usage_enabled_spec, HI in H. destruct en; cbn beta iota in H.
  - destruct (m st) as [[[b st2] e2]|] eqn:E; [|discriminate].
    injection H as <- <- <-. simpl. eapply Hm; eauto.
  - unfold ret in H. simpl in H. injection H as <- <- <-. apply effect_refl.
Qed.

Lemma safe_processRun (en : bool) (fields : list string)
    (repoFullName owner repoName : string) (run : option WorkflowRun.t) :
  safe (collects_duration en) (sets_only (run_series en))
    (processRun fields repoFullName owner repoName run).
Proof.
  pose proof (runs_invariant en) as Hinv.
  unfold processRun.
  destruct run as [run|]; [|apply safe_ret].
  destruct (WorkflowRun.ID run) as [id|]; [|apply safe_ret].
  apply safe_bind; [exact Hinv | apply safe_get | intros cache].
  apply safe_bind; [exact Hinv | apply safe_Set; left; reflexivity | intros _].
  apply safe_when_enabled. intros ->.
  apply safe_bind; [exact Hinv | apply safe_call | intros usage].
  apply safe_Set. right. auto.
Qed.

Lemma safe_runsOfRepo (en : bool) (fields : list string) (repoFullName : string) :
  safe (collects_duration en) (sets_only (run_series en)) (runsOfRepo fields repoFullName).
Proof.
  unfold runsOfRepo.
  pose proof (runs_invariant en) as Hinv.
  destruct (Split repoFullName slash) as [|owner [|repoName [|? ?]]];
    try (apply safe_emit; repeat constructor).
  apply safe_bind; [exact Hinv | | intros runs; apply safe_forM; [exact Hinv|];
                                   intros run; apply safe_processRun].
  unfold getWorkflowRunsToFetchFromRepo.
  apply safe_bind; [exact Hinv | apply safe_get | intros c; apply safe_paged].
Qed.

(** ** Reset, then set *)

Lemma state_eq (st st' : State) :
  cfg st = cfg st' → client st = client st' → repositories st = repositories st' →
  workflows st = workflows st' → gauges st = gauges st' → server st = server st' →
  st = st'.
Proof. destruct st, st'. simpl. intros. subst. reflexivity. Qed.

Lemma resets_lookup (rs : list gauge) (g : gauge) :
  ∀ gs : gmap gauge GaugeVec,
    foldl (fun gs g => <[g := ∅]> gs) gs rs !! g
    = if decide (g ∈ rs) then Some ∅ else gs !! g.
Proof.
  induction rs as [|r rs IH]; intros gs; simpl.
  - destruct (decide (g ∈ [])) as [H|_]; [destruct (not_elem_of_nil _ H) | reflexivity].
  - rewrite IH. destruct (decide (g ∈ rs)) as [Hin|Hnin].
    + destruct (decide (g ∈ r :: rs)) as [_|Hn]; [reflexivity|].
      destruct Hn. apply list_elem_of_further, Hin.
    + destruct (decide (r = g)) as [->|Hne].
      * rewrite lookup_insert_eq.
        destruct (decide (g ∈ g :: rs)) as [_|Hn]; [reflexivity|].
        destruct Hn. apply list_elem_of_here.
      * rewrite lookup_insert_ne by exact Hne.
        destruct (decide (g ∈ r :: rs)) as [Hin|_]; [|reflexivity].
        apply elem_of_cons in Hin as [->|Hin]; [congruence | contradiction].
Qed.

Lemma replay_resets (rs : list gauge) (gs : gmap gauge GaugeVec) :
  replay (map GaugeReset rs) gs = foldl (fun gs g => <[g := ∅]> gs) gs rs.
Proof.
  unfold replay. revert gs. induction rs as [|r rs IH]; intros gs; [reflexivity|].
  simpl. apply IH.
Qed.

Lemma collected_after_resets (g : gauge) (rs : list gauge) (e : list event) :
  collected g (map GaugeReset rs ++ e) = foldl (series_step g) ∅ e.
Proof.
  unfold collected. rewrite foldl_app. f_equal.
  induction rs as [|r rs IH]; [reflexivity|].
  simpl. destruct (decide (r = g)); exact IH.
Qed.

Lemma sets_only_no_reset (S : gauge → list string → Prop) (e : list event) :
  Forall (sets_only S) e → Forall (fun ev => ∀ g', ev ≠ GaugeReset g') e.
Proof.
  intros H. eapply Forall_impl; [exact H|].
  intros ev Hev g' ->. exact Hev.
Qed.

Lemma sets_only_untouched (S : gauge → list string → Prop) (g : gauge) (e : list event) :
  (∀ labels, ¬ S g labels) → Forall (sets_only S) e → Forall (fun ev => ¬ touches g ev) e.
Proof.
  intros HS H. eapply Forall_impl; [exact H|].
  intros ev Hev Ht. destruct ev; simpl in *; try contradiction.
  subst. exact (HS _ Hev).
Qed.

(** A pass that resets the gauges of [rs] and then only sets series of
    these gauges: run once more on the same fetch result it starts, after
    its resets, from the same state; and each of these gauges holds
    exactly the series the pass has set. *)
Lemma reset_then_collect (rs : list gauge) (I : State → Prop)
    (S : gauge → list string → Prop) (body : M unit) (st st1 : State) (e : list event) :
  (∀ g labels, S g labels → g ∈ rs) →
  safe I (sets_only S) body →
  I (reset_all rs st) →
  body (reset_all rs st) = Some (tt, st1, e) →
  reset_all rs (served_again st st1) = reset_all rs st ∧
  effect (sets_only S) (reset_all rs st) st1 e ∧
  ∀ g, g ∈ rs →
       gauges st1 !! g = Some (collected g (map GaugeReset rs ++ e)) ∧
       ∀ labels, is_Some (collected g (map GaugeReset rs ++ e) !! labels)
                 ↔ ∃ v, GaugeSet g labels v ∈ map GaugeReset rs ++ e.
Proof.
  intros Hsub Hsafe HI Hbody.
  pose proof (Hsafe _ _ _ _ HI Hbody) as Heff.
  destruct Heff as (Hc & Hcl & Hr & Hw & Hg & Hok).
  split; [|split; [unfold effect; auto 10|]].
  - apply state_eq; simpl; auto.
    apply map_eq. intros g. rewrite !resets_lookup.
    destruct (decide (g ∈ rs)) as [Hin|Hnin]; [reflexivity|].
    rewrite Hg. rewrite replay_untouched.
    + simpl. rewrite resets_lookup. destruct (decide (g ∈ rs)); [contradiction | reflexivity].
    + apply (sets_only_untouched S); [|exact Hok].
      intros labels HS. apply Hnin. eapply Hsub, HS.
  - intros g Hin.
    assert (Hcol : default ∅ (gauges st1 !! g) = foldl (series_step g) ∅ e).
    { rewrite Hg, replay_series. simpl. rewrite resets_lookup.
      destruct (decide (g ∈ rs)); [reflexivity | contradiction]. }
    split.
    + rewrite collected_after_resets, <- Hcol.
      destruct (replay_present g e (gauges (reset_all rs st))) as [m Hm].
      { simpl. rewrite resets_lookup. destruct (decide (g ∈ rs)); [eauto | contradiction]. }
      rewrite Hg, Hm. reflexivity.
    + intros labels. rewrite collected_after_resets.
      rewrite series_labels by (eapply sets_only_no_reset, Hok).
      rewrite lookup_empty. split.
      * intros [[x Hx]|[v Hv]]; [discriminate|].
        exists v. apply elem_of_app. right. exact Hv.
      * intros [v Hv]. right. exists v.
        apply elem_of_app in Hv as [Hv|Hv]; [|exact Hv].
        apply list_elem_of_fmap in Hv as (r & Hr' & _). discriminate.
Qed.

Lemma always_invariant (ok : event → Prop) : invariant always ok.
Proof. intros st st' evs _ _. exact Logic.I. Qed.

Lemma enabled_reset (st : State) : enabled (reset_all (run_gauges st) st) = enabled st.
Proof.
  unfold run_gauges, reset_all.
  destruct (enabled st) eqn:E; unfold enabled in *; simpl.
  - rewrite lookup_insert_eq.
    apply andb_true_iff in E as [-> _]. reflexivity.
  - rewrite lookup_insert_ne by discriminate. exact E.
Qed.

(** The first step of a computation that starts with a primitive. *)
Lemma bind_ret {A B : Type} (a : A) (k : A → M B) (st : State) : bind (ret a) k st = k a st.
Proof. unfold bind, ret. destruct (k a st) as [[[b st'] e]|]; reflexivity. Qed.

Lemma bind_get {A B : Type} (f : State → A) (k : A → M B) (st : State) :
  bind (get f) k st = k (f st) st.
Proof. unfold bind, get. destruct (k (f st) st) as [[[b st'] e]|]; reflexivity. Qed.

Lemma bind_usage_enabled {B : Type} (k : bool → M B) (st : State) :
  bind usage_enabled k st = k (enabled st) st.
Proof.
  unfold bind. rewrite usage_enabled_spec.
  destruct (k (enabled st) st) as [[[b st'] e]|]; reflexivity.
Qed.

Lemma bind_Reset {B : Type} (g : gauge) (k : unit → M B) (st : State) :
  bind (Reset g) k st
  = match k tt (set_gauges (<[g := ∅]> (gauges st)) st) with
    | Some (b, st', e) => Some (b, st', GaugeReset g :: e)
    | None => None
    end.
Proof. reflexivity. Qed.

Lemma runs_cycle_unfold (fields : list string) (st : State) :
  getWorkflowRunsFromGithub_cycle fields st
  = match collectRuns fields (reset_all (run_gauges st) st) with
    | Some (u, st1, e) => Some (u, st1, map GaugeReset (run_gauges st) ++ e)
    | None => None
    end.
Proof.
  unfold getWorkflowRunsFromGithub_cycle.
  change (do repos <- get repositories; forM repos (runsOfRepo fields))
    with (collectRuns fields).
  rewrite bind_Reset, bind_usage_enabled.
  assert (He : enabled (set_gauges (<[workflowRunStatusGauge:=∅]> (gauges st)) st) = enabled st).
  { unfold enabled. simpl. rewrite lookup_insert_ne by discriminate. reflexivity. }
  rewrite He. unfold run_gauges, reset_all. destruct (enabled st); simpl.
  - rewrite bind_Reset. simpl.
    destruct (collectRuns fields _) as [[[u st1] e]|]; reflexivity.
  - rewrite bind_ret.
    destruct (collectRuns fields _) as [[[u st1] e]|]; reflexivity.
Qed.

Lemma safe_collectRuns (en : bool) (fields : list string) :
  safe (collects_duration en) (sets_only (run_series en)) (collectRuns fields).
Proof.
  pose proof (runs_invariant en) as Hinv. unfold collectRuns.
  apply safe_bind; [exact Hinv | apply safe_get | intros repos].
  apply safe_forM; [exact Hinv | intros repo; apply safe_runsOfRepo].
Qed.

Lemma run_series_gauges (st : State) (g : gauge) (labels : list string) :
  run_series (enabled st) g labels → g ∈ run_gauges st.
Proof.
  unfold run_series, run_gauges. intros [->|[-> ->]].
  - apply list_elem_of_here.
  - apply list_elem_of_further, list_elem_of_here.
Qed.

Lemma runs_cycle_publishes (fields : list string) (st st1 : State) (evs : list event) :
  getWorkflowRunsFromGithub_cycle fields st = Some (tt, st1, evs) →
  getWorkflowRunsFromGithub_cycle fields (served_again st st1) = Some (tt, st1, evs) ∧
  ∀ g, g ∈ run_gauges st →
       gauges st1 !! g = Some (collected g evs) ∧
       ∀ labels, is_Some (collected g evs !! labels) ↔ ∃ v, GaugeSet g labels v ∈ evs.
Proof.
  intros H. rewrite runs_cycle_unfold in H.
  destruct (collectRuns fields (reset_all (run_gauges st) st)) as [[[u st1'] e]|] eqn:E;
    [|discriminate].
  destruct u. injection H as <- <-.
  destruct (reset_then_collect (run_gauges st) (collects_duration (enabled st))
              (run_series (enabled st)) (collectRuns fields) st st1' e
              (run_series_gauges st) (safe_collectRuns _ fields) (enabled_reset st) E)
    as (Hsame & Heff & Hser).
  split; [|exact Hser].
  assert (Hen : enabled (served_again st st1') = enabled st).
  { transitivity (enabled st1'); [reflexivity|].
    exact (runs_invariant _ _ _ _ (enabled_reset st) Heff). }
  assert (Hrg : run_gauges (served_again st st1') = run_gauges st).
  { unfold run_gauges. rewrite Hen. reflexivity. }
  rewrite runs_cycle_unfold, Hrg, Hsame, E. reflexivity.
Qed.

(** *** The collectors of runners are collectors *)

Lemma safe_publishRunner (g : gauge) (scope : string) (runner : option Runner.t) :
  safe always (sets_only (series_of g)) (publishRunner g scope runner).
Proof.
  destruct runner as [[[id|] [name|] [os|] [status|] [busy|]]|]; simpl;
    try (apply safe_emit; repeat constructor).
  apply safe_Set. reflexivity.
Qed.

Lemma safe_getAllRepoRunners (I : State → Prop) (S : gauge → list string → Prop)
    (owner repoName : string) :
  invariant I (sets_only S) → safe I (sets_only S) (getAllRepoRunners owner repoName).
Proof.
  intros Hinv. unfold getAllRepoRunners.
  apply safe_bind; [exact Hinv | apply safe_get | intros ok].
  destruct ok; simpl; [apply safe_paged | apply safe_ret].
Qed.

Lemma safe_runnersOfRepo (repoFullName : string) :
  safe always (sets_only (series_of runnersGauge)) (runnersOfRepo repoFullName).
Proof.
  pose proof (always_invariant (sets_only (series_of runnersGauge))) as Hinv.
  unfold runnersOfRepo.
  destruct (Split repoFullName slash) as [|owner [|repoName [|? ?]]];
    try (apply safe_emit; repeat constructor).
  apply safe_bind; [exact Hinv | apply safe_getAllRepoRunners, Hinv | intros runners].
  apply safe_forM; [exact Hinv | intros runner; apply safe_publishRunner].
Qed.

Lemma runners_cycle_unfold (st : State) :
  getRunnersFromGithub_cycle st
  = match repositories st with
    | [] => Some (tt, st, [])
    | _ :: _ =>
        match forM (repositories st) runnersOfRepo (reset_all [runnersGauge] st) with
        | Some (u, st1, e) => Some (u, st1, map GaugeReset [runnersGauge] ++ e)
        | None => None
        end
    end.
Proof.
  unfold getRunnersFromGithub_cycle. rewrite bind_get.
  destruct (repositories st) as [|r rs] eqn:E; [reflexivity|].
  rewrite bind_Reset. unfold reset_all. simpl. reflexivity.
Qed.

Lemma runners_cycle_publishes (st st1 : State) (evs : list event) :
  getRunnersFromGithub_cycle st = Some (tt, st1, evs) →
  getRunnersFromGithub_cycle (served_again st st1) = Some (tt, st1, evs) ∧
  (repositories st ≠ [] →
   gauges st1 !! runnersGauge = Some (collected runnersGauge evs) ∧
   ∀ labels, is_Some (collected runnersGauge evs !! labels)
             ↔ ∃ v, GaugeSet runnersGauge labels v ∈ evs).
Proof.
  intros H. rewrite runners_cycle_unfold in H.
  destruct (repositories st) as [|r rs] eqn:Hrepos.
  - injection H as <- <-. split; [|intros Hne; contradiction].
    rewrite runners_cycle_unfold. simpl. rewrite Hrepos.
    f_equal. f_equal. f_equal. apply state_eq; reflexivity.
  - rewrite <- Hrepos in H.
    destruct (forM (repositories st) runnersOfRepo (reset_all [runnersGauge] st))
      as [[[u st1'] e]|] eqn:E; [|discriminate].
    destruct u. injection H as <- <-.
    assert (Hsafe : safe always (sets_only (series_of runnersGauge))
                      (forM (repositories st) runnersOfRepo)).
    { apply safe_forM; [apply always_invariant | intros repo; apply safe_runnersOfRepo]. }
    destruct (reset_then_collect [runnersGauge] always (series_of runnersGauge)
                (forM (repositories st) runnersOfRepo) st st1' e) as (Hsame & Heff & Hser);
      [intros g labels ->; apply list_elem_of_here | exact Hsafe | exact Logic.I | exact E |].
    split; [|intros _; apply Hser, list_elem_of_here].
    rewrite runners_cycle_unfold.
    destruct Heff as (_ & _ & Hr & _).
    assert (Hr2 : repositories (served_again st st1') = repositories st) by exact Hr.
    rewrite Hr2, Hrepos. rewrite <- Hrepos, Hsame, E. reflexivity.
Qed.



(** ** An empty list of repositories *)

Lemma Split_cons (s : string) (sep : ascii) : ∃ w ws, Split s sep = w :: ws.
Proof.
  induction s as [|c s (w & ws & IH)]; simpl; [eauto|].
  destruct (Ascii.eqb c sep); [eauto|]. rewrite IH. eauto.
Qed.

Lemma runners_cycle_idle (st : State) :
  repositories st = [] → getRunnersFromGithub_cycle st = Some (tt, st, []).
Proof. intros H. rewrite runners_cycle_unfold, H. reflexivity. Qed.

Lemma runners_collector_loops (ticks : list tick) (st : State) :
  client st = true → is_Some (gauges st !! runnersGauge) →
  getRunnersFromGithub ticks st = ticker_loop ticks getRunnersFromGithub_cycle st.
Proof.
  intros Hc [m Hm]. unfold getRunnersFromGithub, gauge_created.
  rewrite bind_get, Hc. simpl. unfold bind at 1. unfold bind at 1. unfold get at 1.
  unfold ret at 1. rewrite Hm. simpl.
  destruct (ticker_loop ticks getRunnersFromGithub_cycle st) as [[[u st'] e]|]; reflexivity.
Qed.

Lemma runners_tick_idle (t : tick) (ticks : list tick) (st : State) :
  tick_repositories t = [] →
  ticker_loop (t :: ticks) getRunnersFromGithub_cycle st
  = ticker_loop ticks getRunnersFromGithub_cycle
      (set_server (tick_server t) (set_workflows (tick_workflows t) (set_repositories [] st))).
Proof.
  intros Ht. simpl. unfold arrive. unfold bind at 1. unfold put at 1. rewrite Ht.
  unfold bind at 1. rewrite runners_cycle_idle by reflexivity.
  destruct (ticker_loop ticks getRunnersFromGithub_cycle _) as [[[u st'] e]|]; reflexivity.
Qed.

Lemma runs_cycle_idle (fields : list string) (st : State) :
  repositories st = [] →
  getWorkflowRunsFromGithub_cycle fields st
  = Some (tt, reset_all (run_gauges st) st, map GaugeReset (run_gauges st)).
Proof.
  intros H. rewrite runs_cycle_unfold. unfold collectRuns. rewrite bind_get.
  assert (Hr : repositories (reset_all (run_gauges st) st) = []) by exact H.
  rewrite Hr. simpl. rewrite app_nil_r. reflexivity.
Qed.

Lemma runs_collector_returns (ticks : list tick) (st : State) :
  client st = true → repositories st = [] →
  getWorkflowRunsFromGithub ticks st = Some (tt, st, [LogWillNotRun]).
Proof.
  intros Hc Hr. unfold getWorkflowRunsFromGithub.
  rewrite bind_get, Hc. simpl. rewrite bind_get, Hr. reflexivity.
Qed.

Lemma runs_collector_loops (ticks : list tick) (st : State) :
  client st = true → repositories st ≠ [] →
  getWorkflowRunsFromGithub ticks st
  = ticker_loop ticks (getWorkflowRunsFromGithub_cycle (configuredFieldNames st)) st.
Proof.
  intros Hc Hr. unfold getWorkflowRunsFromGithub, configuredFieldNames.
  rewrite bind_get, Hc. simpl. rewrite bind_get.
  destruct (repositories st) as [|r rs]; [contradiction|].
  rewrite bind_get.
  destruct (Split_cons (config.WorkflowFields (cfg st)) comma) as (w & ws & ->).
  reflexivity.
Qed.

Lemma runs_tick_idle (fields : list string) (t : tick) (ticks : list tick)
    (st st' : State) (evs : list event) :
  tick_repositories t = [] →
  ticker_loop (t :: ticks) (getWorkflowRunsFromGithub_cycle fields) st = Some (tt, st', evs) →
  ∃ st1 evs',
    st1 = set_server (tick_server t) (set_workflows (tick_workflows t) (set_repositories [] st)) ∧
    ticker_loop ticks (getWorkflowRunsFromGithub_cycle fields)
      (reset_all (run_gauges st1) st1) = Some (tt, st', evs') ∧
    evs = map GaugeReset (run_gauges st1) ++ evs'.
Proof.
  intros Ht. simpl. unfold arrive. unfold bind at 1. unfold put at 1. rewrite Ht.
  unfold bind at 1. rewrite runs_cycle_idle by reflexivity.
  destruct (ticker_loop ticks (getWorkflowRunsFromGithub_cycle fields) _)
    as [[[u st2] e]|] eqn:E; [|discriminate].
  destruct u. intros H. injection H as Hst Hev. subst st'.
  eexists _, e. split; [reflexivity|]. split; [exact E|]. symmetry. exact Hev.
Qed.

Lemma runners_collector_resumes : resumes getRunnersFromGithub.
Proof.
  intros st t st' evs Hc Hg _ Ht H.
  rewrite runners_collector_loops in H by auto.
  simpl in H. unfold arrive in H. unfold bind at 1 in H. unfold put at 1 in H.
  unfold bind at 1 in H. rewrite runners_cycle_unfold in H. simpl in H.
  destruct (tick_repositories t) as [|r rs] eqn:E; [contradiction|].
  destruct (forM (r :: rs) runnersOfRepo _) as [[[u st1] e]|]; [|discriminate].
  simpl in H. injection H as _ <-.
  exists runnersGauge. apply list_elem_of_here.
Qed.




(** ** The cache of workflow definitions *)

Lemma fetchWorkflows_mapM (repos : list string) :
  ∀ (new : WorkflowCache) (st : State),
    fetchWorkflows repos new st
    = match mapM fetchOne repos st with
      | Some (fetched, st', evs) => Some (foldl keep new fetched, st', evs)
      | None => None
      end.
Proof.
  induction repos as [|repo repos IH]; intros new st; [reflexivity|].
  simpl fetchWorkflows. simpl mapM. unfold fetchOne at 1.
  destruct (Split repo slash) as [|owner [|repoName [|? ?]]];
    try (unfold bind, emit, ret; simpl; rewrite IH;
         destruct (mapM fetchOne repos st) as [[[fetched st'] evs]|]; simpl;
         rewrite ?app_nil_r; reflexivity).
  unfold bind, ret.
  destruct (getAllWorkflowsForRepo owner repoName st) as [[[wfs st1] e1]|]; [|reflexivity].
  simpl. rewrite IH.
  destruct (mapM fetchOne repos st1) as [[[fetched st'] evs]|]; simpl;
    rewrite ?app_nil_r; reflexivity.
Qed.

Lemma keep_entries (fetched : list (option (string * gmap Z (option Workflow.t)))) :
  ∀ (new : WorkflowCache) (repo : string) (m : gmap Z (option Workflow.t)),
    foldl keep new fetched !! repo = Some m →
    new !! repo = Some m ∨ (Some (repo, m) ∈ fetched ∧ m ≠ ∅).
Proof.
  induction fetched as [|p fetched IH]; intros new repo m H; [left; exact H|].
  simpl in H. apply IH in H as [H|[H Hm]].
  - destruct p as [[r wfs]|]; simpl in H; [|left; exact H].
    destruct (0 <? size wfs)%nat eqn:Hs; [|left; exact H].
    destruct (decide (r = repo)) as [->|Hne].
    + rewrite lookup_insert_eq in H. injection H as ->.
      right. split; [apply list_elem_of_here|].
      intros ->. rewrite map_size_empty in Hs. discriminate.
    + rewrite lookup_insert_ne in H by exact Hne. left. exact H.
  - right. split; [apply list_elem_of_further, H | exact Hm].
Qed.

Lemma keep_no_entry (fetched : list (option (string * gmap Z (option Workflow.t)))) :
  ∀ (new : WorkflowCache) (repo : string),
    new !! repo = None →
    (∀ m, Some (repo, m) ∈ fetched → m = ∅) →
    foldl keep new fetched !! repo = None.
Proof.
  intros new repo Hnew Hall.
  destruct (foldl keep new fetched !! repo) as [m|] eqn:E; [|reflexivity].
  apply keep_entries in E as [E|[E Hm]]; [congruence|].
  destruct (Hm (Hall m E)).
Qed.

(** What a rebuild of the cache leaves. *)
Lemma rebuildCache_entries (st st' : State) (evs : list event) :
  rebuildCache st = Some (tt, st', evs) →
  ∃ fetched st1,
    mapM fetchOne (repositories st) st = Some (fetched, st1, evs) ∧
    st' = set_workflows (foldl keep ∅ fetched) st1 ∧
    (∀ repo m, workflows st' !! repo = Some m → Some (repo, m) ∈ fetched ∧ m ≠ ∅) ∧
    (∀ repo, (∀ m, Some (repo, m) ∈ fetched → m = ∅) → workflows st' !! repo = None).
Proof.
  unfold rebuildCache. rewrite bind_get. unfold bind. rewrite fetchWorkflows_mapM.
  destruct (mapM fetchOne (repositories st) st) as [[[fetched st1] e]|]; [|discriminate].
  unfold put. intros H. injection H as <- <-.
  exists fetched, st1. rewrite app_nil_r.
  split; [reflexivity|]. split; [reflexivity|]. simpl. split.
  - intros repo m H. apply keep_entries in H as [H|H]; [|exact H].
    rewrite lookup_empty in H. discriminate.
  - intros repo Hall. apply keep_no_entry; [apply lookup_empty | exact Hall].
Qed.

Lemma fetcher_cycle_entries (st st' : State) (evs : list event) :
  client st = true →
  periodicGithubFetcher_cycle st = Some (tt, st', evs) →
  ∀ repo m, workflows st' !! repo = Some m → m ≠ ∅.
Proof.
  intros Hc H repo m Hm. unfold periodicGithubFetcher_cycle in H.
  rewrite bind_get, Hc in H. simpl in H. unfold bind in H.
  destruct (resolveRepositories st) as [[[resolved st1] e1]|] eqn:Hres; [|discriminate].
  destruct resolved.
  - destruct (rebuildCache st1) as [[[u st2] e2]|] eqn:Hreb; [|discriminate].
    destruct u. injection H as <- <-.
    destruct (rebuildCache_entries _ _ _ Hreb) as (fetched & st3 & _ & _ & Hent & _).
    apply (Hent repo m Hm).
  - unfold ret in H. injection H as <- <-.
    unfold resolveRepositories, bind in Hres.
    destruct (reposToProcess st) as [[[[repos|] st2] e2]|]; simpl in Hres; try discriminate.
    injection Hres as <- <-. simpl in Hm. rewrite lookup_empty in Hm. discriminate.
Qed.

(** A fetch of definitions that fails on its first page returns none. *)
Lemma getAllWorkflowsForRepo_failed (owner repoName msg : string)
    (rest : list (reply (list (option Workflow.t)))) (st : State) :
  client st = true →
  workflow_pages (server st) = Failed (OtherError msg) :: rest →
  getAllWorkflowsForRepo owner repoName st
  = Some (∅, set_server (set_workflow_pages rest (server st)) st,
          [Request (ListWorkflows owner repoName) 0;
           LogError (ListWorkflows owner repoName) msg]).
Proof.
  intros Hc Hs. unfold getAllWorkflowsForRepo. rewrite bind_get, Hc. simpl.
  unfold paged. rewrite Hs. reflexivity.
Qed.

(** *** The collector of billable usage is a collector *)

Lemma caches_invariant (cache : WorkflowCache) (ok : event → Prop) :
  invariant (caches cache) ok.
Proof.
  intros st st' evs HI (_ & _ & _ & Hw & _). unfold caches in *. congruence.
Qed.

Lemma safe_forM_in {A : Type} (I : State → Prop) (S : gauge → list string → Prop)
    (l : list A) (body : A → M unit) :
  invariant I (sets_only S) →
  (∀ x, x ∈ l → safe I (sets_only S) (body x)) → safe I (sets_only S) (forM l body).
Proof.
  intros Hinv. induction l as [|x l IH]; intros Hb; simpl.
  - apply safe_ret.
  - apply safe_bind; [exact Hinv | apply Hb, list_elem_of_here | intros _].
    apply IH. intros y Hy. apply Hb, list_elem_of_further, Hy.
Qed.

Section BillingFacts.
Variable ToUpper : string → string.
Variable cache : WorkflowCache.

Lemma safe_attempts (attempts : nat) (ep : endpoint) :
  ∀ last, safe (caches cache) (sets_only (bill_series cache))
            (GetWorkflowUsage_attempts attempts ep last).
Proof.
  pose proof (caches_invariant cache (sets_only (bill_series cache))) as Hinv.
  induction attempts as [|k IH]; intros last; simpl; [apply safe_ret|].
  apply safe_bind; [exact Hinv | apply safe_call | intros r].
  destruct r as [[reset|msg]|body n]; [| |apply safe_ret];
    (apply safe_bind; [exact Hinv | apply safe_emit; repeat constructor | intros _; apply IH]).
Qed.

Lemma safe_publishBill (repoFullName : string) (id : Z) (nodeID name state : string)
    (entry : string * option WorkflowBill.t) :
  is_Some (cache !! repoFullName) →
  safe (caches cache) (sets_only (bill_series cache))
    (publishBill ToUpper repoFullName id nodeID name state entry).
Proof.
  intros Hin. destruct entry as [osType [[[totalMs|]]|]]; simpl; try apply safe_ret.
  apply safe_Set. split; [reflexivity|]. exists repoFullName. split; [reflexivity | exact Hin].
Qed.

Lemma safe_billWorkflow (repoFullName owner repoName : string)
    (entry : Z * option Workflow.t) :
  is_Some (cache !! repoFullName) →
  safe (caches cache) (sets_only (bill_series cache))
    (billWorkflow ToUpper repoFullName owner repoName entry).
Proof.
  pose proof (caches_invariant cache (sets_only (bill_series cache))) as Hinv.
  intros Hin. unfold billWorkflow.
  destruct entry as [workflowID [[[id|] [nodeID|] [name|] [state|]]|]]; cbv beta iota;
    try (apply safe_emit; repeat constructor).
  apply safe_bind; [exact Hinv | apply safe_attempts | intros r].
  destruct r as [e|[usageData|] n]; try (apply safe_emit; repeat constructor).
  destruct (WorkflowUsage.Billable usageData) as [[billMap|]|]; try apply safe_ret.
  apply safe_forM; [exact Hinv | intros entry; apply safe_publishBill, Hin].
Qed.

Lemma safe_billRepo (entry : string * gmap Z (option Workflow.t)) :
  entry ∈ map_to_list cache →
  safe (caches cache) (sets_only (bill_series cache)) (billRepo ToUpper entry).
Proof.
  pose proof (caches_invariant cache (sets_only (bill_series cache))) as Hinv.
  destruct entry as [repoFullName m]. intros Hin. apply elem_of_map_to_list in Hin.
  unfold billRepo.
  destruct (Split repoFullName slash) as [|owner [|repoName [|? ?]]];
    try (apply safe_emit; repeat constructor).
  apply safe_forM; [exact Hinv | intros wf; apply safe_billWorkflow; eauto].
Qed.
End BillingFacts.

Lemma billing_cycle_unfold (ToUpper : string → string) (st : State) :
  getBillableFromGithub_cycle ToUpper st
  = if (size (workflows st) =? 0)%nat || (length (repositories st) =? 0)%nat
    then Some (tt, st, [])
    else match forM (map_to_list (workflows st)) (billRepo ToUpper)
                 (reset_all [workflowBillGauge] st) with
         | Some (u, st1, e) => Some (u, st1, map GaugeReset [workflowBillGauge] ++ e)
         | None => None
         end.
Proof.
  unfold getBillableFromGithub_cycle. rewrite !bind_get.
  destruct ((size (workflows st) =? 0)%nat || (length (repositories st) =? 0)%nat);
    [reflexivity|].
  rewrite bind_Reset. reflexivity.
Qed.

(** A pass of the billing collector sets no series for a repository that
    has no entry in the cache, and leaves none in its gauge when it runs. *)
Lemma billing_skips_uncached (ToUpper : string → string) (repo : string)
    (st st' : State) (evs : list event) :
  workflows st !! repo = None →
  getBillableFromGithub_cycle ToUpper st = Some (tt, st', evs) →
  (∀ g labels v, GaugeSet g labels v ∈ evs → g = workflowBillGauge ∧ head labels ≠ Some repo) ∧
  (size (workflows st) ≠ 0%nat → repositories st ≠ [] →
   ∃ series, gauges st' !! workflowBillGauge = Some series ∧
             ∀ labels, is_Some (series !! labels) → head labels ≠ Some repo).
Proof.
  intros Hmiss H. rewrite billing_cycle_unfold in H.
  destruct ((size (workflows st) =? 0)%nat || (length (repositories st) =? 0)%nat) eqn:Hskip.
  - injection H as <- <-. split.
    + intros g labels v Hin. destruct (not_elem_of_nil _ Hin).
    + intros Hs Hr. apply orb_true_iff in Hskip as [Hz|Hz]; apply Nat.eqb_eq in Hz.
      * contradiction.
      * destruct (repositories st); [contradiction | discriminate].
  - destruct (forM (map_to_list (workflows st)) (billRepo ToUpper)
                (reset_all [workflowBillGauge] st)) as [[[u st1] e]|] eqn:E; [|discriminate].
    destruct u. injection H as <- <-.
    destruct (reset_then_collect [workflowBillGauge] (caches (workflows st))
                (bill_series (workflows st))
                (forM (map_to_list (workflows st)) (billRepo ToUpper)) st st1 e)
      as (_ & Heff & Hser).
    + intros g labels [-> _]. apply list_elem_of_here.
    + apply safe_forM_in; [apply caches_invariant|].
      intros entry Hin. apply safe_billRepo, Hin.
    + reflexivity.
    + exact E.
    + assert (Hsets : ∀ g labels v,
                 GaugeSet g labels v ∈ map GaugeReset [workflowBillGauge] ++ e →
                 g = workflowBillGauge ∧ head labels ≠ Some repo).
      { intros g labels v Hin. simpl in Hin.
        apply elem_of_cons in Hin as [Hin|Hin]; [discriminate|].
        destruct Heff as (_ & _ & _ & _ & _ & Hok).
        rewrite Forall_forall in Hok. specialize (Hok _ Hin). simpl in Hok.
        destruct Hok as [-> (r & Hr & [m Hm])]. split; [reflexivity|].
        rewrite Hr. intros [= ->]. congruence. }
      split; [exact Hsets|].
      intros _ _. destruct (Hser workflowBillGauge (list_elem_of_here _ _)) as [Hg Hlab].
      eexists. split; [exact Hg|].
      intros labels Hl. apply Hlab in Hl as [v Hv]. apply (Hsets _ _ _ Hv).
Qed.

(** C10: what a rebuild of the cache leaves has an entry for a repository
    only for a fetch of this refresh that returned at least one
    definition for it, and the entry is what was fetched; a repository
    whose fetches returned none (a fetch that fails on its first page
    returns none) has no entry, and so has one that was not fetched.
    After a pass of the fetcher no entry of the cache is empty. For a
    repository without an entry, every run resolves the field
    "workflow_name" to the sentinel, and a pass of the billing collector
    sets no series for it and leaves none in its gauge. *)
Theorem cache_entries :
  (∀ st st' evs,
     rebuildCache st = Some (tt, st', evs) →
     ∃ fetched st1,
       mapM fetchOne (repositories st) st = Some (fetched, st1, evs) ∧
       st' = set_workflows (foldl keep ∅ fetched) st1 ∧
       (∀ repo m, workflows st' !! repo = Some m → Some (repo, m) ∈ fetched ∧ m ≠ ∅) ∧
       (∀ repo, (∀ m, Some (repo, m) ∈ fetched → m = ∅) → workflows st' !! repo = None)) ∧
  (∀ owner repoName msg rest st,
     client st = true →
     workflow_pages (server st) = Failed (OtherError msg) :: rest →
     getAllWorkflowsForRepo owner repoName st
     = Some (∅, set_server (set_workflow_pages rest (server st)) st,
             [Request (ListWorkflows owner repoName) 0;
              LogError (ListWorkflows owner repoName) msg])) ∧
  (∀ st st' evs,
     client st = true →
     periodicGithubFetcher_cycle st = Some (tt, st', evs) →
     ∀ repo m, workflows st' !! repo = Some m → m ≠ ∅) ∧
  (∀ st repo,
     workflows st !! repo = None →
     (∀ fields run i,
        fields !! i = Some "workflow_name" →
        labelValues (workflows st) fields repo run !! i = Some "unknown_workflow_name") ∧
     (∀ ToUpper st' evs,
        getBillableFromGithub_cycle ToUpper st = Some (tt, st', evs) →
        (∀ g labels v, GaugeSet g labels v ∈ evs →
                       g = workflowBillGauge ∧ head labels ≠ Some repo) ∧
        (size (workflows st) ≠ 0%nat → repositories st ≠ [] →
         ∃ series, gauges st' !! workflowBillGauge = Some series ∧
                   ∀ labels, is_Some (series !! labels) → head labels ≠ Some repo))).
Proof.
  split; [exact rebuildCache_entries|].
  split; [exact getAllWorkflowsForRepo_failed|].
  split; [exact fetcher_cycle_entries|].
  intros st repo Hmiss. split.
  - intros fields run i. apply labelValues_sentinel.
    unfold cache_miss. rewrite Hmiss. reflexivity.
  - intros ToUpper st' evs. apply billing_skips_uncached, Hmiss.
Qed.

Lemma cache_entries_example :
  ∃ st' evs,
    periodicGithubFetcher_cycle two_repositories = Some (tt, st', evs) ∧
    is_Some (workflows st' !! "o/r") ∧
    workflows st' !! "o/s" = None ∧
    labelValues (workflows st') default_field_names "o/s" (bare_run 1) !! 2%nat
    = Some "unknown_workflow_name" ∧
    option_map snd (getBillableFromGithub_cycle (fun s => s) st')
    = Some [GaugeReset workflowBillGauge;
            Request (GetWorkflowUsageByID "o" "r" 5) 0;
            GaugeSet workflowBillGauge ["o/r"; "5"; "W_5"; "CI"; "active"; "ubuntu"]
              (Qmake 90000 1000)].
Proof.
  assert (E : ∃ st' evs,
             periodicGithubFetcher_cycle two_repositories = Some (tt, st', evs) ∧
             is_Some (workflows st' !! "o/r") ∧
             workflows st' !! "o/s" = None ∧
             option_map snd (getBillableFromGithub_cycle (fun s => s) st')
             = Some [GaugeReset workflowBillGauge;
                     Request (GetWorkflowUsageByID "o" "r" 5) 0;
                     GaugeSet workflowBillGauge ["o/r"; "5"; "W_5"; "CI"; "active"; "ubuntu"]
                       (Qmake 90000 1000)]).
  { eexists _, _. split; [vm_compute; reflexivity|].
    split; [vm_compute; eauto|]. split; vm_compute; reflexivity. }
  destruct E as (st' & evs & E & Hr & Hs & Hbill).
  exists st', evs. split; [exact E|]. split; [exact Hr|]. split; [exact Hs|].
  split; [|exact Hbill].
  apply (proj1 (proj2 (proj2 (proj2 cache_entries)) st' "o/s" Hs)). reflexivity.
Defined.

(** * Further properties of the code *)

(** ** The numeric status, read backwards *)

(** X1: the codes of the collector of runs tell success and failure apart
    from everything else: the code is 1 only for a completed run whose
    conclusion is "success", 0 only for a completed run whose conclusion
    is "failure", and it is always one of 0..10 and 99. *)
Theorem numericStatus_codes (status conclusion : string) :
  (numericStatus status conclusion = 1 ↔ status = "completed" ∧ conclusion = "success") ∧
  (numericStatus status conclusion = 0 ↔ status = "completed" ∧ conclusion = "failure") ∧
  numericStatus status conclusion ∈ [0; 1; 2; 3; 4; 5; 6; 7; 8; 9; 10; 99].
Proof.
  pose proof (numericStatus_in_table status conclusion) as Ht.
  split; [|split].
  - split.
    + intros H. rewrite H in Ht. inversion Ht; auto.
    + intros [-> ->]. reflexivity.
  - split.
    + intros H. rewrite H in Ht. inversion Ht; auto.
    + intros [-> ->]. reflexivity.
  - inversion Ht; repeat first [ apply list_elem_of_here | apply list_elem_of_further ].
Qed.

(** ** The lookback window and the refresh interval *)





(** ** Field names and titles *)

Lemma getFieldValue_unknown (cache : WorkflowCache) (repoFullName : string)
    (run : WorkflowRun.t) (fieldName : string) :
  fieldName ∉ direct_fields → getFieldValue cache repoFullName run fieldName = "".
Proof.
  intros H. unfold getFieldValue, direct_fields in *.
  rewrite !(eqb_false_of_not_elem fieldName _ _ H); [reflexivity|..];
    repeat first [ apply list_elem_of_here | apply list_elem_of_further ].
Qed.

(** X4: a field name the collector does not know gives the empty label,
    never an error: [getFieldValue] returns the empty string for every
    name outside its twenty, and in a label vector the value is empty at
    every position whose name is neither one of these nor one of the two
    derived fields (a name with a space around it is such a name). *)
Theorem unknown_fields_are_empty (cache : WorkflowCache) (repoFullName : string)
    (run : WorkflowRun.t) :
  (∀ fieldName, fieldName ∉ direct_fields →
                getFieldValue cache repoFullName run fieldName = "") ∧
  (∀ fields (i : nat) fieldName,
     fields !! i = Some fieldName →
     fieldName ∉ direct_fields ++ derived_fields →
     labelValues cache fields repoFullName run !! i = Some "").
Proof.
  split; [intros fieldName; apply getFieldValue_unknown|].
  intros fields i fieldName Hi Hn. apply not_elem_of_app in Hn as [Hd Hv].
  unfold labelValues. rewrite list_lookup_fmap, Hi. simpl. f_equal.
  unfold derived_fields in Hv.
  rewrite !(eqb_false_of_not_elem fieldName _ _ Hv);
    [apply getFieldValue_unknown, Hd|..];
    repeat first [ apply list_elem_of_here | apply list_elem_of_further ].
Qed.

Lemma unknown_fields_example :
  labelValues example_cache (Split "repo, workflow_name,branch" comma) "o/r" (bare_run 1)
    !! 1%nat = Some "" ∧
  labelValues example_cache (Split "repo, workflow_name,branch" comma) "o/r" (bare_run 1)
    !! 2%nat = Some "".
Proof.
  split.
  - apply (proj2 (unknown_fields_are_empty example_cache "o/r" (bare_run 1))
             (Split "repo, workflow_name,branch" comma) 1%nat " workflow_name" eq_refl).
    vm_compute. repeat (apply not_elem_of_cons; split; [discriminate|]). apply not_elem_of_nil.
  - apply (proj2 (unknown_fields_are_empty example_cache "o/r" (bare_run 1))
             (Split "repo, workflow_name,branch" comma) 2%nat "branch" eq_refl).
    vm_compute. repeat (apply not_elem_of_cons; split; [discriminate|]). apply not_elem_of_nil.
Defined.

Lemma event_test (run : WorkflowRun.t) :
  (getSafeString (WorkflowRun.Event run) == "pull_request") = true
  ↔ WorkflowRun.Event run = Some "pull_request".
Proof.
  rewrite String.eqb_eq. destruct (WorkflowRun.Event run) as [e|]; simpl.
  - split; [intros ->; reflexivity | intros [= ->]; reflexivity].
  - split; discriminate.
Qed.

(** The title when the pull request gives none. *)
Lemma derivedCommitPrTitle_fallback (run : WorkflowRun.t) :
  ¬ titled_by_pr run →
  derivedCommitPrTitle run
  = match display_title run with
    | Some d => d
    | None => match commit_message run with
              | Some m => TrimSpace (first_line m)
              | None => ""
              end
    end.
Proof.
  intros Hn. unfold derivedCommitPrTitle, display_title, commit_message.
  assert (Hfb : ∀ x : string,
            (if getSafeString (WorkflowRun.Event run) == "pull_request"
             then match WorkflowRun.PullRequests run with
                  | Some pr :: _ => match PullRequest.Title pr with
                                    | Some title => title
                                    | None => x
                                    end
                  | _ => x
                  end
             else x) = x).
  { intros x.
    destruct (getSafeString (WorkflowRun.Event run) == "pull_request") eqn:E; [|reflexivity].
    apply event_test in E.
    destruct (WorkflowRun.PullRequests run) as [|[pr|] prs] eqn:Hp; try reflexivity.
    destruct (PullRequest.Title pr) as [title|] eqn:Ht; [|reflexivity].
    exfalso. apply Hn. split; [exact E|].
    unfold pr_title. rewrite Hp. simpl. rewrite Ht. eauto. }
  rewrite Hfb.
  destruct (WorkflowRun.DisplayTitle run) as [[|c r]|];
    destruct (WorkflowRun.HeadCommit run) as [[[m|]]|]; reflexivity.
Qed.

(** X5: the title of a run is the title of its pull request when the
    event is "pull_request" and the (first) pull request has a title;
    otherwise its display title when it has one that is not empty;
    otherwise the first line of the message of its head commit, trimmed;
    otherwise the empty string. *)
Theorem derivedCommitPrTitle_spec (run : WorkflowRun.t) :
  (∀ title, WorkflowRun.Event run = Some "pull_request" →
            pr_title run = Some title →
            derivedCommitPrTitle run = title) ∧
  (∀ d, ¬ titled_by_pr run → display_title run = Some d → derivedCommitPrTitle run = d) ∧
  (∀ m, ¬ titled_by_pr run → display_title run = None → commit_message run = Some m →
        derivedCommitPrTitle run = TrimSpace (first_line m)) ∧
  (¬ titled_by_pr run → display_title run = None → commit_message run = None →
   derivedCommitPrTitle run = "").
Proof.
  split; [|split; [|split]].
  - intros title He Ht. unfold derivedCommitPrTitle, pr_title in *.
    apply event_test in He. rewrite He.
    destruct (WorkflowRun.PullRequests run) as [|[pr|] prs]; simpl in Ht; try discriminate.
    rewrite Ht. reflexivity.
  - intros d Hn Hd. rewrite derivedCommitPrTitle_fallback, Hd by exact Hn. reflexivity.
  - intros m Hn Hd Hm. rewrite derivedCommitPrTitle_fallback, Hd, Hm by exact Hn. reflexivity.
  - intros Hn Hd Hm. rewrite derivedCommitPrTitle_fallback, Hd, Hm by exact Hn. reflexivity.
Qed.

Lemma derivedCommitPrTitle_example :
  derivedCommitPrTitle pull_request_run = "Add x" ∧
  derivedCommitPrTitle
    (with_titles "push" (Some "") [] (Some two_line_message) (bare_run 4))
  = "Fix the build".
Proof.
  split.
  - apply (proj1 (derivedCommitPrTitle_spec pull_request_run)); reflexivity.
  - rewrite (proj1 (proj2 (proj2 (derivedCommitPrTitle_spec _))) two_line_message);
      [vm_compute; reflexivity | | reflexivity | reflexivity].
    intros [H _]. discriminate.
Defined.

(** ** Durations *)

(** X6: without a value from the usage endpoint the duration of a run is
    the sentinel -1 or a number of milliseconds that is not negative (and
    at most that of the longest [time.Duration]): a computed duration
    cannot be mistaken for the sentinel. *)
Theorem durationMs_fallback_range (usage : reply WorkflowRunUsage.t) (status : string)
    (run : WorkflowRun.t) :
  usage_duration usage = None →
  durationMs usage status run = -1 ∨
  0 ≤ durationMs usage status run ≤ maxMilliseconds.
Proof.
  intros Hu.
  assert (Hfb : durationMs usage status run =
                if (status == "completed") || (status == "stale") then
                  match WorkflowRun.RunStartedAt run, WorkflowRun.UpdatedAt run with
                  | Some started, Some updated =>
                      if negb (IsZero started) && negb (IsZero updated) then
                        if After updated started then Milliseconds (Sub updated started) else -1
                      else -1
                  | _, _ => -1
                  end
                else -1).
  { unfold durationMs.
    destruct usage as [e|[u|] n]; try reflexivity.
    simpl in Hu. rewrite Hu. reflexivity. }
  rewrite Hfb.
  destruct ((status == "completed") || (status == "stale")); [|left; reflexivity].
  destruct (WorkflowRun.RunStartedAt run) as [started|]; [|left; reflexivity].
  destruct (WorkflowRun.UpdatedAt run) as [updated|]; [|left; reflexivity].
  destruct (negb (IsZero started) && negb (IsZero updated)); [|left; reflexivity].
  unfold After. destruct (Z.ltb_spec started updated) as [Hlt|]; [|left; reflexivity].
  right. unfold Milliseconds, Sub, maxDuration, minDuration, maxMilliseconds.
  change (2 ^ 63) with 9223372036854775808. cbv zeta.
  destruct (Z.ltb_spec (9223372036854775808 - 1) (updated - started)).
  - rewrite Z.quot_div_nonneg by lia. split; [apply Z.div_pos; lia|].
    assert ((9223372036854775808 - 1) `div` 1000000 < 9223372036855)
      by (apply Z.div_lt_upper_bound; lia).
    lia.
  - destruct (Z.ltb_spec (updated - started) (Z.opp 9223372036854775808)); [lia|].
    rewrite Z.quot_div_nonneg by lia. split; [apply Z.div_pos; lia|].
    assert ((updated - started) `div` 1000000 < 9223372036855)
      by (apply Z.div_lt_upper_bound; lia).
    lia.
Qed.

Lemma durationMs_fallback_range_example :
  durationMs (Failed (RateLimitError 5)) "completed"
    (with_times "completed" (Some T0) (Some (T0 + 999999)) (bare_run 7)) = -1 ∨
  0 ≤ durationMs (Failed (RateLimitError 5)) "completed"
        (with_times "completed" (Some T0) (Some (T0 + 999999)) (bare_run 7))
    ≤ maxMilliseconds.
Proof.
  apply (durationMs_fallback_range (Failed (RateLimitError 5)) "completed"
           (with_times "completed" (Some T0) (Some (T0 + 999999)) (bare_run 7))).
  reflexivity.
Defined.

(** ** Repository names *)

Lemma Split_whole (sep : ascii) (w : string) :
  has_char sep w = false → Split w sep = [w].
Proof.
  induction w as [|c w IH]; simpl; [reflexivity|].
  intros H. apply orb_false_iff in H as [Hc Hw]. rewrite Hc, IH by exact Hw. reflexivity.
Qed.

Lemma Split_append (sep : ascii) (w rest : string) :
  has_char sep w = false →
  Split (String.append w (String sep rest)) sep = w :: Split rest sep.
Proof.
  induction w as [|c w IH]; simpl; intros H.
  - rewrite Ascii.eqb_refl. reflexivity.
  - apply orb_false_iff in H as [Hc Hw]. rewrite Hc, IH by exact Hw. reflexivity.
Qed.

Lemma Split_head (sep : ascii) (s : string) :
  ∀ w ws,
    Split s sep = w :: ws →
    has_char sep w = false ∧
    ((ws = [] ∧ s = w) ∨
     ∃ rest, s = String.append w (String sep rest) ∧ Split rest sep = ws).
Proof.
  induction s as [|c s IH]; intros w ws H; simpl in H.
  - injection H as <- <-. split; [reflexivity|]. left. auto.
  - destruct (Ascii.eqb c sep) eqn:Hc.
    + injection H as <- <-. split; [reflexivity|]. right.
      apply Ascii.eqb_eq in Hc. subst c. exists s. auto.
    + destruct (Split s sep) as [|w' ws'] eqn:Hs.
      * injection H as <- <-. destruct s; simpl in Hs; [discriminate|].
        destruct (Ascii.eqb a sep); [discriminate|].
        destruct (Split s sep); discriminate.
      * injection H as <- <-.
        destruct (IH w' ws' eq_refl) as [Hw [[-> ->]|(rest & -> & Hr)]].
        -- split; [simpl; rewrite Hc, Hw; reflexivity|]. left. auto.
        -- split; [simpl; rewrite Hc, Hw; reflexivity|]. right. exists rest. auto.
Qed.

Lemma Split_length (sep : ascii) (s : string) :
  length (Split s sep) = Datatypes.S (count_char sep s).
Proof.
  induction s as [|c s IH]; simpl; [reflexivity|].
  destruct (Ascii.eqb c sep); simpl.
  - rewrite IH. reflexivity.
  - destruct (Split s sep) as [|w ws]; simpl in *; [discriminate | exact IH].
Qed.

(** X7: a repository name is taken apart into an owner and a name exactly
    when it is the owner, a slash and the name, with no slash in either:
    the two parts joined give the name back, so the requests are for the
    repository that was named. A name that has not exactly one slash is
    logged and skipped by the collector of runs, by the collector of
    runners and by the fetch of the definitions, none of which makes a
    request for it. *)
Theorem Split_owner_repo (repoFullName : string) :
  (∀ owner repoName,
     Split repoFullName slash = [owner; repoName]
     ↔ repoFullName = String.append owner (String slash repoName) ∧
       has_char slash owner = false ∧ has_char slash repoName = false) ∧
  (count_char slash repoFullName ≠ 1%nat →
   ∀ fields st,
     runsOfRepo fields repoFullName st = Some (tt, st, [LogInvalidRepo repoFullName]) ∧
     runnersOfRepo repoFullName st = Some (tt, st, [LogInvalidRepo repoFullName]) ∧
     fetchOne repoFullName st = Some (None, st, [LogInvalidRepo repoFullName])).
Proof.
  split.
  - intros owner repoName. split.
    + intros H. apply Split_head in H as [Ho [[H _]|(rest & -> & Hr)]]; [discriminate|].
      apply Split_head in Hr as [Hr [[_ ->]|(rest' & _ & Hr')]].
      * auto.
      * destruct rest'; simpl in Hr'; [discriminate|].
        destruct (Ascii.eqb a slash); [discriminate|].
        destruct (Split rest' slash); discriminate.
    + intros (-> & Ho & Hr). rewrite Split_append, Split_whole by assumption. reflexivity.
  - intros Hc fields st. pose proof (Split_length slash repoFullName) as Hl.
    unfold runsOfRepo, runnersOfRepo, fetchOne.
    destruct (Split repoFullName slash) as [|a [|b [|c l]]]; simpl in Hl;
      try (repeat split; reflexivity).
    exfalso. apply Hc. lia.
Qed.

Lemma Split_owner_repo_example :
  Split "spendesk/github-actions-exporter" slash = ["spendesk"; "github-actions-exporter"] ∧
  runsOfRepo default_field_names "a/b/c" before_first_fetch
  = Some (tt, before_first_fetch, [LogInvalidRepo "a/b/c"]).
Proof.
  split.
  - apply (proj2 (proj1 (Split_owner_repo "spendesk/github-actions-exporter")
                    "spendesk" "github-actions-exporter")).
    split; [reflexivity|]. split; reflexivity.
  - assert (Hc : count_char slash "a/b/c" ≠ 1%nat) by (vm_compute; discriminate).
    exact (proj1 (proj2 (Split_owner_repo "a/b/c") Hc default_field_names before_first_fetch)).
Defined.

(** ** The title taken from a commit message *)

Lemma strip_bytes_app (p : list nat) :
  ∀ bs r, strip_bytes p bs = Some r → bs = p ++ r.
Proof.
  induction p as [|a p IH]; intros bs r H; simpl in H.
  - injection H as ->. reflexivity.
  - destruct bs as [|b bs]; [discriminate|].
    destruct (Nat.eqb_spec a b) as [->|]; [|discriminate].
    rewrite (IH _ _ H). reflexivity.
Qed.

Lemma strip_bytes_more (p : list nat) :
  ∀ bs r x, strip_bytes p bs = Some r → strip_bytes p (bs ++ x) = Some (r ++ x).
Proof.
  induction p as [|a p IH]; intros bs r x H; simpl in H.
  - injection H as ->. reflexivity.
  - destruct bs as [|b bs]; [discriminate|]. simpl.
    destruct (Nat.eqb a b); [|discriminate]. apply IH, H.
Qed.

Lemma strip_space_app (pats : list (list nat)) (bs r : list nat) :
  strip_space pats bs = Some r → ∃ p, p ∈ pats ∧ bs = p ++ r.
Proof.
  induction pats as [|p pats IH]; simpl; [discriminate|].
  destruct (strip_bytes p bs) as [r'|] eqn:E.
  - intros [= <-]. exists p. split; [apply list_elem_of_here | apply strip_bytes_app, E].
  - intros H. destruct (IH H) as (q & Hq & ->). exists q.
    split; [apply list_elem_of_further, Hq | reflexivity].
Qed.

Lemma strip_space_more (pats : list (list nat)) (bs x : list nat) :
  is_Some (strip_space pats bs) → is_Some (strip_space pats (bs ++ x)).
Proof.
  induction pats as [|p pats IH]; simpl; [intros [? H]; discriminate|].
  destruct (strip_bytes p bs) as [r|] eqn:E.
  - intros _. rewrite (strip_bytes_more p bs r x E). eauto.
  - intros H. destruct (strip_bytes p (bs ++ x)); [eauto | apply IH, H].
Qed.

Lemma trim_left_suffix (pats : list (list nat)) (fuel : nat) :
  ∀ bs, ∃ pre, bs = pre ++ trim_left fuel pats bs.
Proof.
  induction fuel as [|k IH]; intros bs; simpl; [exists []; reflexivity|].
  destruct (strip_space pats bs) as [r|] eqn:E; [|exists []; reflexivity].
  destruct (strip_space_app _ _ _ E) as (p & _ & ->).
  destruct (IH r) as (pre & Hpre). exists (p ++ pre).
  rewrite <- app_assoc, <- Hpre. reflexivity.
Qed.

Lemma trim_left_done (pats : list (list nat)) :
  Forall (fun p => p ≠ []) pats →
  ∀ fuel bs, (length bs ≤ fuel)%nat → strip_space pats (trim_left fuel pats bs) = None.
Proof.
  intros Hne. induction fuel as [|k IH]; intros bs Hl; simpl.
  - destruct bs; [|simpl in Hl; lia].
    destruct (strip_space pats []) as [r|] eqn:E; [|reflexivity].
    destruct (strip_space_app _ _ _ E) as (p & Hp & Heq).
    rewrite Forall_forall in Hne. specialize (Hne p Hp).
    destruct p; [contradiction | discriminate].
  - destruct (strip_space pats bs) as [r|] eqn:E; [|exact E].
    apply IH. destruct (strip_space_app _ _ _ E) as (p & Hp & ->).
    rewrite Forall_forall in Hne. specialize (Hne p Hp).
    destruct p; [contradiction|]. simpl in Hl. rewrite length_app in Hl. lia.
Qed.

Lemma bytes_bounded (s : string) : Forall (fun b => (b < 256)%nat) (bytes_of_string s).
Proof.
  induction s as [|c s IH]; simpl; constructor; [apply nat_ascii_bounded | exact IH].
Qed.

Lemma bytes_of_string_of_bytes (bs : list nat) :
  Forall (fun b => (b < 256)%nat) bs → bytes_of_string (string_of_bytes bs) = bs.
Proof.
  induction 1 as [|b bs Hb _ IH]; simpl; [reflexivity|].
  rewrite nat_ascii_embedding by exact Hb. rewrite IH. reflexivity.
Qed.

Lemma first_line_no_newline (s : string) : 10%nat ∉ bytes_of_string (first_line s).
Proof.
  induction s as [|c s IH]; simpl; [apply not_elem_of_nil|].
  destruct (Ascii.eqb c newline) eqn:E; simpl; [apply not_elem_of_nil|].
  apply not_elem_of_cons. split; [|exact IH].
  intros H. apply Ascii.eqb_neq in E. apply E.
  rewrite <- (ascii_nat_embedding c), <- H. reflexivity.
Qed.

Lemma space_runes_not_empty :
  Forall (fun p : list nat => p ≠ []) space_runes ∧
  Forall (fun p : list nat => p ≠ []) (map (@rev nat) space_runes).
Proof. split; vm_compute; repeat constructor; discriminate. Qed.

(** What [strings.TrimSpace] leaves of a string. *)
Lemma TrimSpace_bytes (s : string) :
  ∃ pre post,
    bytes_of_string s = pre ++ bytes_of_string (TrimSpace s) ++ post ∧
    strip_space space_runes (bytes_of_string (TrimSpace s)) = None ∧
    strip_space (map (@rev nat) space_runes) (rev (bytes_of_string (TrimSpace s))) = None.
Proof.
  destruct space_runes_not_empty as [Hl Hr].
  unfold TrimSpace.
  set (bs := bytes_of_string s).
  set (l := trim_left (length bs) space_runes bs).
  set (r := trim_left (length l) (map (@rev nat) space_runes) (rev l)).
  destruct (trim_left_suffix space_runes (length bs) bs) as (pre & Hpre). fold l in Hpre.
  destruct (trim_left_suffix (map (@rev nat) space_runes) (length l) (rev l)) as (pre2 & Hpre2).
  fold r in Hpre2.
  assert (Hlr : l = rev r ++ rev pre2).
  { rewrite <- (rev_involutive l), Hpre2, rev_app_distr. reflexivity. }
  assert (Hb : bytes_of_string (string_of_bytes (rev r)) = rev r).
  { apply bytes_of_string_of_bytes.
    pose proof (bytes_bounded s) as Hbs. fold bs in Hbs.
    rewrite Hpre, Hlr in Hbs.
    apply Forall_app in Hbs as [_ Hbs]. apply Forall_app in Hbs as [Hbs _]. exact Hbs. }
  cbv zeta. fold bs. fold l. fold r. rewrite Hb.
  exists pre, (rev pre2). split; [rewrite <- Hlr; exact Hpre|]. split.
  - destruct (strip_space space_runes (rev r)) as [x|] eqn:E; [|reflexivity].
    pose proof (trim_left_done space_runes Hl (length bs) bs (Nat.le_refl _)) as Hd.
    fold l in Hd. rewrite Hlr in Hd.
    destruct (strip_space_more space_runes (rev r) (rev pre2)) as [y Hy]; [eauto|].
    congruence.
  - rewrite rev_involutive.
    apply (trim_left_done _ Hr (length l) (rev l)). rewrite length_rev. lia.
Qed.

(** X8: a title taken from a commit message is one line with no white
    space around it: it has no newline, it begins with no space character
    (ASCII or Unicode, in UTF-8) and ends with none, and it is a piece of
    the first line of the message. *)
Theorem commit_title_trimmed (message : string) :
  (10%nat ∉ title_bytes message) ∧
  strip_space space_runes (title_bytes message) = None ∧
  strip_space (map (@rev nat) space_runes) (rev (title_bytes message)) = None ∧
  ∃ pre post, bytes_of_string (first_line message) = pre ++ title_bytes message ++ post.
Proof.
  unfold title_bytes.
  destruct (TrimSpace_bytes (first_line message)) as (pre & post & Heq & Hl & Hr).
  split; [|split; [exact Hl | split; [exact Hr | eauto]]].
  pose proof (first_line_no_newline message) as Hn. rewrite Heq in Hn.
  intros Hin. apply Hn. apply elem_of_app. right. apply elem_of_app. left. exact Hin.
Qed.

(** ** The retries of the billing collector *)

Lemma attempts_step (k : nat) (ep : endpoint) (last : reply WorkflowUsage.t) (st : State) :
  GetWorkflowUsage_attempts (S k) ep last st
  = match workflow_usages (server st) with
    | [] => None
    | r :: rest =>
        if failed r then
          match GetWorkflowUsage_attempts k ep r
                  (set_server (set_workflow_usages rest (server st)) st) with
          | Some (r', st', evs) => Some (r', st', attempt ep r ++ evs)
          | None => None
          end
        else Some (r, set_server (set_workflow_usages rest (server st)) st, attempt ep r)
    end.
Proof.
  cbn [GetWorkflowUsage_attempts]. unfold bind at 1. unfold call.
  destruct (workflow_usages (server st)) as [|r rest]; [reflexivity|].
  destruct r as [[reset|msg]|body next]; cbn [failed attempt]; unfold bind, emit, ret.
  - destruct (GetWorkflowUsage_attempts k ep _ _) as [[[r' st'] evs]|]; reflexivity.
  - destruct (GetWorkflowUsage_attempts k ep _ _) as [[[r' st'] evs]|]; reflexivity.
  - reflexivity.
Qed.

Lemma attempts_shape (ep : endpoint) (k : nat) :
  ∀ last st r st' evs,
    GetWorkflowUsage_attempts (S k) ep last st = Some (r, st', evs) →
    ∃ fails rest,
      workflow_usages (server st) = fails ++ r :: rest ∧
      st' = set_server (set_workflow_usages rest (server st)) st ∧
      Forall (fun x => failed x = true) fails ∧
      (length fails ≤ k)%nat ∧
      (failed r = true → length fails = k) ∧
      evs = flat_map (attempt ep) (fails ++ [r]).
Proof.
  induction k as [|k IH]; intros last st r st' evs H; rewrite attempts_step in H;
    destruct (workflow_usages (server st)) as [|r0 rest0] eqn:E; try discriminate;
    destruct (failed r0) eqn:F.
  - cbn [GetWorkflowUsage_attempts] in H. unfold ret in H. injection H as <- <- <-.
    exists [], rest0. cbn [app flat_map length]. repeat split; auto.
  - injection H as <- <- <-. exists [], rest0. cbn [app flat_map length].
    rewrite app_nil_r. repeat split; auto; congruence.
  - destruct (GetWorkflowUsage_attempts (S k) ep r0 _) as [[[r' st1] evs1]|] eqn:R;
      [|discriminate].
    injection H as <- <- <-.
    destruct (IH _ _ _ _ _ R) as (fails & rest & Hs & Hst & Hf & Hl & Hk & He).
    cbn in Hs. subst rest0. exists (r0 :: fails), rest.
    repeat split; auto.
    + cbn [length]. lia.
    + intros Hr. cbn [length]. rewrite (Hk Hr). reflexivity.
    + cbn [app flat_map]. rewrite He. reflexivity.
  - injection H as <- <- <-. exists [], rest0. cbn [app flat_map length].
    rewrite app_nil_r. repeat split; auto; try lia; congruence.
Qed.

Lemma attempts_return (ep : endpoint) (n : nat) :
  ∀ last st, (n ≤ length (workflow_usages (server st)))%nat →
             is_Some (GetWorkflowUsage_attempts n ep last st).
Proof.
  induction n as [|n IH]; intros last st Hn; [eexists; reflexivity|].
  rewrite attempts_step.
  destruct (workflow_usages (server st)) as [|r rest]; [cbn in Hn; lia|].
  destruct (failed r); [|eauto].
  destruct (IH r (set_server (set_workflow_usages rest (server st)) st)) as [[[r' st'] evs] ->];
    [cbn in *; lia | eauto].
Qed.

(** X9: the usage of a workflow is asked for at most three times. When
    the retry loop of the billing collector returns, it has consumed
    between one and three replies of the endpoint: every one but the last
    is an error, the last is what it returns, and it returns an error only
    after three attempts. Each attempt is one request; a rate limit is
    followed by a sleep until its reset, another error by a sleep of two
    seconds (the third one included). Nothing but the replies consumed
    changes in the state, and the loop returns whenever the endpoint has
    three replies to give. *)
Theorem usage_asked_three_times (ep : endpoint) (last : reply WorkflowUsage.t) (st : State) :
  (∀ r st' evs,
     GetWorkflowUsage_attempts 3 ep last st = Some (r, st', evs) →
     ∃ fails rest,
       workflow_usages (server st) = fails ++ r :: rest ∧
       st' = set_server (set_workflow_usages rest (server st)) st ∧
       Forall (fun x => failed x = true) fails ∧
       (length fails < 3)%nat ∧
       (failed r = true → length fails = 2%nat) ∧
       evs = flat_map (attempt ep) (fails ++ [r])) ∧
  ((3 ≤ length (workflow_usages (server st)))%nat →
   is_Some (GetWorkflowUsage_attempts 3 ep last st)).
Proof.
  split.
  - intros r st' evs H.
    destruct (attempts_shape ep 2 _ _ _ _ _ H) as (fails & rest & Hs & Hst & Hf & Hl & Hk & He).
    exists fails, rest. repeat split; auto. lia.
  - apply attempts_return.
Qed.

Lemma usage_asked_three_times_example :
  is_Some (GetWorkflowUsage_attempts 3 (GetWorkflowUsageByID "o" "r" 5) (Replied None 0)
             answers_never) ∧
  ∃ fails rest,
    workflow_usages (server answers_third) = fails ++ Replied None 0 :: rest ∧
    Forall (fun x => failed x = true) fails ∧ (length fails < 3)%nat.
Proof.
  split.
  - apply (proj2 (usage_asked_three_times (GetWorkflowUsageByID "o" "r" 5) (Replied None 0)
                    answers_never)).
    vm_compute. lia.
  - destruct (proj1 (usage_asked_three_times (GetWorkflowUsageByID "o" "r" 5) (Replied None 0)
                       answers_third) (Replied None 0)
                (set_server (set_workflow_usages [Replied None 0] (server answers_third))
                   answers_third)
                (flat_map (attempt (GetWorkflowUsageByID "o" "r" 5))
                   [Failed (RateLimitError 7); Failed (OtherError "502"); Replied None 0])
                eq_refl)
      as (fails & rest & Hs & _ & Hf & Hl & _ & _).
    exists fails, rest. auto.
Defined.

(** ** The series of a bill map *)

Section BillMap.
Variable ToUpper : string → string.
Variables (repoFullName : string) (id : Z) (nodeID name state : string).

Local Abbreviation labels_of := (bill_labels ToUpper repoFullName id nodeID name state).
Local Abbreviation publish := (publishBill ToUpper repoFullName id nodeID name state).
Local Abbreviation set_bill := (bill_set ToUpper repoFullName id nodeID name state).
Local Abbreviation events_of := (bill_events ToUpper repoFullName id nodeID name state).

Lemma publishBill_run (entry : string * option WorkflowBill.t) (st : State) :
  publish entry st = Some (tt, set_bill st entry, events_of entry).
Proof.
  destruct entry as [os [[[ms|]]|]]; reflexivity.
Qed.

Lemma forM_publishBill (billMap : list (string * option WorkflowBill.t)) :
  ∀ st, forM billMap publish st
        = Some (tt, foldl set_bill st billMap, flat_map events_of billMap).
Proof.
  induction billMap as [|x l IH]; intros st; [reflexivity|].
  cbn [forM foldl flat_map]. unfold bind. rewrite publishBill_run, IH. reflexivity.
Qed.

Lemma labels_of_inj (os os' : string) :
  ToUpper os ≠ ToUpper os' → labels_of os ≠ labels_of os'.
Proof. intros Hne Heq. apply Hne. unfold bill_labels in Heq. congruence. Qed.

Lemma bill_set_swap (x y : string * option WorkflowBill.t) (st : State) :
  ToUpper (fst x) ≠ ToUpper (fst y) →
  set_bill (set_bill st x) y = set_bill (set_bill st y) x.
Proof.
  intros Hne. apply labels_of_inj in Hne. unfold bill_set.
  destruct (bill_total x) as [mx|], (bill_total y) as [my|]; try reflexivity.
  unfold set_gauges. cbn. f_equal.
  rewrite !lookup_insert_eq. cbn. rewrite !insert_insert_eq. f_equal.
  apply insert_insert_ne. congruence.
Qed.

Lemma bill_set_other (x : string * option WorkflowBill.t) (st : State) (labels : list string) :
  labels ≠ labels_of (fst x) →
  series workflowBillGauge labels (set_bill st x) = series workflowBillGauge labels st.
Proof.
  intros Hne. unfold bill_set, series.
  destruct (bill_total x) as [ms|]; [|reflexivity].
  cbn. rewrite lookup_insert_eq. cbn. rewrite lookup_insert_ne by congruence.
  destruct (gauges st !! workflowBillGauge); reflexivity.
Qed.

Lemma bill_set_self (x : string * option WorkflowBill.t) (st : State) (ms : Z) :
  bill_total x = Some ms →
  series workflowBillGauge (labels_of (fst x)) (set_bill st x) = Some (Qmake ms 1000).
Proof.
  intros Hms. unfold bill_set, series. rewrite Hms.
  cbn. rewrite lookup_insert_eq. cbn. apply lookup_insert_eq.
Qed.

Lemma bill_set_others (billMap : list (string * option WorkflowBill.t)) (labels : list string) :
  ∀ st, (∀ x, x ∈ billMap → labels ≠ labels_of (fst x)) →
        series workflowBillGauge labels (foldl set_bill st billMap)
        = series workflowBillGauge labels st.
Proof.
  induction billMap as [|x l IH]; intros st Hl; [reflexivity|].
  cbn [foldl]. rewrite IH.
  - apply bill_set_other, Hl, list_elem_of_here.
  - intros y Hy. apply Hl, list_elem_of_further, Hy.
Qed.

Lemma bill_set_perm (l l' : list (string * option WorkflowBill.t)) :
  l ≡ₚ l' → NoDup (ToUpper <$> l.*1) →
  ∀ st, foldl set_bill st l = foldl set_bill st l'.
Proof.
  induction 1 as [|x l l' Hp IH|x y l|l l1 l2 Hp1 IH1 Hp2 IH2]; intros Hnd st.
  - reflexivity.
  - cbn [foldl]. apply IH. cbn in Hnd. apply NoDup_cons in Hnd as [_ Hnd]. exact Hnd.
  - cbn [foldl]. f_equal. apply bill_set_swap.
    cbn in Hnd. apply NoDup_cons in Hnd as [Hy _].
    intros Heq. apply Hy. rewrite <- Heq. apply list_elem_of_here.
  - rewrite IH1 by exact Hnd. apply IH2. rewrite <- Hp1. exact Hnd.
Qed.

Lemma bill_set_series (l : list (string * option WorkflowBill.t)) :
  NoDup (ToUpper <$> l.*1) →
  ∀ st x ms, x ∈ l → bill_total x = Some ms →
             series workflowBillGauge (labels_of (fst x)) (foldl set_bill st l)
             = Some (Qmake ms 1000).
Proof.
  induction l as [|y l IH]; intros Hnd st x ms Hx Hms; [inversion Hx|].
  cbn in Hnd. apply NoDup_cons in Hnd as [Hy Hnd]. cbn [foldl].
  apply elem_of_cons in Hx as [->|Hx]; [|apply (IH Hnd _ _ _ Hx Hms)].
  rewrite bill_set_others; [apply bill_set_self, Hms|].
  intros z Hz. apply labels_of_inj. intros Heq. apply Hy. rewrite Heq.
  apply list_elem_of_fmap. exists (fst z). split; [reflexivity|].
  apply list_elem_of_fmap. exists z. split; [reflexivity | exact Hz].
Qed.

End BillMap.

(** X10: the series a bill map leaves do not depend on the order in which
    the map is ranged over, as long as no two of its operating-system
    names have the same upper-case form: ranged over in any two orders,
    the loop ends in the same state, with the same events up to their
    order. Every entry with a total then has its own series, labelled by
    the repository, the workflow and the name in upper case, whose value
    is the total in seconds (the milliseconds over 1000); an entry that is
    nil or has no total sets nothing. The loop always returns. *)
Theorem bill_map_order (ToUpper : string → string) (repoFullName : string) (id : Z)
    (nodeID name state : string) (billMap billMap' : list (string * option WorkflowBill.t))
    (st : State) :
  NoDup (ToUpper <$> billMap.*1) →
  billMap ≡ₚ billMap' →
  ∃ st1 evs evs',
    forM billMap (publishBill ToUpper repoFullName id nodeID name state) st
    = Some (tt, st1, evs) ∧
    forM billMap' (publishBill ToUpper repoFullName id nodeID name state) st
    = Some (tt, st1, evs') ∧
    evs ≡ₚ evs' ∧
    (∀ osType bill ms,
       (osType, Some bill) ∈ billMap → WorkflowBill.TotalMS bill = Some ms →
       series workflowBillGauge
         (bill_labels ToUpper repoFullName id nodeID name state osType) st1
       = Some (Qmake ms 1000)) ∧
    (∀ g labels v,
       GaugeSet g labels v ∈ evs →
       g = workflowBillGauge ∧
       ∃ osType bill ms,
         (osType, Some bill) ∈ billMap ∧ WorkflowBill.TotalMS bill = Some ms ∧
         labels = bill_labels ToUpper repoFullName id nodeID name state osType ∧
         v = Qmake ms 1000).
Proof.
  intros Hnd Hp.
  exists (foldl (bill_set ToUpper repoFullName id nodeID name state) st billMap),
    (flat_map (bill_events ToUpper repoFullName id nodeID name state) billMap),
    (flat_map (bill_events ToUpper repoFullName id nodeID name state) billMap').
  split; [apply forM_publishBill|]. split.
  { rewrite forM_publishBill, (bill_set_perm _ _ _ _ _ _ _ _ Hp Hnd). reflexivity. }
  split.
  { apply Permutation_flat_map, Hp. }
  split.
  - intros osType bill ms Hin Hms.
    apply (bill_set_series _ _ _ _ _ _ _ Hnd st (osType, Some bill) ms Hin).
    unfold bill_total. cbn. exact Hms.
  - intros g labels v Hin. apply list_elem_of_In, in_flat_map in Hin as ([os bill] & Hx & Hin).
    apply list_elem_of_In in Hx. unfold bill_events, bill_total in Hin. cbn in Hin.
    destruct bill as [bill|]; cbn in Hin; [|contradiction].
    destruct (WorkflowBill.TotalMS bill) as [ms|] eqn:Hms; cbn in Hin; [|contradiction].
    destruct Hin as [Hin|[]]. injection Hin as <- <- <-.
    split; [reflexivity|]. exists os, bill, ms. auto.
Qed.

Lemma bill_map_order_example :
  ∃ st1 evs evs',
    forM three_bills (publishBill upper "o/r" 5 "W_5" "CI" "active") before_first_fetch
    = Some (tt, st1, evs) ∧
    forM (rev three_bills) (publishBill upper "o/r" 5 "W_5" "CI" "active") before_first_fetch
    = Some (tt, st1, evs') ∧
    series workflowBillGauge ["o/r"; "5"; "W_5"; "CI"; "active"; "WINDOWS"] st1
    = Some (Qmake 1500 1000).
Proof.
  assert (Hnd : NoDup (upper <$> three_bills.*1)).
  { vm_compute. repeat constructor; rewrite ?elem_of_cons, ?elem_of_nil; intuition discriminate. }
  destruct (bill_map_order upper "o/r" 5 "W_5" "CI" "active" three_bills (rev three_bills)
              before_first_fetch Hnd (Permutation_rev three_bills))
    as (st1 & evs & evs' & H1 & H2 & _ & H3 & _).
  exists st1, evs, evs'. split; [exact H1|]. split; [exact H2|].
  apply (H3 "windows" (WorkflowBill.mk (Some 1500)) 1500); [|reflexivity].
  unfold three_bills. rewrite !elem_of_cons. auto.
Defined.

(** ** The other collectors are collectors *)

Lemma safe_getAllOrgRunners (I : State → Prop) (S : gauge → list string → Prop)
    (orgaName : string) :
  invariant I (sets_only S) → safe I (sets_only S) (getAllOrgRunners orgaName).
Proof.
  intros Hinv. unfold getAllOrgRunners.
  apply safe_bind; [exact Hinv | apply safe_get | intros ok].
  destruct ok; simpl; [apply safe_paged | apply safe_ret].
Qed.

Lemma safe_runnersOfOrg (orgaName : string) :
  safe always (sets_only (series_of runnersOrganizationGauge)) (runnersOfOrg orgaName).
Proof.
  pose proof (always_invariant (sets_only (series_of runnersOrganizationGauge))) as Hinv.
  unfold runnersOfOrg. destruct (orgaName == ""); [apply safe_ret|].
  apply safe_bind; [exact Hinv | apply safe_getAllOrgRunners, Hinv | intros runners].
  apply safe_forM; [exact Hinv | intros runner; apply safe_publishRunner].
Qed.

Lemma organization_cycle_unfold (st : State) :
  getRunnersOrganizationFromGithub_cycle st
  = match config.Organizations (config.github (cfg st)) with
    | [] => Some (tt, st, [])
    | _ :: _ =>
        match forM (config.Organizations (config.github (cfg st))) runnersOfOrg
                (reset_all [runnersOrganizationGauge] st) with
        | Some (u, st1, e) => Some (u, st1, map GaugeReset [runnersOrganizationGauge] ++ e)
        | None => None
        end
    end.
Proof.
  unfold getRunnersOrganizationFromGithub_cycle. rewrite bind_get.
  destruct (config.Organizations (config.github (cfg st))) as [|o os] eqn:E; [reflexivity|].
  rewrite bind_Reset. unfold reset_all. simpl. reflexivity.
Qed.

Lemma served_again_same (st : State) : served_again st st = st.
Proof. apply state_eq; reflexivity. Qed.

Lemma safe_billing (ToUpper : string → string) (cache : WorkflowCache) :
  safe (caches cache) (sets_only (bill_series cache))
    (forM (map_to_list cache) (billRepo ToUpper)).
Proof.
  apply safe_forM_in; [apply caches_invariant|].
  intros entry Hin. apply safe_billRepo, Hin.
Qed.

Lemma bill_series_gauge (cache : WorkflowCache) (g : gauge) (labels : list string) :
  bill_series cache g labels → g ∈ [workflowBillGauge].
Proof. intros [-> _]. apply list_elem_of_here. Qed.

Lemma series_of_gauge (g g' : gauge) (labels : list string) : series_of g g' labels → g' ∈ [g].
Proof. intros ->. apply list_elem_of_here. Qed.

Lemma organization_cycle_publishes (st st1 : State) (evs : list event) :
  getRunnersOrganizationFromGithub_cycle st = Some (tt, st1, evs) →
  getRunnersOrganizationFromGithub_cycle (served_again st st1) = Some (tt, st1, evs) ∧
  (config.Organizations (config.github (cfg st)) ≠ [] →
   gauges st1 !! runnersOrganizationGauge = Some (collected runnersOrganizationGauge evs) ∧
   ∀ labels, is_Some (collected runnersOrganizationGauge evs !! labels)
             ↔ ∃ v, GaugeSet runnersOrganizationGauge labels v ∈ evs).
Proof.
  intros H. rewrite organization_cycle_unfold in H.
  destruct (config.Organizations (config.github (cfg st))) as [|o os] eqn:Horgs.
  - injection H as <- <-. split; [|intros Hne; contradiction].
    rewrite served_again_same, organization_cycle_unfold, Horgs. reflexivity.
  - rewrite <- Horgs in H.
    destruct (forM (config.Organizations (config.github (cfg st))) runnersOfOrg
                (reset_all [runnersOrganizationGauge] st)) as [[[u st1'] e]|] eqn:E;
      [|discriminate].
    destruct u. injection H as <- <-.
    destruct (reset_then_collect [runnersOrganizationGauge] always
                (series_of runnersOrganizationGauge)
                (forM (config.Organizations (config.github (cfg st))) runnersOfOrg) st st1' e)
      as (Hsame & Heff & Hser);
      [apply series_of_gauge
      | apply safe_forM; [apply always_invariant | intros o'; apply safe_runnersOfOrg]
      | exact Logic.I | exact E |].
    split; [|intros _; apply Hser, list_elem_of_here].
    rewrite organization_cycle_unfold.
    destruct Heff as (Hc & _).
    assert (Hc2 : cfg (served_again st st1') = cfg st) by exact Hc.
    rewrite Hc2, Horgs. rewrite <- Horgs, Hsame, E. reflexivity.
Qed.

Lemma billing_cycle_publishes (ToUpper : string → string) (st st1 : State)
    (evs : list event) :
  getBillableFromGithub_cycle ToUpper st = Some (tt, st1, evs) →
  getBillableFromGithub_cycle ToUpper (served_again st st1) = Some (tt, st1, evs) ∧
  (size (workflows st) ≠ 0%nat → repositories st ≠ [] →
   gauges st1 !! workflowBillGauge = Some (collected workflowBillGauge evs) ∧
   ∀ labels, is_Some (collected workflowBillGauge evs !! labels)
             ↔ ∃ v, GaugeSet workflowBillGauge labels v ∈ evs).
Proof.
  intros H. rewrite billing_cycle_unfold in H.
  destruct ((size (workflows st) =? 0)%nat || (length (repositories st) =? 0)%nat) eqn:Hskip.
  - injection H as <- <-. split.
    + rewrite served_again_same, billing_cycle_unfold, Hskip. reflexivity.
    + intros Hs Hr. apply orb_true_iff in Hskip as [Hz|Hz]; apply Nat.eqb_eq in Hz.
      * contradiction.
      * destruct (repositories st); [contradiction | discriminate].
  - destruct (forM (map_to_list (workflows st)) (billRepo ToUpper)
                (reset_all [workflowBillGauge] st)) as [[[u st1'] e]|] eqn:E; [|discriminate].
    destruct u. injection H as <- <-.
    destruct (reset_then_collect [workflowBillGauge] (caches (workflows st))
                (bill_series (workflows st))
                (forM (map_to_list (workflows st)) (billRepo ToUpper)) st st1' e
                (bill_series_gauge _) (safe_billing ToUpper _) eq_refl E)
      as (Hsame & Heff & Hser).
    split; [|intros _ _; apply Hser, list_elem_of_here].
    rewrite billing_cycle_unfold.
    destruct Heff as (_ & _ & Hr & Hw & _).
    assert (Hr2 : repositories (served_again st st1') = repositories st) by exact Hr.
    assert (Hw2 : workflows (served_again st st1') = workflows st) by exact Hw.
    rewrite Hr2, Hw2, Hskip, Hsame, E. reflexivity.
Qed.



(** ** The collectors keep to their gauges *)

Lemma effect_apart (rs : list gauge) (S : gauge → list string → Prop) (st st1 : State)
    (e : list event) :
  (∀ g labels, S g labels → g ∈ rs) →
  effect (sets_only S) (reset_all rs st) st1 e → kept_apart rs st st1.
Proof.
  intros Hsub (Hc & Hcl & Hr & Hw & Hg & Hok).
  unfold kept_apart. repeat split; auto.
  intros g Hnin. rewrite Hg, replay_untouched.
  - simpl. rewrite resets_lookup. destruct (decide (g ∈ rs)); [contradiction | reflexivity].
  - apply (sets_only_untouched S); [|exact Hok].
    intros labels HS. apply Hnin. eapply Hsub, HS.
Qed.

Lemma kept_apart_refl (rs : list gauge) (st : State) : kept_apart rs st st.
Proof. unfold kept_apart. auto. Qed.

(** X12: a pass of a collector changes nothing but its own gauges and the
    replies left on the server: it leaves the configuration, the client,
    the list of repositories and the cache of workflow definitions as
    they are, and every gauge but its own holds afterwards what it held
    before. The gauges of the collector of runs are the status gauge and,
    when the duration is collected, the duration gauge; each of the three
    others has one gauge. *)
Theorem collectors_kept_apart :
  (∀ fields st st1 evs,
     getWorkflowRunsFromGithub_cycle fields st = Some (tt, st1, evs) →
     kept_apart (run_gauges st) st st1) ∧
  (∀ st st1 evs,
     getRunnersFromGithub_cycle st = Some (tt, st1, evs) →
     kept_apart [runnersGauge] st st1) ∧
  (∀ st st1 evs,
     getRunnersOrganizationFromGithub_cycle st = Some (tt, st1, evs) →
     kept_apart [runnersOrganizationGauge] st st1) ∧
  (∀ ToUpper st st1 evs,
     getBillableFromGithub_cycle ToUpper st = Some (tt, st1, evs) →
     kept_apart [workflowBillGauge] st st1).
Proof.
  split; [|split; [|split]].
  - intros fields st st1 evs H. rewrite runs_cycle_unfold in H.
    destruct (collectRuns fields (reset_all (run_gauges st) st)) as [[[u st1'] e]|] eqn:E;
      [|discriminate].
    destruct u. injection H as <- <-.
    apply (effect_apart _ (run_series (enabled st)) _ _ e (run_series_gauges st)).
    exact (safe_collectRuns _ fields _ _ _ _ (enabled_reset st) E).
  - intros st st1 evs H. rewrite runners_cycle_unfold in H.
    destruct (repositories st) as [|r rs] eqn:Hrepos.
    + injection H as <- <-. apply kept_apart_refl.
    + rewrite <- Hrepos in H.
      destruct (forM (repositories st) runnersOfRepo (reset_all [runnersGauge] st))
        as [[[u st1'] e]|] eqn:E; [|discriminate].
      destruct u. injection H as <- <-.
      apply (effect_apart _ (series_of runnersGauge) _ _ e (series_of_gauge _)).
      refine (safe_forM always _ (always_invariant _) _ _ _ _ _ _ _ Logic.I E).
      intros repo. apply safe_runnersOfRepo.
  - intros st st1 evs H. rewrite organization_cycle_unfold in H.
    destruct (config.Organizations (config.github (cfg st))) as [|o os] eqn:Horgs.
    + injection H as <- <-. apply kept_apart_refl.
    + rewrite <- Horgs in H.
      destruct (forM (config.Organizations (config.github (cfg st))) runnersOfOrg
                  (reset_all [runnersOrganizationGauge] st)) as [[[u st1'] e]|] eqn:E;
        [|discriminate].
      destruct u. injection H as <- <-.
      apply (effect_apart _ (series_of runnersOrganizationGauge) _ _ e (series_of_gauge _)).
      refine (safe_forM always _ (always_invariant _) _ _ _ _ _ _ _ Logic.I E).
      intros o'. apply safe_runnersOfOrg.
  - intros ToUpper st st1 evs H. rewrite billing_cycle_unfold in H.
    destruct ((size (workflows st) =? 0)%nat || (length (repositories st) =? 0)%nat).
    + injection H as <- <-. apply kept_apart_refl.
    + destruct (forM (map_to_list (workflows st)) (billRepo ToUpper)
                  (reset_all [workflowBillGauge] st)) as [[[u st1'] e]|] eqn:E; [|discriminate].
      destruct u. injection H as <- <-.
      apply (effect_apart _ (bill_series (workflows st)) _ _ e (bill_series_gauge _)).
      exact (safe_billing ToUpper _ _ _ _ _ eq_refl E).
Qed.

Lemma collectors_kept_apart_example :
  ∃ st1 evs,
    getBillableFromGithub_cycle upper billing_pass = Some (tt, st1, evs) ∧
    kept_apart [workflowBillGauge] billing_pass st1.
Proof.
  assert (E : ∃ st1 evs, getBillableFromGithub_cycle upper billing_pass = Some (tt, st1, evs)).
  { eexists _, _. vm_compute. reflexivity. }
  destruct E as (st1 & evs & E).
  exists st1, evs. split; [exact E|].
  exact (proj2 (proj2 (proj2 collectors_kept_apart)) upper _ _ _ E).
Defined.

(** ** The fetcher *)

Lemma nothing_quiet (evs : list event) : Forall (sets_only nothing) evs → Forall quiet evs.
Proof.
  intros H. eapply Forall_impl; [exact H|].
  intros e He. destruct e; simpl in *; auto.
Qed.

Lemma safe_mapM {A B : Type} (I : State → Prop) (S : gauge → list string → Prop)
    (f : A → M B) (l : list A) :
  invariant I (sets_only S) →
  (∀ x, safe I (sets_only S) (f x)) → safe I (sets_only S) (mapM f l).
Proof.
  intros Hinv Hf. induction l as [|x l IH]; simpl; [apply safe_ret|].
  apply safe_bind; [exact Hinv | apply Hf | intros y].
  apply safe_bind; [exact Hinv | exact IH | intros ys; apply safe_ret].
Qed.

Lemma safe_getAllReposForOrg (I : State → Prop) (S : gauge → list string → Prop)
    (orga : string) :
  invariant I (sets_only S) → safe I (sets_only S) (getAllReposForOrg orga).
Proof.
  intros Hinv. unfold getAllReposForOrg.
  apply safe_bind; [exact Hinv | apply safe_get | intros ok].
  destruct ok; simpl; [apply safe_paged | apply safe_ret].
Qed.

Lemma safe_getAllWorkflowsForRepo (I : State → Prop) (S : gauge → list string → Prop)
    (owner repoName : string) :
  invariant I (sets_only S) → safe I (sets_only S) (getAllWorkflowsForRepo owner repoName).
Proof.
  intros Hinv. unfold getAllWorkflowsForRepo.
  apply safe_bind; [exact Hinv | apply safe_get | intros ok].
  destruct ok; simpl; [apply safe_paged | apply safe_ret].
Qed.

Lemma safe_fetchOne (I : State → Prop) (S : gauge → list string → Prop)
    (repoFullName : string) :
  invariant I (sets_only S) → safe I (sets_only S) (fetchOne repoFullName).
Proof.
  intros Hinv. unfold fetchOne.
  destruct (Split repoFullName slash) as [|owner [|repoName [|? ?]]];
    try (apply safe_bind; [exact Hinv | apply safe_emit; repeat constructor
                          | intros ?; apply safe_ret]).
  apply safe_bind; [exact Hinv | apply safe_getAllWorkflowsForRepo, Hinv
                   | intros ?; apply safe_ret].
Qed.

(** What the loop of a paginated fetch has accumulated satisfies whatever
    the starting value does and the taking in of a page keeps. *)
Lemma paginate_keeps {P A : Type} (ep : endpoint) (absorb : A → option P → A)
    (Inv : A → Prop) :
  (∀ acc body, Inv acc → Inv (absorb acc body)) →
  ∀ script page acc res rest evs,
    Inv acc → paginate ep absorb script page acc = Some (res, rest, evs) → Inv res.
Proof.
  intros Hstep. induction script as [|r script IH]; intros page acc res rest evs Hacc H;
    [discriminate|].
  simpl in H. destruct r as [[reset|msg]|body next].
  - destruct (paginate ep absorb script page acc) as [[[res' rest'] evs']|] eqn:E;
      [|discriminate].
    injection H as <- <- <-. eapply IH; eauto.
  - injection H as <- <- <-. exact Hacc.
  - destruct (next =? 0).
    + injection H as <- <- <-. apply Hstep, Hacc.
    + destruct (paginate ep absorb script next (absorb acc body)) as [[[res' rest'] evs']|] eqn:E;
        [|discriminate].
      injection H as <- <- <-. eapply IH; [|exact E]. apply Hstep, Hacc.
Qed.

Lemma store_workflows_keyed (res : gmap Z (option Workflow.t))
    (workflowsPage : option (list (option Workflow.t))) :
  keyed res → keyed (store_workflows res workflowsPage).
Proof.
  unfold store_workflows. generalize (default [] workflowsPage). intros page.
  revert res. induction page as [|w page IH]; intros res Hres; [exact Hres|].
  cbn [foldl]. apply IH.
  destruct w as [wf|]; [|exact Hres].
  destruct (Workflow.ID wf) as [id|] eqn:Hid; [|exact Hres].
  intros k w Hk. destruct (decide (id = k)) as [->|Hne].
  - rewrite lookup_insert_eq in Hk. injection Hk as <-. eauto.
  - rewrite lookup_insert_ne in Hk by exact Hne. apply (Hres k w Hk).
Qed.

Lemma getAllWorkflowsForRepo_keyed (owner repoName : string) (st st' : State)
    (m : gmap Z (option Workflow.t)) (evs : list event) :
  getAllWorkflowsForRepo owner repoName st = Some (m, st', evs) → keyed m.
Proof.
  unfold getAllWorkflowsForRepo. rewrite bind_get.
  destruct (client st); simpl.
  - unfold paged.
    destruct (paginate (ListWorkflows owner repoName) store_workflows
                (workflow_pages (server st)) 0 ∅) as [[[res rest] e]|] eqn:E; [|discriminate].
    intros H. injection H as <- <- <-.
    eapply (paginate_keeps _ _ keyed store_workflows_keyed); [|exact E].
    intros k w Hk. rewrite lookup_empty in Hk. discriminate.
  - unfold ret. intros H. injection H as <- <- <-.
    intros k w Hk. rewrite lookup_empty in Hk. discriminate.
Qed.

Lemma mapM_fetchOne_elem (repos : list string) :
  ∀ st fetched st' evs,
    mapM fetchOne repos st = Some (fetched, st', evs) →
    ∀ repo m, Some (repo, m) ∈ fetched →
              repo ∈ repos ∧ (∃ owner repoName, Split repo slash = [owner; repoName]) ∧
              keyed m.
Proof.
  induction repos as [|r repos IH]; intros st fetched st' evs H repo m Hin.
  - injection H as <- <- <-. inversion Hin.
  - simpl in H. unfold bind in H.
    destruct (fetchOne r st) as [[[y st1] e1]|] eqn:E1; [|discriminate].
    destruct (mapM fetchOne repos st1) as [[[ys st2] e2]|] eqn:E2; [|discriminate].
    unfold ret in H. injection H as <- <- <-.
    apply elem_of_cons in Hin as [Hy|Hin].
    + subst y. unfold fetchOne in E1.
      destruct (Split r slash) as [|owner [|repoName [|? ?]]] eqn:Hs;
        try (unfold bind, emit, ret in E1; simpl in E1; discriminate).
      unfold bind in E1.
      destruct (getAllWorkflowsForRepo owner repoName st) as [[[wfs st0] e0]|] eqn:E0;
        [|discriminate].
      unfold ret in E1. injection E1 as <- <- <- <-.
      split; [apply list_elem_of_here|]. split; [eauto|].
      eapply getAllWorkflowsForRepo_keyed, E0.
    + destruct (IH _ _ _ _ E2 repo m Hin) as (Hr & Hs & Hk).
      split; [apply list_elem_of_further, Hr | auto].
Qed.

Lemma rebuildCache_well_formed (st st' : State) (evs : list event) :
  rebuildCache st = Some (tt, st', evs) →
  effect (sets_only nothing) st (set_workflows (workflows st) st') evs ∧
  well_formed (repositories st) (workflows st').
Proof.
  intros H. destruct (rebuildCache_entries _ _ _ H) as (fetched & st1 & Hm & -> & Hent & _).
  pose proof (safe_mapM always nothing fetchOne (repositories st) (always_invariant _)
                (fun x => safe_fetchOne always nothing x (always_invariant _))
                _ _ _ _ Logic.I Hm) as Heff.
  split.
  - destruct Heff as (Hc & Hcl & Hr & Hw & Hg & Hok). unfold effect. simpl. auto 10.
  - intros repo m Hl. destruct (Hent repo m Hl) as [Hin Hne].
    destruct (mapM_fetchOne_elem _ _ _ _ _ Hm repo m Hin) as (Hr & Hs & Hk). auto.
Qed.

Lemma resolve_effect (st st1 : State) (resolved : bool) (e : list event) :
  resolveRepositories st = Some (resolved, st1, e) →
  cfg st1 = cfg st ∧ client st1 = client st ∧ gauges st1 = gauges st ∧ Forall quiet e ∧
  NoDup (repositories st1) ∧
  (resolved = false → repositories st1 = [] ∧ workflows st1 = ∅).
Proof.
  intros H.
  destruct (explicit_repositories st) as [|r rs] eqn:He.
  - destruct (config.Organizations (config.github (cfg st))) as [|o os] eqn:Ho.
    + rewrite (resolve_nothing st He Ho) in H. injection H as <- <- <-.
      simpl. repeat split; auto. apply NoDup_nil_2.
    + rewrite (resolve_organizations st He) in H by (rewrite Ho; discriminate).
      destruct (mapM getAllReposForOrg (configured_organizations st) st)
        as [[[founds st2] e2]|] eqn:Hm; [|discriminate].
      injection H as <- <- <-.
      pose proof (safe_mapM always nothing getAllReposForOrg _ (always_invariant _)
                    (fun x => safe_getAllReposForOrg always nothing x (always_invariant _))
                    _ _ _ _ Logic.I Hm) as (Hc & Hcl & Hr & Hw & Hg & Hok).
      apply nothing_quiet in Hok. simpl.
      rewrite Hg, (replay_quiet _ _ Hok).
      repeat split; auto; try discriminate. apply first_seen_properties.
  - rewrite (resolve_explicit st) in H by (rewrite He; discriminate).
    injection H as <- <- <-. simpl.
    repeat split; auto; try discriminate. apply first_seen_properties.
Qed.

(** X13: a pass of the fetcher touches no gauge: it leaves the
    configuration, the client and the gauges as they are, and none of its
    events is a gauge operation. Without a client it sleeps for 60 seconds
    and changes nothing. With one, the list of repositories it leaves has
    no duplicates, and the cache it leaves is fit for that list: each of
    its entries is for a repository of the list whose name has the form
    owner/name, and holds at least one definition, each stored under its
    own id. *)
Theorem fetcher_pass (st st' : State) (evs : list event) :
  periodicGithubFetcher_cycle st = Some (tt, st', evs) →
  cfg st' = cfg st ∧ client st' = client st ∧ gauges st' = gauges st ∧ Forall quiet evs ∧
  (client st = false → st' = st ∧ evs = [SleepFor 60]) ∧
  (client st = true →
   NoDup (repositories st') ∧ well_formed (repositories st') (workflows st')).
Proof.
  unfold periodicGithubFetcher_cycle. rewrite bind_get.
  destruct (client st) eqn:Hc; simpl.
  - unfold bind.
    destruct (resolveRepositories st) as [[[resolved st1] e1]|] eqn:Hres; [|discriminate].
    destruct (resolve_effect _ _ _ _ Hres) as (Hc1 & Hcl1 & Hg1 & Hq1 & Hnd & Hno).
    destruct resolved.
    + destruct (rebuildCache st1) as [[[u st2] e2]|] eqn:Hreb; [|discriminate].
      destruct u. intros H. injection H as <- <-.
      destruct (rebuildCache_well_formed _ _ _ Hreb) as [(Hc2 & Hcl2 & Hr2 & _ & Hg2 & Hok) Hwf].
      apply nothing_quiet in Hok. simpl in *.
      rewrite (replay_quiet _ _ Hok) in Hg2.
      split; [congruence|]. split; [congruence|]. split; [congruence|].
      split; [apply Forall_app; auto|]. split; [discriminate|].
      intros _. rewrite Hr2. auto.
    + unfold ret. intros H. injection H as <- <-. rewrite app_nil_r.
      destruct (Hno eq_refl) as [Hr Hw].
      split; [exact Hc1|]. split; [congruence|]. split; [exact Hg1|].
      split; [exact Hq1|]. split; [discriminate|].
      intros _. split; [exact Hnd|].
      intros repo m Hm. rewrite Hw, lookup_empty in Hm. discriminate.
  - unfold emit. intros H. injection H as <- <-.
    split; [reflexivity|]. split; [congruence|]. split; [reflexivity|].
    split; [repeat constructor|]. split; [auto | discriminate].
Qed.

Lemma fetcher_pass_example :
  ∃ st' evs,
    periodicGithubFetcher_cycle two_repositories = Some (tt, st', evs) ∧
    gauges st' = gauges two_repositories ∧
    well_formed (repositories st') (workflows st').
Proof.
  assert (E : ∃ st' evs, periodicGithubFetcher_cycle two_repositories = Some (tt, st', evs)).
  { eexists _, _. vm_compute. reflexivity. }
  destruct E as (st' & evs & E).
  destruct (fetcher_pass _ _ _ E) as (_ & _ & Hg & _ & _ & Hwf).
  exists st', evs. split; [exact E|]. split; [exact Hg|]. apply Hwf. reflexivity.
Defined.

(** ** The billing collector on the cache of the fetcher *)

Lemma forM_events {A : Type} (body : A → M unit) (l : list A) :
  ∀ st st' evs,
    forM l body st = Some (tt, st', evs) →
    ∀ e, e ∈ evs →
         ∃ x sta stb ex, x ∈ l ∧ body x sta = Some (tt, stb, ex) ∧ e ∈ ex ∧
                         ∀ e', e' ∈ ex → e' ∈ evs.
Proof.
  induction l as [|a l IH]; intros st st' evs H e He.
  - injection H as <- <-. inversion He.
  - simpl in H. unfold bind in H.
    destruct (body a st) as [[[[] st1] e1]|] eqn:E1; [|discriminate].
    destruct (forM l body st1) as [[[[] st2] e2]|] eqn:E2; [|discriminate].
    injection H as <- <-. apply elem_of_app in He as [He|He].
    + exists a, st, st1, e1. split; [apply list_elem_of_here|]. split; [exact E1|].
      split; [exact He|]. intros e' He'. apply elem_of_app. left. exact He'.
    + destruct (IH _ _ _ E2 e He) as (x & sta & stb & ex & Hx & Hb & Hin & Hsub).
      exists x, sta, stb, ex. split; [apply list_elem_of_further, Hx|]. split; [exact Hb|].
      split; [exact Hin|]. intros e' He'. apply elem_of_app. right. apply Hsub, He'.
Qed.

Lemma attempt_calls_only (ep : endpoint) (l : list (reply WorkflowUsage.t)) :
  Forall calls_only (flat_map (attempt ep) l).
Proof.
  induction l as [|r l IH]; [constructor|].
  cbn [flat_map]. apply Forall_app. split; [|exact IH].
  destruct r as [[reset|msg]|body next]; repeat constructor.
Qed.

Lemma billWorkflow_events (ToUpper : string → string) (repo owner repoName : string)
    (k : Z) (wf : Workflow.t) (sta stb : State) (ex : list event) :
  Workflow.ID wf = Some k →
  billWorkflow ToUpper repo owner repoName (k, Some wf) sta = Some (tt, stb, ex) →
  (∀ r, LogInvalidRepo r ∉ ex) ∧
  (∀ g labels v,
     GaugeSet g labels v ∈ ex →
     ∃ nodeID name state osType,
       wf = Workflow.mk (Some k) (Some nodeID) (Some name) (Some state) ∧
       labels = bill_labels ToUpper repo k nodeID name state osType ∧
       Request (GetWorkflowUsageByID owner repoName k) 0 ∈ ex) ∧
  (∀ r k', LogIncompleteWorkflow r k' ∈ ex → r = repo ∧ k' = k ∧ lacks_attribute wf).
Proof.
  intros Hid H.
  destruct wf as [id nodeID name state]. simpl in Hid. subst id.
  assert (Hinc : ex = [LogIncompleteWorkflow repo k] →
                 Workflow.NodeID (Workflow.mk (Some k) nodeID name state) = None
                 ∨ Workflow.Name (Workflow.mk (Some k) nodeID name state) = None
                 ∨ Workflow.State (Workflow.mk (Some k) nodeID name state) = None →
                 (∀ r, LogInvalidRepo r ∉ ex) ∧
                 (∀ g labels v,
                    GaugeSet g labels v ∈ ex →
                    ∃ nodeID' name' state' osType,
                      Workflow.mk (Some k) nodeID name state
                      = Workflow.mk (Some k) (Some nodeID') (Some name') (Some state') ∧
                      labels = bill_labels ToUpper repo k nodeID' name' state' osType ∧
                      Request (GetWorkflowUsageByID owner repoName k) 0 ∈ ex) ∧
                 (∀ r k', LogIncompleteWorkflow r k' ∈ ex →
                          r = repo ∧ k' = k
                          ∧ lacks_attribute (Workflow.mk (Some k) nodeID name state))).
  { intros -> Hl. split; [|split].
    - intros r Hr. apply list_elem_of_singleton in Hr. discriminate.
    - intros g labels v Hg. apply list_elem_of_singleton in Hg. discriminate.
    - intros r k' Hr. apply list_elem_of_singleton in Hr. injection Hr as -> ->. auto. }
  destruct nodeID as [nodeID|];
    [|apply Hinc; [unfold billWorkflow, emit in H; congruence | simpl; auto]].
  destruct name as [name|];
    [|apply Hinc; [unfold billWorkflow, emit in H; congruence | simpl; auto]].
  destruct state as [state|];
    [|apply Hinc; [unfold billWorkflow, emit in H; congruence | simpl; auto]].
  clear Hinc. cbn [billWorkflow] in H. unfold bind in H.
  destruct (GetWorkflowUsage_attempts 3 (GetWorkflowUsageByID owner repoName k)
              (Replied None 0) sta) as [[[r st1] e1]|] eqn:Ha; [|discriminate].
  destruct (attempts_shape _ 2 _ _ _ _ _ Ha) as (fails & rest & _ & _ & _ & _ & _ & He1).
  assert (Hcalls : Forall calls_only e1) by (rewrite He1; apply attempt_calls_only).
  assert (Hreq : Request (GetWorkflowUsageByID owner repoName k) 0 ∈ e1).
  { rewrite He1. apply list_elem_of_In, in_flat_map. exists r. split.
    - apply in_or_app. right. left. reflexivity.
    - left. reflexivity. }
  rewrite Forall_forall in Hcalls.
  assert (Htail : ∀ e2,
             ex = e1 ++ e2 →
             Forall (fun e => ∃ osType v,
                       e = GaugeSet workflowBillGauge
                             (bill_labels ToUpper repo k nodeID name state osType) v
                       ∨ ∃ ep, e = LogNoUsage ep) e2 →
             (∀ r, LogInvalidRepo r ∉ ex) ∧
             (∀ g labels v,
                GaugeSet g labels v ∈ ex →
                ∃ nodeID' name' state' osType,
                  Workflow.mk (Some k) (Some nodeID) (Some name) (Some state)
                  = Workflow.mk (Some k) (Some nodeID') (Some name') (Some state') ∧
                  labels = bill_labels ToUpper repo k nodeID' name' state' osType ∧
                  Request (GetWorkflowUsageByID owner repoName k) 0 ∈ ex) ∧
             (∀ r k', LogIncompleteWorkflow r k' ∈ ex →
                      r = repo ∧ k' = k
                      ∧ lacks_attribute
                          (Workflow.mk (Some k) (Some nodeID) (Some name) (Some state)))).
  { intros e2 -> He2. rewrite Forall_forall in He2. split; [|split].
    - intros r' Hr. apply elem_of_app in Hr as [Hr|Hr].
      + apply (Hcalls _ Hr).
      + destruct (He2 _ Hr) as (os & v & [Hx|[ep Hx]]); discriminate.
    - intros g labels v Hg. apply elem_of_app in Hg as [Hg|Hg].
      + destruct (Hcalls _ Hg).
      + destruct (He2 _ Hg) as (os & v' & [Hx|[ep Hx]]); [|discriminate].
        injection Hx as -> -> ->. exists nodeID, name, state, os.
        split; [reflexivity|]. split; [reflexivity|].
        apply elem_of_app. left. exact Hreq.
    - intros r' k' Hr. apply elem_of_app in Hr as [Hr|Hr].
      + destruct (Hcalls _ Hr).
      + destruct (He2 _ Hr) as (os & v & [Hx|[ep Hx]]); discriminate. }
  destruct r as [err|[usageData|] next].
  - unfold emit in H. injection H as <- <-. apply (Htail _ eq_refl).
    constructor; [|constructor]. exists "", 0%Q. right. eauto.
  - destruct (WorkflowUsage.Billable usageData) as [[billMap|]|].
    + rewrite forM_publishBill in H. injection H as <- <-. apply (Htail _ eq_refl).
      apply Forall_forall. intros e He.
      apply list_elem_of_In, in_flat_map in He as ([os bill] & _ & He).
      unfold bill_events in He. destruct (bill_total (os, bill)) as [ms|]; [|destruct He].
      destruct He as [<-|[]]. exists os, (Qmake ms 1000). left. reflexivity.
    + unfold ret in H. injection H as <- <-. apply (Htail _ eq_refl). constructor.
    + unfold ret in H. injection H as <- <-. apply (Htail _ eq_refl). constructor.
  - unfold emit in H. injection H as <- <-. apply (Htail _ eq_refl).
    constructor; [|constructor]. exists "", 0%Q. right. eauto.
Qed.

(** X14: on a cache fit for the list of repositories, as a pass of the
    fetcher leaves it, a pass of the billing collector never meets a
    repository name of the wrong form. Every series it sets is labelled
    by a repository of the cache and by the id, node id, name and state
    of a definition cached for it under that id, and the usage of that
    workflow in that repository was requested in the pass. A definition
    it reports as incomplete is a cached one that lacks its node id, its
    name or its state. *)
Theorem billing_after_fetch (ToUpper : string → string) (st st1 : State)
    (evs : list event) :
  well_formed (repositories st) (workflows st) →
  getBillableFromGithub_cycle ToUpper st = Some (tt, st1, evs) →
  (∀ repo, LogInvalidRepo repo ∉ evs) ∧
  (∀ g labels v,
     GaugeSet g labels v ∈ evs →
     ∃ repo owner repoName m k nodeID name state osType,
       workflows st !! repo = Some m ∧ Split repo slash = [owner; repoName] ∧
       m !! k = Some (Some (Workflow.mk (Some k) (Some nodeID) (Some name) (Some state))) ∧
       labels = bill_labels ToUpper repo k nodeID name state osType ∧
       Request (GetWorkflowUsageByID owner repoName k) 0 ∈ evs) ∧
  (∀ repo k,
     LogIncompleteWorkflow repo k ∈ evs →
     ∃ m wf, workflows st !! repo = Some m ∧ m !! k = Some (Some wf) ∧
             Workflow.ID wf = Some k ∧ lacks_attribute wf).
Proof.
  intros Hwf H. rewrite billing_cycle_unfold in H.
  destruct ((size (workflows st) =? 0)%nat || (length (repositories st) =? 0)%nat).
  { injection H as <- <-. split; [|split].
    - intros repo. apply not_elem_of_nil.
    - intros g labels v Hin. destruct (not_elem_of_nil _ Hin).
    - intros repo k Hin. destruct (not_elem_of_nil _ Hin). }
  destruct (forM (map_to_list (workflows st)) (billRepo ToUpper)
              (reset_all [workflowBillGauge] st)) as [[[[] st1'] e]|] eqn:E; [|discriminate].
  injection H as <- <-.
  assert (Hev : ∀ ev, ev ∈ map GaugeReset [workflowBillGauge] ++ e →
                      ev ≠ GaugeReset workflowBillGauge →
                      ∃ repo owner repoName m k wf sta stb ex,
                        workflows st !! repo = Some m ∧
                        Split repo slash = [owner; repoName] ∧
                        m !! k = Some (Some wf) ∧ Workflow.ID wf = Some k ∧
                        billWorkflow ToUpper repo owner repoName (k, Some wf) sta
                        = Some (tt, stb, ex) ∧
                        ev ∈ ex ∧ ∀ e', e' ∈ ex → e' ∈ e).
  { intros ev Hin Hne. cbn in Hin. apply elem_of_cons in Hin as [->|Hin]; [contradiction|].
    destruct (forM_events _ _ _ _ _ E ev Hin) as ([repo m] & sta & stb & ex & Hx & Hb & He & Hs).
    apply elem_of_map_to_list in Hx.
    destruct (Hwf repo m Hx) as (_ & (owner & repoName & Hsplit) & _ & Hkeyed).
    unfold billRepo in Hb. rewrite Hsplit in Hb.
    destruct (forM_events _ _ _ _ _ Hb ev He) as ([k w] & sta' & stb' & ex' & Hx' & Hb' & He' & Hs').
    apply elem_of_map_to_list in Hx'.
    destruct (Hkeyed k w Hx') as (wf & -> & Hid).
    exists repo, owner, repoName, m, k, wf, sta', stb', ex'. auto 10. }
  split; [|split].
  - intros repo Hin.
    destruct (Hev _ Hin) as (r & o & n & m & k & wf & sta & stb & ex & _ & _ & _ & Hid & Hb & He & _);
      [discriminate|].
    apply (proj1 (billWorkflow_events _ _ _ _ _ _ _ _ _ Hid Hb) repo He).
  - intros g labels v Hin.
    destruct (Hev _ Hin) as (r & o & n & m & k & wf & sta & stb & ex & Hm & Hs & Hk & Hid & Hb & He & Hsub);
      [discriminate|].
    destruct (proj1 (proj2 (billWorkflow_events _ _ _ _ _ _ _ _ _ Hid Hb)) g labels v He)
      as (nodeID & name & state & os & -> & -> & Hreq).
    exists r, o, n, m, k, nodeID, name, state, os.
    split; [exact Hm|]. split; [exact Hs|]. split; [exact Hk|]. split; [reflexivity|].
    apply list_elem_of_further, Hsub, Hreq.
  - intros repo k Hin.
    destruct (Hev _ Hin) as (r & o & n & m & k' & wf & sta & stb & ex & Hm & Hs & Hk & Hid & Hb & He & _);
      [discriminate|].
    destruct (proj2 (proj2 (billWorkflow_events _ _ _ _ _ _ _ _ _ Hid Hb)) repo k He)
      as (-> & -> & Hl).
    exists m, wf. auto.
Qed.

Lemma billing_after_fetch_example :
  ∃ st1 evs,
    getBillableFromGithub_cycle upper billing_pass = Some (tt, st1, evs) ∧
    ∀ repo, LogInvalidRepo repo ∉ evs.
Proof.
  assert (E : ∃ st1 evs, getBillableFromGithub_cycle upper billing_pass = Some (tt, st1, evs)).
  { eexists _, _. vm_compute. reflexivity. }
  destruct E as (st1 & evs & E).
  exists st1, evs. split; [exact E|].
  refine (proj1 (billing_after_fetch upper billing_pass st1 evs _ E)).
  intros repo m Hm. unfold billing_pass, example_cache in Hm. cbn [workflows] in Hm.
  apply lookup_singleton_Some in Hm as [<- <-].
  split; [apply list_elem_of_here|]. split; [exists "o", "r"; reflexivity|].
  split; [apply insert_non_empty|].
  intros k w Hk. apply lookup_singleton_Some in Hk as [<- <-]. eauto.
Defined.

(** ** The runs of a repository *)

Lemma processRun_skipped (fields : list string) (repoFullName owner repoName : string)
    (run : option WorkflowRun.t) (st : State) :
  run ≫= WorkflowRun.ID = None →
  processRun fields repoFullName owner repoName run st = Some (tt, st, []).
Proof.
  destruct run as [run|]; [|reflexivity]. simpl. unfold processRun.
  intros ->. reflexivity.
Qed.

Lemma processRun_step (fields : list string) (repoFullName owner repoName : string)
    (run : WorkflowRun.t) (id : Z) (st : State) :
  WorkflowRun.ID run = Some id →
  match processRun fields repoFullName owner repoName (Some run) st with
  | Some (_, st', evs) =>
      enabled st' = enabled st ∧
      length (sets_of workflowRunStatusGauge evs) = 1%nat ∧
      (if enabled st
       then ∃ usage, run_usages (server st) = usage :: run_usages (server st') ∧
                     endpoints evs = [GetWorkflowRunUsageByID owner repoName id] ∧
                     length (sets_of workflowRunDurationGauge evs) = 1%nat
       else run_usages (server st') = run_usages (server st) ∧ endpoints evs = [] ∧
            sets_of workflowRunDurationGauge evs = [])
  | None => enabled st = true ∧ run_usages (server st) = []
  end.
Proof.
  intros Hid. unfold processRun. rewrite Hid.
  rewrite bind_get. unfold bind at 1. unfold WithLabelValues_Set at 1.
  rewrite bind_usage_enabled.
  set (st1 := set_gauges _ st).
  assert (He : enabled st1 = enabled st).
  { unfold enabled, st1. simpl. rewrite lookup_insert_ne by discriminate. reflexivity. }
  rewrite He. destruct (enabled st) eqn:Hen.
  - unfold bind, call. simpl.
    destruct (run_usages (server st)) as [|usage rest]; [auto|].
    simpl. split; [|split; [reflexivity|]].
    + unfold enabled in *. simpl. rewrite lookup_insert_eq.
      apply andb_true_iff in Hen as [-> _]. reflexivity.
    + exists usage. auto.
  - unfold ret. simpl. auto.
Qed.

Lemma sets_of_app (g : gauge) (e1 e2 : list event) :
  sets_of g (e1 ++ e2) = sets_of g e1 ++ sets_of g e2.
Proof. apply omap_app. Qed.

Lemma endpoints_app (e1 e2 : list event) : endpoints (e1 ++ e2) = endpoints e1 ++ endpoints e2.
Proof. apply omap_app. Qed.

Lemma run_ids_cons (run : option WorkflowRun.t) (runs : list (option WorkflowRun.t)) :
  run_ids (run :: runs)
  = match run ≫= WorkflowRun.ID with
    | Some id => id :: run_ids runs
    | None => run_ids runs
    end.
Proof. reflexivity. Qed.

Lemma forM_processRun (fields : list string) (repoFullName owner repoName : string)
    (runs : list (option WorkflowRun.t)) :
  ∀ st,
    match forM runs (processRun fields repoFullName owner repoName) st with
    | Some (_, st', evs) =>
        length (sets_of workflowRunStatusGauge evs) = length (run_ids runs) ∧
        (if enabled st
         then run_usages (server st)
              = take (length (run_ids runs)) (run_usages (server st))
                ++ run_usages (server st') ∧
              (length (run_ids runs) ≤ length (run_usages (server st)))%nat ∧
              endpoints evs = map (GetWorkflowRunUsageByID owner repoName) (run_ids runs) ∧
              length (sets_of workflowRunDurationGauge evs) = length (run_ids runs)
         else run_usages (server st') = run_usages (server st) ∧ endpoints evs = [] ∧
              sets_of workflowRunDurationGauge evs = [])
    | None =>
        enabled st = true ∧ (length (run_usages (server st)) < length (run_ids runs))%nat
    end.
Proof.
  induction runs as [|run runs IH]; intros st.
  - simpl. unfold ret. destruct (enabled st); auto.
    split; [reflexivity|]. repeat split; auto. simpl. lia.
  - cbn [forM]. unfold bind.
    destruct (run ≫= WorkflowRun.ID) as [id|] eqn:Hid.
    + destruct run as [run|]; [|discriminate]. simpl in Hid.
      assert (Hids : run_ids (Some run :: runs) = id :: run_ids runs).
      { rewrite run_ids_cons. simpl. rewrite Hid. reflexivity. }
      rewrite Hids. clear Hids.
      pose proof (processRun_step fields repoFullName owner repoName run id st Hid) as Hstep.
      destruct (processRun fields repoFullName owner repoName (Some run) st)
        as [[[[] st1] e1]|].
      * destruct Hstep as (Hen & Hs1 & Hrest).
        specialize (IH st1). rewrite Hen in IH.
        destruct (forM runs (processRun fields repoFullName owner repoName) st1)
          as [[[[] st2] e2]|].
        -- destruct IH as (Hs2 & IH).
           rewrite sets_of_app, length_app, Hs1, Hs2.
           split; [reflexivity|].
           destruct (enabled st).
           ++ destruct Hrest as (usage & Hu & Hep & Hd).
              destruct IH as (Ht & Hle & Hep2 & Hd2).
              rewrite Hu. cbn [take length app map].
              rewrite endpoints_app, Hep, Hep2, sets_of_app, length_app, Hd, Hd2.
              split; [rewrite <- Ht; reflexivity|].
              split; [lia|]. split; reflexivity.
           ++ destruct Hrest as (Hu & Hep & Hd). destruct IH as (Hu2 & Hep2 & Hd2).
              rewrite endpoints_app, Hep, Hep2, sets_of_app, Hd, Hd2.
              split; [congruence|]. split; reflexivity.
        -- destruct IH as (Htrue & Hlt). split; [exact Htrue|].
           rewrite Htrue in Hrest. destruct Hrest as (usage & Hu & _).
           rewrite Hu. cbn [length]. lia.
      * destruct Hstep as (Htrue & Hnil). split; [exact Htrue|].
        rewrite Hnil. cbn [length]. lia.
    + assert (Hids : run_ids (run :: runs) = run_ids runs).
      { rewrite run_ids_cons, Hid. reflexivity. }
      rewrite Hids, (processRun_skipped _ _ _ _ _ _ Hid). clear Hids.
      specialize (IH st).
      destruct (forM runs (processRun fields repoFullName owner repoName) st)
        as [[[[] st2] e2]|]; exact IH.
Qed.

(** X15: over the runs fetched for a repository, a nil entry and a run
    without id give nothing; every other run gives one series of the
    status gauge. When the duration is collected (the flag is set and the
    gauge exists), each of these runs also costs one usage request, for
    its own id and in the order of the runs, and gives one series of the
    duration gauge; the loop returns exactly when the server has a reply
    for each of these requests. When the duration is not collected, the
    loop always returns, asks nothing and sets no duration. *)
Theorem runs_of_a_repository (fields : list string) (repoFullName owner repoName : string)
    (runs : list (option WorkflowRun.t)) (st : State) :
  (is_Some (forM runs (processRun fields repoFullName owner repoName) st)
   ↔ (enabled st = true →
      (length (run_ids runs) ≤ length (run_usages (server st)))%nat)) ∧
  ∀ st' evs,
    forM runs (processRun fields repoFullName owner repoName) st = Some (tt, st', evs) →
    length (sets_of workflowRunStatusGauge evs) = length (run_ids runs) ∧
    endpoints evs
    = (if enabled st then map (GetWorkflowRunUsageByID owner repoName) (run_ids runs) else []) ∧
    length (sets_of workflowRunDurationGauge evs)
    = (if enabled st then length (run_ids runs) else 0%nat) ∧
    run_usages (server st)
    = take (if enabled st then length (run_ids runs) else 0%nat) (run_usages (server st))
      ++ run_usages (server st').
Proof.
  pose proof (forM_processRun fields repoFullName owner repoName runs st) as H.
  destruct (forM runs (processRun fields repoFullName owner repoName) st)
    as [[[[] st1] e1]|].
  - destruct H as (Hs & H). split.
    + split; [|eauto]. intros _ Hen. rewrite Hen in H. apply H.
    + intros st' evs Heq. injection Heq as <- <-. split; [exact Hs|].
      destruct (enabled st).
      * destruct H as (Ht & _ & Hep & Hd). auto.
      * destruct H as (Hu & Hep & Hd). rewrite Hd, Hu. auto.
  - destruct H as (Hen & Hlt). split; [|discriminate].
    split; [intros [x Hx]; discriminate|].
    intros Hle. specialize (Hle Hen). lia.
Qed.

Lemma runs_of_a_repository_example :
  ∃ st' evs,
    forM three_runs (processRun default_field_names "o/r" "o" "r") one_usage
    = Some (tt, st', evs) ∧
    length (sets_of workflowRunStatusGauge evs) = 1%nat ∧
    endpoints evs = [GetWorkflowRunUsageByID "o" "r" 1].
Proof.
  destruct (proj2 (proj1 (runs_of_a_repository default_field_names "o/r" "o" "r" three_runs
                            one_usage)))
    as [[[[] st'] evs] E].
  { intros _. vm_compute. lia. }
  exists st', evs. split; [exact E|].
  destruct (proj2 (runs_of_a_repository default_field_names "o/r" "o" "r" three_runs one_usage)
              st' evs E) as (Hs & Hep & _).
  split; [exact Hs | exact Hep].
Defined.

(** ** The tickers *)

Lemma wrap64_small (z : Z) :
  - 9223372036854775808 ≤ z < 9223372036854775808 → wrap64 z = z.
Proof.
  intros Hz. unfold wrap64.
  change (2 ^ 63) with 9223372036854775808. change (2 ^ 64) with 18446744073709551616.
  rewrite Z.mod_small; lia.
Qed.



(** ** The status series of the runs of a repository *)

Lemma processRun_status (fields : list string) (repoFullName owner repoName : string)
    (run : option WorkflowRun.t) (st st' : State) (evs : list event) :
  processRun fields repoFullName owner repoName run st = Some (tt, st', evs) →
  workflows st' = workflows st ∧
  sets_of workflowRunStatusGauge evs
  = option_list (status_series (workflows st) fields repoFullName run).
Proof.
  intros H.
  split.
  { exact (proj1 (proj2 (proj2 (proj2 (safe_processRun (enabled st) fields repoFullName owner
                                         repoName run st tt st' evs eq_refl H))))). }
  destruct run as [run|]; [|injection H as <- <-; reflexivity].
  unfold status_series. simpl. unfold processRun in H.
  destruct (WorkflowRun.ID run) as [id|]; [|injection H as <- <-; reflexivity].
  simpl. rewrite bind_get in H. unfold bind at 1 in H. unfold WithLabelValues_Set at 1 in H.
  rewrite bind_usage_enabled in H.
  destruct (enabled _).
  - unfold bind, call in H. simpl in H.
    destruct (run_usages (server st)) as [|usage rest]; [discriminate|].
    simpl in H. injection H as <- <-. reflexivity.
  - unfold ret in H. injection H as <- <-. reflexivity.
Qed.

Lemma omap_cons_list {A B : Type} (f : A → option B) (x : A) (l : list A) :
  omap f (x :: l) = option_list (f x) ++ omap f l.
Proof. simpl. destruct (f x); reflexivity. Qed.

Lemma forM_processRun_status (fields : list string) (repoFullName owner repoName : string)
    (runs : list (option WorkflowRun.t)) :
  ∀ st st' evs,
    forM runs (processRun fields repoFullName owner repoName) st = Some (tt, st', evs) →
    sets_of workflowRunStatusGauge evs
    = omap (status_series (workflows st) fields repoFullName) runs.
Proof.
  induction runs as [|run runs IH]; intros st st' evs H.
  - injection H as <- <-. reflexivity.
  - cbn [forM] in H. unfold bind in H.
    destruct (processRun fields repoFullName owner repoName run st)
      as [[[[] st1] e1]|] eqn:E1; [|discriminate].
    destruct (forM runs (processRun fields repoFullName owner repoName) st1)
      as [[[[] st2] e2]|] eqn:E2; [|discriminate].
    injection H as <- <-.
    destruct (processRun_status _ _ _ _ _ _ _ _ E1) as [Hw Hs].
    rewrite sets_of_app, Hs, (IH _ _ _ E2), Hw, omap_cons_list. reflexivity.
Qed.

Lemma run_id_label (cache : WorkflowCache) (fields : list string) (repoFullName : string)
    (run run' : WorkflowRun.t) (id id' : Z) :
  "run_id" ∈ fields →
  WorkflowRun.ID run = Some id → WorkflowRun.ID run' = Some id' →
  labelValues cache fields repoFullName run = labelValues cache fields repoFullName run' →
  id = id'.
Proof.
  intros Hin Hid Hid' Heq. apply list_elem_of_lookup in Hin as [i Hi].
  apply (f_equal (fun l => l !! i)) in Heq. unfold labelValues in Heq.
  rewrite !list_lookup_fmap, Hi in Heq. simpl in Heq.
  unfold getFieldValue in Heq. simpl in Heq. rewrite Hid, Hid' in Heq. simpl in Heq.
  injection Heq as Heq. apply (inj pretty) in Heq. exact Heq.
Qed.



(** ** The name of the workflow of a run *)

Lemma workflow_name_lookup (cache : WorkflowCache) (fields : list string)
    (repoFullName : string) (run : WorkflowRun.t) (i : nat) :
  fields !! i = Some "workflow_name" →
  labelValues cache fields repoFullName run !! i
  = Some (getFieldValue cache repoFullName run "workflow_name").
Proof.
  intros Hi. unfold labelValues. rewrite list_lookup_fmap, Hi. reflexivity.
Qed.

(** X18: at the positions of the field "workflow_name", the label of a
    run is the name of the definition cached for its repository under its
    workflow id (0 for a run without one), when there is such a
    definition and it has a name. On a cache fit for the list of
    repositories, as the fetcher leaves it, a label other than the
    sentinel "unknown_workflow_name" is always such a name: that of a
    definition of a monitored repository whose own id is the workflow id
    of the run. *)
Theorem workflow_name_after_fetch (repos : list string) (cache : WorkflowCache)
    (fields : list string) (repoFullName : string) (run : WorkflowRun.t) (i : nat) :
  fields !! i = Some "workflow_name" →
  (∀ m wf name,
     cache !! repoFullName = Some m →
     m !! getSafeInt64 (WorkflowRun.WorkflowID run) = Some (Some wf) →
     Workflow.Name wf = Some name →
     labelValues cache fields repoFullName run !! i = Some name) ∧
  (well_formed repos cache →
   ∀ name,
     labelValues cache fields repoFullName run !! i = Some name →
     name ≠ "unknown_workflow_name" →
     repoFullName ∈ repos ∧
     ∃ m wf, cache !! repoFullName = Some m ∧
             m !! getSafeInt64 (WorkflowRun.WorkflowID run) = Some (Some wf) ∧
             Workflow.ID wf = Some (getSafeInt64 (WorkflowRun.WorkflowID run)) ∧
             Workflow.Name wf = Some name).
Proof.
  intros Hi. rewrite (workflow_name_lookup _ _ _ _ _ Hi).
  unfold getFieldValue. simpl. split.
  - intros m wf name -> -> ->. reflexivity.
  - intros Hwf name Hname Hne. injection Hname as Hname.
    destruct (cache !! repoFullName) as [m|] eqn:Hm; [|congruence].
    destruct (Hwf _ _ Hm) as (Hin & _ & _ & Hkeyed).
    split; [exact Hin|].
    destruct (m !! getSafeInt64 (WorkflowRun.WorkflowID run)) as [[wf|]|] eqn:Hk;
      try congruence.
    destruct (Hkeyed _ _ Hk) as (wf' & [= <-] & Hid).
    destruct (Workflow.Name wf) as [name'|] eqn:Hn; [|congruence].
    exists m, wf. subst name'. auto.
Qed.

Lemma workflow_name_after_fetch_example :
  labelValues example_cache default_field_names "o/r" run_of_workflow_5 !! 2%nat = Some "CI".
Proof.
  apply (proj1 (workflow_name_after_fetch [] example_cache default_field_names "o/r"
                  run_of_workflow_5 2 eq_refl)
           {[ 5 := Some (Workflow.mk (Some 5) (Some "W_5") (Some "CI") (Some "active")) ]}
           (Workflow.mk (Some 5) (Some "W_5") (Some "CI") (Some "active")));
    reflexivity.
Defined.
